(** * Neodux: the reducer compiler and the dispatch engine

    A shallow embedding of [lib/actions.ts] (the [ActionsRegistry] with
    [createActionHandler] and [createStore]) and of the [Store] class
    ([constructor], [init], [dispatch]), followed by the properties of the
    specification stated over that embedding.

    Conventions of the embedding.
    - A JavaScript object is an insertion-ordered association list of its own
      properties ([Object.keys] order); members inherited from a prototype
      are not part of the model.
    - Numbers are the integers and [NaN].
    - A promise is represented by its settlement ([Ok] = fulfilled,
      [Throw] = rejected); an [async] function is a function into [result].
    - Raw handlers are pure: they map (state, payload) to a value or throw,
      and do not use the [dispatch] function that they are handed.
    - Time is cut into synchronous runs: a call of [dispatch] from outside
      runs until control returns to the caller; the executor of [dispatch]
      contains no [await], so the flush of the queue belongs to the run of
      the call that started it. *)

From Stdlib Require Import List String Ascii ZArith Lia Bool Arith.
From Stdlib Require Import DecimalString.
Import ListNotations.
Open Scope string_scope.
Open Scope list_scope.

Set Implicit Arguments.
#[local] Set Warnings "-register-all".

(** ** JavaScript values *)

Inductive val : Type :=
| VUndef
| VNum (n : Z)
| VNaN
| VStr (s : string)
| VObj (props : list (string * val)).

Definition obj := list (string * val).

(** Errors that the code throws.  The three [new Error(...)] sites are kept
    apart by constructor instead of by message text:
    - [DuplicateNameError n]: [action with name: "n" already exists]
      (actions.ts, [register]);
    - [UnknownActionError n]: [action="n" does not exist] ([Store.dispatch]);
    - [InvalidActionTypeError n k]: [invalid action type: actionName=n; type=k]
      ([Store.constructor]).
    [TypeError] is the engine's own error (calling a non-function, writing a
    property of a primitive in strict mode, reading a property of
    [undefined]); [Thrown v] is a value thrown by user code. *)
Inductive js_error : Type :=
| DuplicateNameError (name : string)
| UnknownActionError (name : string)
| InvalidActionTypeError (name : string) (key : string)
| TypeError (what : string)
| Thrown (v : val).

Inductive result (A : Type) : Type :=
| Ok (a : A)
| Throw (e : js_error).
Arguments Throw {A} e.

Definition is_ok {A} (r : result A) : bool :=
  match r with Ok _ => true | Throw _ => false end.

Definition is_undef (v : val) : bool :=
  match v with VUndef => true | _ => false end.

(** [v === s] for a string [s]. *)
Definition is_str (v : val) (s : string) : bool :=
  match v with VStr s' => String.eqb s' s | _ => false end.

(** ** Actions and handlers ([IAction], [Handler], [IActionSelectHandler],
    [IActionTypeToHandler]) *)

Record IAction : Type := mkAction { atype : val; payload : val }.

(** [Handler]: [({state, payload}) => newState]. *)
Definition Handler := val -> val -> result val.

Record IActionSelectHandler : Type :=
  mkSelectHandler { selector : string; handler : Handler }.

Record IActionTypeToHandler : Type :=
  mkDecl { name : string; type : string; decl : IActionSelectHandler }.

(** ** Step 1 of [createActionHandler]: the adapter

    [actionHandler] of actions.ts lines 188-213.  The first component lists
    the invocations of the raw handler, as (state, payload) pairs, in the
    order in which they are made; the second is the settlement of the
    promise that the [async] adapter returns. *)
Definition actionHandler (d : IActionTypeToHandler)
           (state : val) (action : option IAction)
  : list (val * val) * result val :=
  if is_undef state then
    ([(VUndef, VUndef)], handler (decl d) VUndef VUndef)
  else
    match action with
    | None => ([], Ok state)
    | Some a =>
        if is_str (atype a) (type d)
        then ([(state, payload a)], handler (decl d) state (payload a))
        else ([], Ok state)
    end.

(** ** Property access

    [assoc k o] is the own property [k] of [o]; [put k v o] is [o[k] = v]:
    an existing key keeps its position, a new key is appended. *)
Fixpoint assoc {A} (k : string) (o : list (string * A)) : option A :=
  match o with
  | [] => None
  | (k', v) :: o' => if String.eqb k k' then Some v else assoc k o'
  end.

Fixpoint put {A} (k : string) (v : A) (o : list (string * A))
  : list (string * A) :=
  match o with
  | [] => [(k, v)]
  | (k', v') :: o' =>
      if String.eqb k k' then (k, v) :: o' else (k', v') :: put k v o'
  end.

Definition keys {A} (o : list (string * A)) : list string := map fst o.

(** The own properties of a string primitive: [length] and the canonical
    array indices below it. *)
Definition str_get (s : string) (k : string) : val :=
  if String.eqb k "length" then VNum (Z.of_nat (String.length s))
  else
    match NilZero.uint_of_string k with
    | Some u =>
        if String.eqb (NilZero.string_of_uint u) k then
          match String.get (Nat.of_uint u) s with
          | Some c => VStr (String c EmptyString)
          | None => VUndef
          end
        else VUndef
    | None => VUndef
    end.

(** [v[k]]: reading a property. *)
Definition get (v : val) (k : string) : result val :=
  match v with
  | VUndef => Throw (TypeError "cannot read property of undefined")
  | VNum _ | VNaN => Ok VUndef
  | VStr s => Ok (str_get s k)
  | VObj o => Ok (match assoc k o with Some x => x | None => VUndef end)
  end.

(** [v[k] = x]: writing a property (the modules are strict-mode code, so a
    write to a primitive throws). *)
Definition set (v : val) (k : string) (x : val) : result val :=
  match v with
  | VObj o => Ok (VObj (put k x o))
  | VUndef => Throw (TypeError "cannot set property of undefined")
  | _ => Throw (TypeError "cannot create property on primitive")
  end.

Definition bind {A B} (r : result A) (f : A -> result B) : result B :=
  match r with Ok a => f a | Throw e => Throw e end.

Notation "x <- r ;; k" := (bind r (fun x => k))
  (at level 61, r at next level, right associativity).

(** ** [String.prototype.split('.')] and [Array.prototype.join('.')] *)

Definition dot : ascii := "."%char.

(** [split_aux acc s]: [acc] is the segment read so far. *)
Fixpoint split_aux (acc : string) (s : string) : list string :=
  match s with
  | EmptyString => [acc]
  | String c s' =>
      if Ascii.eqb c dot then acc :: split_aux EmptyString s'
      else split_aux (acc ++ String c EmptyString)%string s'
  end.

Definition split (s : string) : list string := split_aux EmptyString s.

Fixpoint join (l : list string) : string :=
  match l with
  | [] => EmptyString
  | [x] => x
  | x :: l' => (x ++ "." ++ join l')%string
  end.

(** ** Steps 2-4 of [createActionHandler]: the action tree

    An entry of the tree is what the code stores at [root[dest][suffix]]:
    the adapter of a declaration, or, after a collision, the value of
    [compose(ah.handler, root[ah.selector])].  [compose] is declared
    [async], so that value is a promise and not a function; its second
    argument [root[ah.selector]] is read from the accumulator (root case) or
    from the table of parent paths (nested case), never from the slot that
    collided. *)
Inductive composed_arg : Type :=
| GnUndefined
| GnObject.

Inductive leaf : Type :=
| LAdapter (d : IActionTypeToHandler)
| LComposed (fn : IActionTypeToHandler) (gn : composed_arg).

Definition table := list (string * leaf).

Record actionTree : Type :=
  mkTree { root : table; nested : list (string * table) }.

(** [accum[k]] on the accumulator [{ root: ..., nested: ... }]. *)
Definition accum_get (k : string) : composed_arg :=
  if String.eqb k "root" then GnObject
  else if String.eqb k "nested" then GnObject
  else GnUndefined.

Definition nested_get (k : string) (n : list (string * table))
  : composed_arg :=
  match assoc k n with Some _ => GnObject | None => GnUndefined end.

(** [root[dest][suffix] = ...] of lines 243-250, on one table. *)
Definition install (suffix : string) (d : IActionTypeToHandler)
           (gn : composed_arg) (t : table) : table :=
  match assoc suffix t with
  | None => put suffix (LAdapter d) t
  | Some _ => put suffix (LComposed d gn) t
  end.

(** The callback of the [reduce] of lines 227-254. *)
Definition add_handler (accum : actionTree) (d : IActionTypeToHandler)
  : actionTree :=
  let sel := selector (decl d) in
  let parts := split sel in
  if (1 <? List.length parts)%nat then
    let suffix := last parts EmptyString in
    let dest := join (removelast parts) in
    let n :=
      match assoc dest (nested accum) with
      | None => put dest [] (nested accum)
      | Some _ => nested accum
      end in
    let t := match assoc dest n with Some t => t | None => [] end in
    mkTree (root accum) (put dest (install suffix d (nested_get sel n) t) n)
  else
    let suffix := hd EmptyString parts in
    mkTree (install suffix d (accum_get sel) (root accum)) (nested accum).

Definition build_tree (hs : list IActionTypeToHandler) : actionTree :=
  fold_left add_handler hs (mkTree [] []).

(** [nestedTraversers], lines 258-268. *)
Record traverser : Type :=
  mkTraverser { path : list string; thandler : table }.

Definition nestedTraversers (t : actionTree) : list traverser :=
  map (fun kv => mkTraverser (split (fst kv)) (snd kv)) (nested t).

(** Calling an entry: [actionTree.root[key]({state, action, dispatch})].
    A promise is not callable. *)
Definition call_leaf (l : leaf) (state : val) (action : option IAction)
  : result val :=
  match l with
  | LAdapter d => snd (actionHandler d state action)
  | LComposed _ _ => Throw (TypeError "is not a function")
  end.

(** ** Step 5 of [createActionHandler]: the composed reducer

    The state tree is a value; the object that the code reaches through the
    reference [curr] is identified with its path from the root.  The two
    coincide as long as no registered selector is a proper prefix of
    another one (no entry then replaces a container that a traverser
    holds), which the properties about nested writes assume. *)

(** The loop of lines 291-296: walk [p] from [curr], creating [{}] where a
    node is undefined.  The result is the tree rooted at [curr] afterwards. *)
Fixpoint materialize (curr : val) (p : list string) : result val :=
  match p with
  | [] => Ok curr
  | k :: rest =>
      v <- get curr k ;;
      curr1 <- (if is_undef v then set curr k (VObj []) else Ok curr) ;;
      child <- get curr1 k ;;
      child' <- materialize child rest ;;
      Ok (match curr1 with
          | VObj o => VObj (put k child' o)
          | _ => curr1
          end)
  end.

Fixpoint get_path (v : val) (p : list string) : result val :=
  match p with
  | [] => Ok v
  | k :: rest => c <- get v k ;; get_path c rest
  end.

(** [curr[k] = x] for the node [curr] at path [p]. *)
Fixpoint set_path (v : val) (p : list string) (k : string) (x : val)
  : result val :=
  match p with
  | [] => set v k x
  | k0 :: rest =>
      c <- get v k0 ;;
      c' <- set_path c rest k x ;;
      Ok (match v with
          | VObj o => VObj (put k0 c' o)
          | _ => v
          end)
  end.

(** One pending entry: where its result will be written, and the settlement
    of the promise of its handler. *)
Record entry : Type :=
  mkEntry { epath : list string; ekey : string; eout : result val }.

(** The synchronous part of [rootPromises] (lines 277-285): every root
    entry is called with [state[key]]. *)
Definition root_calls (t : table) (state : val) (action : option IAction)
  : list entry :=
  map (fun kv =>
         mkEntry [] (fst kv)
                 (v <- get state (fst kv) ;; call_leaf (snd kv) v action))
      t.

(** The synchronous part of [nestedPromises] (lines 288-306): the
    traversers run in order, each materializing its path and then calling
    its entries with [curr[key]].  A throw in the loop leaves the reducer. *)
Fixpoint nested_calls (ts : list traverser) (state : val)
         (action : option IAction) : result (val * list entry) :=
  match ts with
  | [] => Ok (state, [])
  | t :: ts' =>
      state1 <- materialize state (path t) ;;
      curr <- get_path state1 (path t) ;;
      let outs :=
        map (fun kv =>
               mkEntry (path t) (fst kv)
                       (v <- get curr (fst kv) ;;
                        call_leaf (snd kv) v action))
            (thandler t) in
      r <- nested_calls ts' state1 action ;;
      Ok (fst r, outs ++ snd r)
  end.

(** The continuations after the [await]s: each entry writes its value.
    When several entries reject, which rejection [Promise.all] reports
    depends on the order of the microtasks; the model reports the first in
    entry order, and no property below depends on that choice. *)
Fixpoint writes (es : list entry) (state : val) : result val :=
  match es with
  | [] => Ok state
  | e :: es' =>
      x <- eout e ;;
      state' <- set_path state (epath e) (ekey e) x ;;
      writes es' state'
  end.

Definition reduce (tree : actionTree) (state : obj)
           (action : option IAction) : result val :=
  let rs := root_calls (root tree) (VObj state) action in
  r <- nested_calls (nestedTraversers tree) (VObj state) action ;;
  writes (rs ++ snd r) (fst r).

(** What [_state] can hold: nothing yet, a state tree, or the promise that
    an [async] reducer returned. *)
Inductive snapshot : Type :=
| SUndef
| SObj (o : obj)
| SPromise (r : result val).

(** The function returned by [createActionHandler] (lines 271-309), as the
    settlement of the promise it returns.  [state = {}] replaces an
    undefined argument only.  A promise passed as [state] is an object
    without own properties: every entry reads [undefined] from it, the
    writes go to the promise object, and [return state] makes the returned
    promise adopt its settlement. *)
Definition composed (tree : actionTree) (state : snapshot)
           (action : option IAction) : result val :=
  match state with
  | SUndef => reduce tree [] action
  | SObj o => reduce tree o action
  | SPromise r => _ <- reduce tree [] action ;; r
  end.

Definition createActionHandler (hs : list IActionTypeToHandler)
  : snapshot -> option IAction -> result val :=
  composed (build_tree hs).

(** ** Side effects and dispatch calls *)

(** The first argument of [dispatch]: an action object or a name. *)
Inductive dispatch_target : Type :=
| ByAction (a : IAction)
| ByName (n : string).

(** One call [dispatch(target, type, payload)]. *)
Record dispatch_call : Type :=
  mkCall { target : dispatch_target; arg1 : val; arg2 : val }.

(** Modelled from the spec: the class [Getter] of [./getter], which is not
    among the sources; the specification describes it as a read-only
    wrapper of the state.  [new Getter(value)] is [mkGetter value]. *)
Record Getter : Type := mkGetter { wrapped : snapshot }.

(** What a side-effect callback does while it runs: the calls of
    [dispatch] it makes, in order, and whether it then throws. *)
Record effect_run : Type :=
  mkRun { calls : list dispatch_call; thrown : option js_error }.

(** [SideEffect]: [({state, dispatch, type}) => void]. *)
Definition SideEffect := Getter -> val -> effect_run.

Record ISideEffectHandler : Type :=
  mkSideEffect { actionType : string; sehandler : SideEffect }.

(** Conversion of a value to a property key. *)
Definition to_key (v : val) : string :=
  match v with
  | VStr s => s
  | VUndef => "undefined"
  | VNaN => "NaN"
  | VNum z => NilZero.string_of_int (Z.to_int z)
  | VObj _ => "[object Object]"
  end.

(** ** The registry ([ActionsRegistry]) *)

Record ActionsRegistry : Type :=
  mkRegistry {
      _actionNames : list (string * string);
      _actionTypes : list (string * bool);
      _actionTypeToHandlers : list IActionTypeToHandler;
      _sideEffects : list (string * list ISideEffectHandler) }.

Definition empty_registry : ActionsRegistry := mkRegistry [] [] [] [].

(** Truthiness of [this._actionNames[name]]: a registered name whose type is
    the empty string is falsy. *)
Definition name_taken (r : ActionsRegistry) (n : string) : bool :=
  match assoc n (_actionNames r) with
  | Some t => negb (String.eqb t EmptyString)
  | None => false
  end.

(** [register(name, actionType, actionHandler)], lines 106-149, for the
    overload that names the type. *)
Definition register (r : ActionsRegistry) (n : string) (ty : string)
           (h : IActionSelectHandler) : result ActionsRegistry :=
  if name_taken r n then Throw (DuplicateNameError n)
  else Ok (mkRegistry (put n ty (_actionNames r))
                      (put ty true (_actionTypes r))
                      (_actionTypeToHandlers r ++ [mkDecl n ty h])
                      (_sideEffects r)).

(** The overload without a type: [supply] lists the successive results of
    [generateRandStr()]; the first one that is not a registered type is
    used. *)
Fixpoint fresh_type (supply : list string) (types : list (string * bool))
  : option string :=
  match supply with
  | [] => None
  | t :: supply' =>
      match assoc t types with
      | None => Some t
      | Some _ => fresh_type supply' types
      end
  end.

Definition register_unnamed (r : ActionsRegistry) (n : string)
           (supply : list string) (h : IActionSelectHandler)
  : option (result ActionsRegistry) :=
  match fresh_type supply (_actionTypes r) with
  | Some ty => Some (register r n ty h)
  | None => None
  end.

(** [sideEffect(s)], lines 156-162. *)
Definition sideEffect (r : ActionsRegistry) (s : ISideEffectHandler)
  : ActionsRegistry :=
  let l := match assoc (actionType s) (_sideEffects r) with
           | Some l => l ++ [s]
           | None => [s]
           end in
  mkRegistry (_actionNames r) (_actionTypes r) (_actionTypeToHandlers r)
             (put (actionType s) l (_sideEffects r)).

(** ** The store ([Store])

    [tickets] and [log] are ghost fields: the number of submissions so far
    and the record of what the engine did, in order. *)

(** A value of [actionNameToType]: the store declares [string[]]; the
    registry passes the [string] it keeps per name. *)
Inductive types_entry : Type :=
| TString (s : string)
| TArray (l : list string).

Definition entry_length (e : types_entry) : nat :=
  match e with
  | TString s => String.length s
  | TArray l => List.length l
  end.

(** [actionTypes[0]]. *)
Definition entry_first (e : types_entry) : val :=
  match e with
  | TString EmptyString => VUndef
  | TString (String c _) => VStr (String c EmptyString)
  | TArray [] => VUndef
  | TArray (t :: _) => VStr t
  end.

(** The two closures that the constructor stores in [_actions]. *)
Inductive creator : Type :=
| Single (t : val)
| Multi (n : string) (valid : list string).

(** [validActionTypes[k]] *)
Definition valid_type (valid : list string) (k : string) : bool :=
  existsb (String.eqb k) valid.

(** What the engine does: a call of [dispatch] with an action object
    reaches line 125 and gets the ticket [id]; [_state] is assigned the
    result of the action handler for the submission [id]; the [k]-th side
    effect of the type is called; [resolve()] is called for [id]. *)
Inductive event : Type :=
| Submit (id : nat) (a : IAction)
| Publish (id : nat) (a : IAction) (s : snapshot)
| Effect (id : nat) (k : nat) (g : Getter) (ty : val)
| Resolve (id : nat).

Record Store : Type :=
  mkStore {
      _actionHandler : snapshot -> option IAction -> snapshot;
      _sideEffectHandlers : option (list (string * list ISideEffectHandler));
      _actions : list (string * creator);
      _dispatchQueue : list (nat * IAction);
      _isDispatching : bool;
      _state : snapshot;
      tickets : nat;
      log : list event }.

(** The loop of the constructor, lines 26-49.  [reduce] is a method of
    arrays only. *)
Fixpoint make_actions (names : list (string * types_entry))
         (acc : list (string * creator))
  : result (list (string * creator)) :=
  match names with
  | [] => Ok acc
  | (n, e) :: names' =>
      if (1 <? entry_length e)%nat then
        match e with
        | TArray l => make_actions names' (put n (Multi n l) acc)
        | TString _ =>
            Throw (TypeError "actionTypes.reduce is not a function")
        end
      else make_actions names' (put n (Single (entry_first e)) acc)
  end.

Definition new_Store (ah : snapshot -> option IAction -> snapshot)
           (actionNameToType : option (list (string * types_entry)))
           (se : option (list (string * list ISideEffectHandler)))
  : result Store :=
  acts <- match actionNameToType with
          | Some names => make_actions names []
          | None => Ok []
          end ;;
  Ok (mkStore ah se acts [] false SUndef 0 []).

(** [init(initialState)], lines 53-60.  The initial snapshot is not a
    transition and is not logged. *)
Definition init (s : Store) (initialState : snapshot) : Store :=
  mkStore (_actionHandler s) (_sideEffectHandlers s) (_actions s)
          (_dispatchQueue s) (_isDispatching s)
          (_actionHandler s initialState None)
          (tickets s) (log s).

(** [createStore(initialState)], actions.ts lines 316-324. *)
Definition createStore (r : ActionsRegistry) (initialState : snapshot)
  : result Store :=
  s <- new_Store
         (fun st a => SPromise (createActionHandler (_actionTypeToHandlers r) st a))
         (Some (map (fun nt => (fst nt, TString (snd nt))) (_actionNames r)))
         (Some (_sideEffects r)) ;;
  Ok (init s initialState).

(** *** [dispatch] *)

Definition set_log (s : Store) (l : list event) : Store :=
  mkStore (_actionHandler s) (_sideEffectHandlers s) (_actions s)
          (_dispatchQueue s) (_isDispatching s) (_state s) (tickets s) l.

Definition set_queue (s : Store) (q : list (nat * IAction)) : Store :=
  mkStore (_actionHandler s) (_sideEffectHandlers s) (_actions s)
          q (_isDispatching s) (_state s) (tickets s) (log s).

Definition set_dispatching (s : Store) (b : bool) : Store :=
  mkStore (_actionHandler s) (_sideEffectHandlers s) (_actions s)
          (_dispatchQueue s) b (_state s) (tickets s) (log s).

(** Modelled from the spec: the observable behind [_state]
    ([ObservableWrapper] of [./query], not among the sources), which the
    specification describes as a get/set primitive that holds the current
    snapshot: the setter stores the value, the getter returns it. *)
Definition set_state (s : Store) (st : snapshot) : Store :=
  mkStore (_actionHandler s) (_sideEffectHandlers s) (_actions s)
          (_dispatchQueue s) (_isDispatching s) st (tickets s) (log s).

Definition emit (s : Store) (e : event) : Store := set_log s (log s ++ [e]).

(** Lines 116-123 together with the closures of [_actions]: the action
    object with which [dispatch] goes on, or the error that rejects the
    promise of the caller. *)
Definition resolve_call (s : Store) (c : dispatch_call) : result IAction :=
  match target c with
  | ByAction a => Ok a
  | ByName n =>
      match assoc n (_actions s) with
      | None => Throw (UnknownActionError n)
      | Some (Single t) => Ok (mkAction t (arg1 c))
      | Some (Multi n' valid) =>
          if valid_type valid (to_key (arg1 c))
          then Ok (mkAction (arg1 c) (arg2 c))
          else Throw (InvalidActionTypeError n' (to_key (arg1 c)))
      end
  end.

(** Every call that reaches line 125 is a submission: it takes the next
    ticket. *)
Definition submit (s : Store) (a : IAction) : Store :=
  let s1 := emit s (Submit (tickets s) a) in
  mkStore (_actionHandler s1) (_sideEffectHandlers s1) (_actions s1)
          (_dispatchQueue s1) (_isDispatching s1) (_state s1)
          (S (tickets s1)) (log s1).

(** Lines 126-134: a submission during a dispatch is queued. *)
Definition enqueue (s : Store) (a : IAction) : Store :=
  let id := tickets s in
  let s1 := submit s a in
  set_queue s1 (_dispatchQueue s1 ++ [(id, a)]).

(** A call of [dispatch] made while [_isDispatching] is set (from a side
    effect).  A rejection goes to the promise that the callback received. *)
Definition dispatch_busy (s : Store) (c : dispatch_call) : Store :=
  match resolve_call s c with
  | Ok a => enqueue s a
  | Throw _ => s
  end.

Definition effects_for (s : Store) (a : IAction) : list ISideEffectHandler :=
  match _sideEffectHandlers s with
  | Some tbl =>
      match assoc (to_key (atype a)) tbl with
      | Some l => l
      | None => []
      end
  | None => []
  end.

(** The [forEach] of lines 148-154, from the [k]-th handler on.  A throw
    leaves the loop and the executor. *)
Fixpoint run_effects (s : Store) (id : nat) (a : IAction) (k : nat)
         (hs : list ISideEffectHandler) : Store * option js_error :=
  match hs with
  | [] => (s, None)
  | h :: hs' =>
      let g := mkGetter (_state s) in
      let r := sehandler h g (atype a) in
      let s1 := emit s (Effect id k g (atype a)) in
      let s2 := fold_left dispatch_busy (calls r) s1 in
      match thrown r with
      | Some e => (s2, Some e)
      | None => run_effects s2 id a (S k) hs'
      end
  end.

(** How far a synchronous run got: [Done] when control is back at the
    caller, [OutOfFuel] when the model stopped before serving the head of
    the queue. *)
Inductive run : Type :=
| Done (s : Store)
| OutOfFuel (s : Store).

Definition store_of (r : run) : Store :=
  match r with Done s | OutOfFuel s => s end.

(** Lines 137-155 of the executor, for the submission [id]: the reducer
    is called, its result is published, and the side effects of the type
    run. *)
Definition transition (s : Store) (id : nat) (a : IAction)
  : Store * option js_error :=
  let s1 := set_dispatching s true in
  let st := _actionHandler s1 (_state s1) (Some a) in
  let s2 := emit (set_state s1 st) (Publish id a st) in
  run_effects s2 id a 0 (effects_for s2 a).

(** Lines 157-158: [_isDispatching = false; resolve()]. *)
Definition finish (s : Store) (id : nat) : Store :=
  emit (set_dispatching s false) (Resolve id).

(** The executor of lines 136-166 for the submission [id], and the flush
    of the queue, which calls [dispatch] again for the head entry.  A throw
    of a side effect ends the executor at once.  [fuel] bounds the number
    of entries that the flush serves. *)
Fixpoint serve (fuel : nat) (s : Store) (id : nat) (a : IAction) : run :=
  match transition s id a with
  | (s3, Some _) => Done s3
  | (s3, None) =>
      let s4 := finish s3 id in
      match _dispatchQueue s4 with
      | [] => Done s4
      | (id', a') :: q =>
          match fuel with
          | O => OutOfFuel s4
          | S fuel' => serve fuel' (set_queue s4 q) id' a'
          end
      end
  end.

(** The state of the promise that [dispatch] returned, when the
    synchronous run that the call started is over. *)
Inductive promise_state : Type :=
| Fulfilled
| Rejected (e : js_error)
| Pending.

Definition resolved (id : nat) (l : list event) : bool :=
  existsb (fun e => match e with
                    | Resolve id' => Nat.eqb id id'
                    | _ => false
                    end) l.

(** [dispatch(action, type, payload)], lines 115-167. *)
Definition dispatch (fuel : nat) (s : Store) (c : dispatch_call)
  : run * promise_state :=
  match resolve_call s c with
  | Throw e => (Done s, Rejected e)
  | Ok a =>
      if _isDispatching s then (Done (enqueue s a), Pending)
      else
        let id := tickets s in
        let r := serve fuel (submit s a) id a in
        (r, if resolved id (log (store_of r)) then Fulfilled else Pending)
  end.

(** [do(actionName, payload)], lines 176-178. *)
Definition do (fuel : nat) (s : Store) (n : string) (p : val)
  : run * promise_state :=
  dispatch fuel s (mkCall (ByName n) p VUndef).

(** A sequence of calls from outside, each made when the previous one has
    returned. *)
Fixpoint dispatch_all (fuel : nat) (s : Store) (cs : list dispatch_call)
  : run :=
  match cs with
  | [] => Done s
  | c :: cs' =>
      match fst (dispatch fuel s c) with
      | Done s' => dispatch_all fuel s' cs'
      | OutOfFuel s' => OutOfFuel s'
      end
  end.

(** ** The running example of the specification *)

(** The operator [+] on the values of the model. *)
Definition js_add (a b : val) : val :=
  match a, b with
  | VNum x, VNum y => VNum (x + y)
  | (VStr _ | VObj _), _ | _, (VStr _ | VObj _) =>
      VStr (to_key a ++ to_key b)%string
  | _, _ => VNaN
  end.

(** [({state = 0, payload}) => state + payload] *)
Definition increment : Handler :=
  fun state payload =>
    Ok (js_add (if is_undef state then VNum 0 else state) payload).

Definition counter_registry : result ActionsRegistry :=
  register empty_registry "increment" "INC"
           (mkSelectHandler "counter" increment).

(** ** Reading the log *)

(** The submissions, in the order of the calls. *)
Fixpoint submitted (l : list event) : list (nat * IAction) :=
  match l with
  | [] => []
  | Submit id a :: l' => (id, a) :: submitted l'
  | _ :: l' => submitted l'
  end.

(** The transitions whose snapshot was published, in order. *)
Fixpoint applied (l : list event) : list (nat * IAction) :=
  match l with
  | [] => []
  | Publish id a _ :: l' => (id, a) :: applied l'
  | _ :: l' => applied l'
  end.

(** The snapshots, in the order in which they were published. *)
Fixpoint snapshots (l : list event) : list snapshot :=
  match l with
  | [] => []
  | Publish _ _ st :: l' => st :: snapshots l'
  | _ :: l' => snapshots l'
  end.

(** The side effects fired for the submission [id]: position in the list
    of the tag, and the arguments received. *)
Fixpoint fired (id : nat) (l : list event) : list (nat * Getter * val) :=
  match l with
  | [] => []
  | Effect id' k g ty :: l' =>
      if Nat.eqb id id' then (k, g, ty) :: fired id l' else fired id l'
  | _ :: l' => fired id l'
  end.

(** [scan cur l] reads [l] with [cur] the transition in flight: a snapshot
    may only be published when none is in flight, and side effects and
    the resolution belong to the transition in flight.  The result is the
    transition in flight at the end, or [None] if the log breaks the
    discipline. *)
Fixpoint scan (cur : option nat) (l : list event) : option (option nat) :=
  match l with
  | [] => Some cur
  | Submit _ _ :: l' => scan cur l'
  | Publish id _ _ :: l' =>
      match cur with
      | None => scan (Some id) l'
      | Some _ => None
      end
  | Effect id _ _ _ :: l' =>
      match cur with
      | Some c => if Nat.eqb c id then scan cur l' else None
      | None => None
      end
  | Resolve id :: l' =>
      match cur with
      | Some c => if Nat.eqb c id then scan None l' else None
      | None => None
      end
  end.

(** No side effect of the store throws. *)
Definition effects_return (s : Store) : Prop :=
  forall tbl ty l h g v,
    _sideEffectHandlers s = Some tbl -> assoc ty tbl = Some l -> In h l ->
    thrown (sehandler h g v) = None.

(** A store as the constructor leaves it, before or after [init]. *)
Definition fresh (s : Store) : Prop :=
  _dispatchQueue s = [] /\ _isDispatching s = false
  /\ tickets s = 0 /\ log s = [].

(** ** The state tree as a tree *)

(** The node at path [p], walking through objects only. *)
Fixpoint lookup (v : val) (p : list string) : option val :=
  match p with
  | [] => Some v
  | k :: rest =>
      match v with
      | VObj o =>
          match assoc k o with
          | Some c => lookup c rest
          | None => None
          end
      | _ => None
      end
  end.

Fixpoint is_prefix (p q : list string) : bool :=
  match p, q with
  | [], _ => true
  | x :: p', y :: q' => String.eqb x y && is_prefix p' q'
  | _ :: _, [] => false
  end.

(** No selector is a proper prefix of another one. *)
Definition prefix_free (hs : list IActionTypeToHandler) : Prop :=
  forall d1 d2, In d1 hs -> In d2 hs ->
    is_prefix (split (selector (decl d1))) (split (selector (decl d2))) = true ->
    selector (decl d1) = selector (decl d2).

(** ** Stores over the compiled reducer *)

(** The action handler that [createStore] passes to the constructor: the
    [async] reducer, whose result is a promise. *)
Definition compiled (hs : list IActionTypeToHandler)
  : snapshot -> option IAction -> snapshot :=
  fun st a => SPromise (createActionHandler hs st a).

(** A handler that throws whenever it is called. *)
Definition failing : Handler := fun _ _ => Throw (Thrown (VStr "boom")).

(** A side effect that throws. *)
Definition throwing_effect : SideEffect :=
  fun _ _ => mkRun [] (Some (Thrown (VStr "boom"))).

(** A side effect that does nothing. *)
Definition quiet_effect : SideEffect := fun _ _ => mkRun [] None.

(** A side effect that dispatches the action [a] once, when it reacts to
    a type other than that of [a]. *)
Definition chained_effect (a : IAction) : SideEffect :=
  fun _ ty => mkRun [mkCall (ByAction a) VUndef VUndef] None.

Definition INC (p : Z) : IAction := mkAction (VStr "INC") (VNum p).

Definition counter_decl : IActionTypeToHandler :=
  mkDecl "increment" "INC" (mkSelectHandler "counter" increment).

(** The store of the running example, built with the table of types that
    the constructor declares ([string[]] per name). *)
Definition counter_store (se : option (list (string * list ISideEffectHandler)))
           (initialState : snapshot) : result Store :=
  s <- new_Store (compiled [counter_decl])
                 (Some [("increment", TArray ["INC"])]) se ;;
  Ok (init s initialState).

(** ** Reading the action tree *)

(** The entry that the tree holds for the selector [sel]: the slot
    [root[dest][suffix]] that [add_handler] computes for it. *)
Definition tree_leaf (t : actionTree) (sel : string) : option leaf :=
  let parts := split sel in
  if (1 <? List.length parts)%nat then
    match assoc (join (removelast parts)) (nested t) with
    | Some tb => assoc (last parts EmptyString) tb
    | None => None
    end
  else assoc (hd EmptyString parts) (root t).

Definition is_composed (l : leaf) : bool :=
  match l with LComposed _ _ => true | LAdapter _ => false end.

(** The slot of [sel] holds the promise of a [compose]. *)
Definition composed_at (t : actionTree) (sel : string) : Prop :=
  exists l, tree_leaf t sel = Some l /\ is_composed l = true.

(** Some slot of the tree holds the promise of a [compose]. *)
Definition has_composed (t : actionTree) : Prop :=
  Exists (fun kv => is_composed (snd kv) = true) (root t)
  \/ Exists (fun dt => Exists (fun kv => is_composed (snd kv) = true) (snd dt))
            (nested t).

(** ** Consistency of the ghost fields

    The tickets handed out so far are [0 .. tickets - 1], in the order of
    the submissions; every submission has been applied or is [pending];
    side effects have only fired for tickets handed out. *)
Definition effect_bounded (n : nat) (e : event) : Prop :=
  match e with
  | Effect id _ _ _ => id < n
  | _ => True
  end.

Record consistent (s : Store) (pending : list (nat * IAction)) : Prop :=
  mkConsistent {
      ids_in_order : map fst (submitted (log s)) = seq 0 (tickets s);
      all_accounted : submitted (log s) = applied (log s) ++ pending;
      effects_bounded : Forall (effect_bounded (tickets s)) (log s) }.

(** The store is between two dispatches. *)
Definition idle (s : Store) : Prop :=
  _isDispatching s = false /\ scan None (log s) = Some None.

(** The action that the side effect of the examples dispatches. *)
Definition LOG : IAction := mkAction (VStr "LOG") VUndef.

(** Two side effects for "INC": the first dispatches [LOG] while the
    transition is in flight, the second does nothing. *)
Definition example_effects : list (string * list ISideEffectHandler) :=
  [("INC", [mkSideEffect "INC" (chained_effect LOG);
            mkSideEffect "INC" quiet_effect])].

(** The store that [counter_store] builds with those side effects. *)
Definition example_store : Store :=
  init (mkStore (compiled [counter_decl]) (Some example_effects)
                [("increment", Single (VStr "INC"))] [] false SUndef 0 [])
       SUndef.

(** ** Selectors and paths *)

Fixpoint dotfree (s : string) : bool :=
  match s with
  | EmptyString => true
  | String c s' => negb (Ascii.eqb c dot) && dotfree s'
  end.

(** [p] is a prefix of [q] and differs from it. *)
Definition proper_prefix (p q : list string) : Prop :=
  is_prefix p q = true /\ p <> q.

(** The declaration behind an entry of the tree. *)
Definition leaf_decl (l : leaf) : IActionTypeToHandler :=
  match l with LAdapter d => d | LComposed d _ => d end.

(** The path of the state tree that an entry writes. *)
Definition entry_path (e : entry) : list string := epath e ++ [ekey e].

(** An entry at path [p], key [k] of the tree stands for a declaration of
    [hs] whose selector splits into [p ++ [k]]. *)
Definition from_decl (hs : list IActionTypeToHandler)
           (p : list string) (k : string) (l : leaf) : Prop :=
  In (leaf_decl l) hs
  /\ split (selector (decl (leaf_decl l))) = p ++ [k].

Definition tree_entries (hs : list IActionTypeToHandler) (t : actionTree)
  : Prop :=
  (forall k l, In (k, l) (root t) -> from_decl hs [] k l)
  /\ (forall dest tb k l,
         In (dest, tb) (nested t) -> In (k, l) tb ->
         from_decl hs (split dest) k l).

(** No slot of the tree holds the promise of a [compose]. *)
Definition all_adapters (t : actionTree) : Prop :=
  (forall k l, In (k, l) (root t) -> is_composed l = false)
  /\ (forall dest tb k l,
         In (dest, tb) (nested t) -> In (k, l) tb -> is_composed l = false).

Definition selectors (hs : list IActionTypeToHandler) : list string :=
  map (fun d => selector (decl d)) hs.

(** ** Registries for the nested selectors *)

Definition deep_decl : IActionTypeToHandler :=
  mkDecl "deep" "DEEP" (mkSelectHandler "a.b.c" increment).

(** A handler at "a.b" that sets its node to 0, next to one at "a.b.c". *)
Definition zero : Handler := fun _ _ => Ok (VNum 0).

Definition overlapping : list IActionTypeToHandler :=
  [deep_decl; mkDecl "flat" "FLAT" (mkSelectHandler "a.b" zero)].

Definition nested_state : obj :=
  [("a", VObj [("b", VObj [("c", VNum 1)])])].

(** An action whose type no handler of the examples has. *)
Definition NOPE : IAction := mkAction (VStr "NOPE") VUndef.

(** ** Bounded re-entrancy *)

(** The actions that a list of calls submits. *)
Definition resolved_calls (s : Store) (cs : list dispatch_call)
  : list IAction :=
  flat_map (fun c => match resolve_call s c with
                     | Ok b => [b]
                     | Throw _ => []
                     end) cs.

(** The actions that the side effects of [a] submit when they receive the
    wrapper [g]. *)
Definition spawned (s : Store) (a : IAction) (g : Getter) : list IAction :=
  flat_map (fun h => resolved_calls s (calls (sehandler h g (atype a))))
           (effects_for s a).

Definition weight (w : IAction -> nat) (l : list IAction) : nat :=
  list_sum (map w l).

(** [w] ranks the actions of the store: what the side effects of an
    action submit weighs less than the action. *)
Definition ranked (s : Store) (w : IAction -> nat) : Prop :=
  forall a g, weight w (spawned s a g) < w a.

(** A ranking of the actions of [example_store]: "INC" submits one
    [LOG], the other actions submit nothing. *)
Definition example_weight (a : IAction) : nat :=
  if String.eqb (to_key (atype a)) "INC" then 2 else 1.

Definition example_calls : list dispatch_call :=
  [mkCall (ByName "increment") (VNum 5) VUndef;
   mkCall (ByAction (INC 3)) VUndef VUndef].

(** ** Invariants and auxiliary predicates of the proofs *)

(** What a run of calls made during a dispatch leaves unchanged. *)
Record same_engine (s s' : Store) : Prop :=
  mkSame {
      same_handler : _actionHandler s' = _actionHandler s;
      same_effects : _sideEffectHandlers s' = _sideEffectHandlers s;
      same_actions : _actions s' = _actions s }.

(** The events that the side effects of the submission [id] add to the
    log: their own firing, and the submissions they make. *)
Definition block_event (id : nat) (e : event) : Prop :=
  match e with
  | Submit _ _ => True
  | Effect id' _ _ _ => id' = id
  | _ => False
  end.

(** What the calls made during the dispatch of [id] do to the store: they
    extend the log by [extra] and the queue by the submissions [sub]. *)
Record extends (id : nat) (s s' : Store) (sub : list (nat * IAction))
       (extra : list event) : Prop :=
  mkExtends {
      ext_log : log s' = log s ++ extra;
      ext_block : Forall (block_event id) extra;
      ext_queue : _dispatchQueue s' = _dispatchQueue s ++ sub;
      ext_state : _state s' = _state s;
      ext_dispatching : _isDispatching s' = _isDispatching s;
      ext_engine : same_engine s s';
      ext_tickets : tickets s <= tickets s';
      ext_sub : Forall (fun ia => tickets s <= fst ia) sub }.

(** The store is at rest: nothing is in flight and nothing is queued. *)
Record at_rest (s : Store) : Prop :=
  mkRest {
      rest_consistent : consistent s [];
      rest_queue : _dispatchQueue s = [];
      rest_idle : idle s }.

(** An entry whose promise rejects. *)
Definition failed (e : entry) : Prop := is_ok (eout e) = false.

(** An entry that writes back the value that is already there. *)
Definition rewrites (st : val) (e : entry) : Prop :=
  exists x, eout e = Ok x /\ lookup st (entry_path e) = Some x.

(** An entry of the tree whose leaf is there and whose handler does not
    react to the action. *)
Definition passes (st : val) (a : IAction) (p : list string) (kl : string * leaf)
  : Prop :=
  exists d x, snd kl = LAdapter d /\ is_str (atype a) (type d) = false
              /\ lookup st (p ++ [fst kl]) = Some x /\ x <> VUndef.

(** The slots of the tree belong to the selectors of [hs], hold adapters
    only, and no table is empty. *)
Record clean (hs : list IActionTypeToHandler) (t : actionTree) : Prop :=
  mkClean {
      clean_slots : forall sel l, tree_leaf t sel = Some l ->
                                  In sel (selectors hs);
      clean_adapters : all_adapters t;
      clean_tables : forall dest tb, In (dest, tb) (nested t) -> tb <> [] }.

(** ** Sequences of registrations *)

(** Successive calls [register(name, type, handler)]; the first throw ends
    the sequence. *)
Fixpoint register_all (rs : list (string * string * IActionSelectHandler))
         (r : ActionsRegistry) : result ActionsRegistry :=
  match rs with
  | [] => Ok r
  | (n, ty, h) :: rs' => r' <- register r n ty h ;; register_all rs' r'
  end.

(** Successive calls [sideEffect(s)]. *)
Definition sideEffect_all (ses : list ISideEffectHandler) (r : ActionsRegistry)
  : ActionsRegistry :=
  fold_left sideEffect ses r.

(** The registrations of [ses] for the tag [ty], in order. *)
Definition for_tag (ty : string) (ses : list ISideEffectHandler)
  : list ISideEffectHandler :=
  filter (fun s => String.eqb (actionType s) ty) ses.

(** What the registry knows of a declaration. *)
Definition registration_of (d : IActionTypeToHandler)
  : string * string * IActionSelectHandler :=
  (name d, type d, decl d).

(** The registry after a sequence of registrations with non-empty types:
    the names that are taken are those of the declarations, and every
    declaration is listed under its name and its type. *)
Record registry_ok (r : ActionsRegistry) : Prop :=
  mkRegistryOk {
      ok_names : forall n, assoc n (_actionNames r) = None
                           <-> ~ In n (map name (_actionTypeToHandlers r));
      ok_nonempty : forall n t, assoc n (_actionNames r) = Some t ->
                                t <> EmptyString;
      ok_nodup : NoDup (map name (_actionTypeToHandlers r));
      ok_lookup : forall d, In d (_actionTypeToHandlers r) ->
                            assoc (name d) (_actionNames r) = Some (type d);
      ok_types : forall d, In d (_actionTypeToHandlers r) ->
                           assoc (type d) (_actionTypes r) = Some true }.

(** The side effects that the registry holds for the tag [ty]. *)
Definition tag_list (r : ActionsRegistry) (ty : string)
  : list ISideEffectHandler :=
  match assoc ty (_sideEffects r) with
  | Some l => l
  | None => []
  end.

(** ** Paths that do not meet *)

(** Neither path is a prefix of the other. *)
Definition apart (p q : list string) : Prop :=
  is_prefix p q = false /\ is_prefix q p = false.

(** Walking [p] from [v] meets objects only, as far as the tree goes. *)
Fixpoint open_path (v : val) (p : list string) : Prop :=
  match v with
  | VObj o =>
      match p with
      | [] => True
      | k :: rest =>
          match assoc k o with
          | Some c => open_path c rest
          | None => True
          end
      end
  | _ => False
  end.

(** What the chain of reads [v[k1]...[kn]] gives on such a walk: the node
    at the path, or [undefined] where the tree ends. *)
Definition read (v : val) (p : list string) : val :=
  match lookup v p with Some x => x | None => VUndef end.

(** The node at [p] is an object. *)
Definition object_at (v : val) (p : list string) : Prop :=
  exists c, lookup v p = Some (VObj c).

(** ** [combineActionHandlers]

    The handlers that are combined by hand are taken to be synchronous:
    functions of their slice of the state and of the action, which return
    the new slice or throw, and do not use the [dispatch] function that
    they are handed. *)
Definition IActionHandler := val -> option IAction -> result val.

(** The [forEach] of lines 199-201 over [Object.keys(actionHandlers)]: the
    slice is read, the handler is called, and its result is written to the
    same key. *)
Fixpoint combine_each (hs : list (string * IActionHandler)) (state : val)
         (action : option IAction) : result val :=
  match hs with
  | [] => Ok state
  | (k, h) :: hs' =>
      old <- get state k ;;
      x <- h old action ;;
      state' <- set state k x ;;
      combine_each hs' state' action
  end.

(** The function that [combineActionHandlers(actionHandlers)] returns,
    lines 198-203; [state = {}] replaces an undefined state only. *)
Definition combineActionHandlers (hs : list (string * IActionHandler))
           (state : val) (action : option IAction) : result val :=
  combine_each hs (if is_undef state then VObj [] else state) action.

(** Two handlers written by hand: a counter that adds the payload of
    "INC", and a flag that "ON" sets. *)
Definition count_handler : IActionHandler :=
  fun st a =>
    match a with
    | Some b => if is_str (atype b) "INC"
                then Ok (js_add (if is_undef st then VNum 0 else st) (payload b))
                else Ok st
    | None => Ok (if is_undef st then VNum 0 else st)
    end.

Definition flag_handler : IActionHandler :=
  fun st a =>
    match a with
    | Some b => if is_str (atype b) "ON" then Ok (VNum 1) else Ok st
    | None => Ok st
    end.

(** A handler that throws on every call. *)
Definition broken_handler : IActionHandler :=
  fun _ _ => Throw (Thrown (VStr "boom")).

(** ** Replaying the applied actions *)

(** The snapshot that the action handler [ah] reaches from [st] through
    the actions [l], in order. *)
Definition replay (ah : snapshot -> option IAction -> snapshot)
           (st : snapshot) (l : list IAction) : snapshot :=
  fold_left (fun st' b => ah st' (Some b)) l st.

(** What a submission and the calls of a side effect leave as it is: the
    engine, the state, the flag, and the transitions applied and resolved
    so far. *)
Record quiet (s s' : Store) : Prop :=
  mkQuiet {
      quiet_engine : same_engine s s';
      quiet_state : _state s' = _state s;
      quiet_dispatching : _isDispatching s' = _isDispatching s;
      quiet_applied : applied (log s') = applied (log s);
      quiet_resolved : forall id, resolved id (log s') = resolved id (log s) }.

(** The side effect [h] throws when it reacts to the transition of [a]
    from the state of [s]. *)
Definition throws_on (s : Store) (a : IAction) (h : ISideEffectHandler)
  : Prop :=
  thrown (sehandler h (mkGetter (_actionHandler s (_state s) (Some a)))
                    (atype a)) <> None.

(** * Properties *)

(** C9. The compiled adapter of a registered handler: on undefined state it
    invokes the raw handler exactly once, with undefined state and undefined
    payload, and returns that result; on defined state and undefined action
    it returns the state without invoking the handler; on an action of
    another type it returns the state without invoking the handler; on an
    action of the handler's own type it invokes the handler once with the
    state and the action's payload. *)
Theorem adapter_cases (d : IActionTypeToHandler) :
  (forall action,
      actionHandler d VUndef action
      = ([(VUndef, VUndef)], handler (decl d) VUndef VUndef))
  /\ (forall state, state <> VUndef ->
        actionHandler d state None = ([], Ok state))
  /\ (forall state a, state <> VUndef -> atype a <> VStr (type d) ->
        actionHandler d state (Some a) = ([], Ok state))
  /\ (forall state a, state <> VUndef -> atype a = VStr (type d) ->
        actionHandler d state (Some a)
        = ([(state, payload a)], handler (decl d) state (payload a))).
Proof.
  assert (Hdef : forall s, s <> VUndef -> is_undef s = false)
    by (intros [] H; try reflexivity; congruence).
  repeat split.
  - intros state H. unfold actionHandler. now rewrite (Hdef _ H).
  - intros state a H Ht. unfold actionHandler. rewrite (Hdef _ H).
    destruct (is_str (atype a) (type d)) eqn:E; [|reflexivity].
    unfold is_str in E. destruct (atype a); try discriminate.
    apply String.eqb_eq in E. congruence.
  - intros state a H Ht. unfold actionHandler. rewrite (Hdef _ H), Ht.
    simpl. now rewrite String.eqb_refl.
Qed.

Lemma adapter_cases_witness :
  actionHandler (mkDecl "increment" "INC" (mkSelectHandler "counter" increment))
                (VNum 1) (Some (mkAction (VStr "INC") (VNum 5)))
  = ([(VNum 1, VNum 5)], Ok (VNum 6))
  /\ actionHandler (mkDecl "increment" "INC" (mkSelectHandler "counter" increment))
                   (VNum 1) (Some (mkAction (VStr "DEC") (VNum 5)))
     = ([], Ok (VNum 1))
  /\ actionHandler (mkDecl "increment" "INC" (mkSelectHandler "counter" increment))
                   (VNum 1) None
     = ([], Ok (VNum 1)).
Proof.
  destruct (adapter_cases
              (mkDecl "increment" "INC" (mkSelectHandler "counter" increment)))
    as (_ & Hnone & Hother & Hown).
  split; [|split].
  - apply (Hown (VNum 1) (mkAction (VStr "INC") (VNum 5)));
      [discriminate | reflexivity].
  - apply (Hother (VNum 1) (mkAction (VStr "DEC") (VNum 5)));
      simpl; discriminate.
  - apply (Hnone (VNum 1)); discriminate.
Defined.

(** ** Association lists *)

Lemma assoc_put_same {A} (k : string) (v : A) (o : list (string * A)) :
  assoc k (put k v o) = Some v.
Proof.
  induction o as [|[k' v'] o IH]; simpl.
  - now rewrite String.eqb_refl.
  - destruct (String.eqb k k') eqn:E; simpl.
    + now rewrite String.eqb_refl.
    + now rewrite E.
Qed.

Lemma assoc_put_other {A} (k k' : string) (v : A) (o : list (string * A)) :
  k <> k' -> assoc k (put k' v o) = assoc k o.
Proof.
  intros Hne. induction o as [|[k0 v0] o IH]; simpl.
  - apply String.eqb_neq in Hne. now rewrite Hne.
  - destruct (String.eqb k' k0) eqn:E; simpl.
    + apply String.eqb_eq in E. subst k0.
      apply String.eqb_neq in Hne. now rewrite Hne.
    + destruct (String.eqb k k0); [reflexivity | exact IH].
Qed.

Lemma assoc_none_not_in {A} (k : string) (o : list (string * A)) :
  assoc k o = None <-> ~ In k (keys o).
Proof.
  induction o as [|[k' v'] o IH]; simpl.
  - tauto.
  - destruct (String.eqb k k') eqn:E.
    + apply String.eqb_eq in E. subst. split; [discriminate | tauto].
    + apply String.eqb_neq in E. rewrite IH. split.
      * intros H [H1 | H1]; [congruence | tauto].
      * tauto.
Qed.

(** ** The constructor's table of action creators *)

Lemma make_actions_absent names : forall acc acts n,
  make_actions names acc = Ok acts ->
  assoc n names = None -> assoc n acts = assoc n acc.
Proof.
  induction names as [|[n0 e] names IH]; simpl; intros acc acts n Hm Hn.
  - congruence.
  - destruct (String.eqb n n0) eqn:E; [discriminate|].
    apply String.eqb_neq in E.
    destruct (1 <? entry_length e)%nat.
    + destruct e; [discriminate|].
      rewrite (IH _ _ _ Hm Hn). now apply assoc_put_other.
    + rewrite (IH _ _ _ Hm Hn). now apply assoc_put_other.
Qed.

Lemma make_actions_multi names : forall acc acts n l,
  make_actions names acc = Ok acts -> NoDup (keys names) ->
  assoc n names = Some (TArray l) -> (1 < List.length l)%nat ->
  assoc n acts = Some (Multi n l).
Proof.
  induction names as [|[n0 e] names IH]; simpl; intros acc acts n l Hm Hnd Hn Hl.
  - discriminate.
  - inversion Hnd as [|? ? Hnotin Hnd']; subst.
    destruct (String.eqb n n0) eqn:E.
    + apply String.eqb_eq in E. subst n0. injection Hn as ->. simpl in Hm.
      apply Nat.ltb_lt in Hl. rewrite Hl in Hm.
      rewrite (make_actions_absent _ _ n Hm).
      * apply assoc_put_same.
      * now apply assoc_none_not_in.
    + destruct (1 <? entry_length e)%nat.
      * destruct e; [discriminate|]. eapply IH; eauto.
      * eapply IH; eauto.
Qed.

Lemma valid_type_false valid k :
  ~ In k valid -> valid_type valid k = false.
Proof.
  intros H. unfold valid_type.
  destruct (existsb (String.eqb k) valid) eqn:E; [|reflexivity].
  apply existsb_exists in E. destruct E as (x & Hin & Hx).
  apply String.eqb_eq in Hx. subst. contradiction.
Qed.

(** C1. With "increment"/"INC" registered at "counter", [createStore()]
    does not produce a store: the constructor receives the string "INC"
    where it expects the array of types of the name, takes the branch for
    several types ("INC" has length 3) and calls [reduce] on the string. *)
Theorem createStore_example_rejects :
  (r <- counter_registry ;; createStore r SUndef)
  = Throw (TypeError "actionTypes.reduce is not a function").
Proof. reflexivity. Qed.

(** The same for every registry that holds a type of two characters or
    more, whatever the initial state. *)
Lemma make_actions_long_type names : forall acc,
  Exists (fun nt => (1 < String.length (snd nt))%nat) names ->
  exists e, make_actions (map (fun nt => (fst nt, TString (snd nt))) names) acc
            = Throw e.
Proof.
  induction names as [|[n t] names IH]; intros acc H.
  - inversion H.
  - simpl. destruct (1 <? String.length t)%nat eqn:E.
    + eauto.
    + apply IH. inversion H as [? ? H0|]; subst; [|assumption].
      simpl in H0. apply Nat.ltb_lt in H0. congruence.
Qed.

Lemma createStore_rejects_long_type r initialState :
  Exists (fun nt => (1 < String.length (snd nt))%nat) (_actionNames r) ->
  exists e, createStore r initialState = Throw e.
Proof.
  intros H. unfold createStore, new_Store.
  destruct (make_actions_long_type [] H) as (e & He).
  rewrite He. simpl. eauto.
Qed.



(** ** What reaches the caller of [dispatch] *)

(** Dispatching an action object never rejects the caller's promise,
    whatever the action handler and the side effects do. *)
Lemma dispatch_action_never_rejects fuel s a x y e :
  snd (dispatch fuel s (mkCall (ByAction a) x y)) <> Rejected e.
Proof.
  unfold dispatch, resolve_call. simpl.
  destruct (_isDispatching s); simpl; [discriminate|].
  destruct (resolved _ _); discriminate.
Qed.

(** The compiled reducer never changes what a promise settles to: given
    the promise of the previous call as state, it returns that settlement
    or a rejection. *)
Lemma composed_on_promise tree r a :
  composed tree (SPromise r) a = r
  \/ exists e, composed tree (SPromise r) a = Throw e.
Proof.
  unfold composed. destruct (reduce tree [] a); simpl; eauto.
Qed.

(** C7. A handler that throws does not make [dispatch] fail: the promise of
    the caller is fulfilled, and the error is left inside the promise that
    the reducer returned, which the store publishes as its state. *)
Theorem handler_error_not_propagated :
  exists s0 s1,
    new_Store (compiled [mkDecl "boom" "BOOM" (mkSelectHandler "x" failing)])
              (Some [("boom", TArray ["BOOM"])]) None = Ok s0
    /\ dispatch 0 (init s0 (SObj [("x", VNum 0)]))
                (mkCall (ByName "boom") VUndef VUndef)
       = (Done s1, Fulfilled)
    /\ _state s1 = SPromise (Throw (Thrown (VStr "boom"))).
Proof. do 2 eexists. repeat split. Qed.

(** A side effect that throws leaves the executor before
    [_isDispatching] is reset: the caller's promise stays pending, and the
    next submission is queued and never applied. *)
Lemma side_effect_throw_wedges_engine :
  exists s0 s1 s2,
    counter_store (Some [("INC", [mkSideEffect "INC" throwing_effect])])
                  SUndef = Ok s0
    /\ dispatch 5 s0 (mkCall (ByAction (INC 5)) VUndef VUndef)
       = (Done s1, Pending)
    /\ _isDispatching s1 = true
    /\ dispatch 5 s1 (mkCall (ByAction (INC 3)) VUndef VUndef)
       = (Done s2, Pending)
    /\ applied (log s2) = [(0, INC 5)]
    /\ _dispatchQueue s2 = [(1, INC 3)].
Proof. do 3 eexists. repeat split. Qed.

(** C8. In the store of the running example, started from
    [{counter: 0}], the promise of [dispatch("increment", 5)] is fulfilled
    while the published state is the promise of the reducer, and that
    promise settles to [{counter: 0}]: the reducer received the promise of
    the previous call as its state, read [undefined] at "counter", ran the
    handler for its initial value and returned the old tree. *)
Theorem dispatch_resolves_without_applying :
  exists s0 s1,
    counter_store None (SObj [("counter", VNum 0)]) = Ok s0
    /\ _state s0 = SPromise (Ok (VObj [("counter", VNum 0)]))
    /\ dispatch 0 s0 (mkCall (ByName "increment") (VNum 5) VUndef)
       = (Done s1, Fulfilled)
    /\ _state s1 = SPromise (Ok (VObj [("counter", VNum 0)])).
Proof. do 2 eexists. repeat split. Qed.

(** The same for every store over a compiled reducer: once the state is a
    promise, what a transition publishes settles as the state did before,
    or rejects; the payload never reaches the tree. *)
Lemma compiled_store_keeps_settlement hs s a r :
  _actionHandler s = compiled hs -> _state s = SPromise r ->
  _actionHandler s (_state s) (Some a) = SPromise r
  \/ exists e, _actionHandler s (_state s) (Some a) = SPromise (Throw e).
Proof.
  intros -> ->. unfold compiled, createActionHandler.
  destruct (composed_on_promise (build_tree hs) r (Some a)) as [-> | (e & ->)];
    eauto.
Qed.

(** On a plain state tree the same reducer does apply the transition. *)
Lemma reducer_applies_on_plain_tree :
  createActionHandler [counter_decl] (SObj [("counter", VNum 0)])
                      (Some (INC 5))
  = Ok (VObj [("counter", VNum 5)]).
Proof. reflexivity. Qed.

(** With no initial state the example starts from [NaN]: the handler is
    called with an undefined payload for its initial value. *)
Lemma counter_store_initial_state :
  exists s0,
    counter_store None SUndef = Ok s0
    /\ _state s0 = SPromise (Ok (VObj [("counter", VNaN)])).
Proof. eexists. split; reflexivity. Qed.

(** ** Collisions in the action tree *)

Lemma assoc_in {A} (k : string) (v : A) (o : list (string * A)) :
  assoc k o = Some v -> In (k, v) o.
Proof.
  induction o as [|[k' v'] o IH]; simpl; [discriminate|].
  destruct (String.eqb k k') eqn:E.
  - apply String.eqb_eq in E. intros [= ->]. subst. now left.
  - auto.
Qed.

Lemma install_same suffix d gn t :
  exists l, assoc suffix (install suffix d gn t) = Some l
            /\ (assoc suffix t <> None -> is_composed l = true).
Proof.
  unfold install. destruct (assoc suffix t) eqn:E.
  - rewrite assoc_put_same. eexists. split; [reflexivity | reflexivity].
  - rewrite assoc_put_same. eexists. split; [reflexivity | congruence].
Qed.

Lemma install_other k suffix d gn t :
  k <> suffix -> assoc k (install suffix d gn t) = assoc k t.
Proof.
  intros H. unfold install.
  destruct (assoc suffix t); now apply assoc_put_other.
Qed.

(** [add_handler] fills the slot of the handler's selector, with the
    promise of a [compose] if the slot was occupied. *)
Lemma add_handler_own_slot t d :
  exists l, tree_leaf (add_handler t d) (selector (decl d)) = Some l
            /\ (tree_leaf t (selector (decl d)) <> None ->
                is_composed l = true).
Proof.
  unfold tree_leaf, add_handler.
  set (pd := split (selector (decl d))).
  destruct (1 <? List.length pd)%nat eqn:Ed; simpl.
  - set (dest := join (removelast pd)).
    rewrite assoc_put_same.
    destruct (assoc dest (nested t)) as [tb0|] eqn:E.
    + rewrite E.
      destruct (install_same (last pd EmptyString) d
                             (nested_get (selector (decl d)) (nested t)) tb0)
        as (l & Hl & Hc).
      exists l. split; [exact Hl | exact Hc].
    + rewrite assoc_put_same.
      destruct (install_same (last pd EmptyString) d
                  (nested_get (selector (decl d)) (put dest [] (nested t))) [])
        as (l & Hl & Hc).
      exists l. split; [exact Hl | congruence].
  - destruct (install_same (hd EmptyString pd) d
                           (accum_get (selector (decl d))) (root t))
      as (l & Hl & Hc).
    exists l. split; [exact Hl | exact Hc].
Qed.

(** An occupied slot stays occupied, and a [compose] promise is only ever
    replaced by another one. *)
Lemma add_handler_keeps_slot t d sel l0 :
  tree_leaf t sel = Some l0 ->
  exists l, tree_leaf (add_handler t d) sel = Some l
            /\ (is_composed l0 = true -> is_composed l = true).
Proof.
  unfold tree_leaf, add_handler.
  set (ps := split sel). set (pd := split (selector (decl d))).
  destruct (1 <? List.length pd)%nat eqn:Ed;
    destruct (1 <? List.length ps)%nat eqn:Es; simpl.
  - (* both nested *)
    set (dest := join (removelast pd)). set (dsel := join (removelast ps)).
    intros Hocc.
    destruct (String.eqb dsel dest) eqn:Edest.
    + apply String.eqb_eq in Edest. rewrite Edest in *.
      rewrite assoc_put_same.
      destruct (assoc dest (nested t)) as [tb0|] eqn:E; [|discriminate].
      rewrite E.
      destruct (String.eqb (last ps EmptyString) (last pd EmptyString)) eqn:Esuf.
      * apply String.eqb_eq in Esuf. rewrite Esuf in *.
        destruct (install_same (last pd EmptyString) d
                               (nested_get (selector (decl d)) (nested t)) tb0)
          as (l & Hl & Hc).
        exists l. split; [exact Hl|]. intros _. apply Hc. congruence.
      * apply String.eqb_neq in Esuf. rewrite (install_other _ _ _ Esuf).
        exists l0. split; [exact Hocc | auto].
    + apply String.eqb_neq in Edest. rewrite (assoc_put_other _ _ Edest).
      assert (Hn : assoc dsel
                     match assoc dest (nested t) with
                     | Some _ => nested t
                     | None => put dest [] (nested t)
                     end = assoc dsel (nested t)).
      { destruct (assoc dest (nested t)); [reflexivity|].
        now apply assoc_put_other. }
      rewrite Hn. exists l0. split; [exact Hocc | auto].
  - intros Hocc. exists l0. split; [exact Hocc | auto].
  - intros Hocc. exists l0. split; [exact Hocc | auto].
  - (* both at the root *)
    intros Hocc.
    destruct (String.eqb (hd EmptyString ps) (hd EmptyString pd)) eqn:Esuf.
    + apply String.eqb_eq in Esuf. rewrite Esuf in *.
      destruct (install_same (hd EmptyString pd) d
                             (accum_get (selector (decl d))) (root t))
        as (l & Hl & Hc).
      exists l. split; [exact Hl|]. intros _. apply Hc. congruence.
    + apply String.eqb_neq in Esuf. rewrite (install_other _ _ _ Esuf).
      exists l0. split; [exact Hocc | auto].
Qed.

Lemma fold_keeps_slot hs : forall t sel l0,
  tree_leaf t sel = Some l0 -> is_composed l0 = true ->
  composed_at (fold_left add_handler hs t) sel.
Proof.
  induction hs as [|d hs IH]; simpl; intros t sel l0 Hl Hc.
  - now exists l0.
  - destruct (add_handler_keeps_slot t d sel Hl) as (l & Hl' & Hc').
    eapply IH; eauto.
Qed.

Lemma fold_occupied hs : forall t sel l0,
  tree_leaf t sel = Some l0 ->
  exists l, tree_leaf (fold_left add_handler hs t) sel = Some l.
Proof.
  induction hs as [|d hs IH]; simpl; intros t sel l0 Hl.
  - eauto.
  - destruct (add_handler_keeps_slot t d sel Hl) as (l & Hl' & _). eauto.
Qed.

(** Two declarations with one selector leave a [compose] promise in the
    slot of that selector, whatever else is registered. *)
Lemma collision_composed hs1 hs2 hs3 d1 d2 :
  selector (decl d1) = selector (decl d2) ->
  composed_at (build_tree (hs1 ++ d1 :: hs2 ++ d2 :: hs3)) (selector (decl d2)).
Proof.
  intros Hsel. unfold build_tree.
  rewrite fold_left_app. simpl. rewrite fold_left_app. simpl.
  set (t1 := fold_left add_handler hs1 (mkTree [] [])).
  destruct (add_handler_own_slot t1 d1) as (l1 & Hl1 & _).
  destruct (fold_occupied hs2 _ _ Hl1) as (l2 & Hl2).
  rewrite Hsel in Hl2.
  destruct (add_handler_own_slot (fold_left add_handler hs2 (add_handler t1 d1)) d2)
    as (l3 & Hl3 & Hc3).
  eapply fold_keeps_slot; [exact Hl3|]. apply Hc3. congruence.
Qed.

Lemma composed_at_has_composed t sel :
  composed_at t sel -> has_composed t.
Proof.
  intros (l & Hl & Hc). unfold tree_leaf in Hl. unfold has_composed.
  destruct (1 <? List.length (split sel))%nat.
  - right. destruct (assoc _ (nested t)) as [tb|] eqn:E; [|discriminate].
    apply assoc_in in E. apply assoc_in in Hl.
    apply Exists_exists. eexists. split; [exact E|]. simpl.
    apply Exists_exists. eexists. split; [exact Hl|]. exact Hc.
  - left. apply assoc_in in Hl.
    apply Exists_exists. eexists. split; [exact Hl|]. exact Hc.
Qed.

(** ** A tree with a [compose] promise rejects *)

Lemma writes_failed es : forall st,
  Exists failed es -> exists e, writes es st = Throw e.
Proof.
  induction es as [|e es IH]; intros st H.
  - inversion H.
  - simpl. destruct (eout e) as [x|err] eqn:E; simpl; [|eauto].
    destruct (set_path st (epath e) (ekey e) x); simpl; [|eauto].
    apply IH. inversion H as [? ? H0|]; subst; [|assumption].
    unfold failed in H0. rewrite E in H0. discriminate.
Qed.

Lemma call_composed_fails l (r : result val) a :
  is_composed l = true ->
  is_ok (v <- r ;; call_leaf l v a) = false.
Proof.
  intros H. destruct l; [discriminate|]. now destruct r.
Qed.

Lemma root_calls_failed t st a :
  Exists (fun kv => is_composed (snd kv) = true) t ->
  Exists failed (root_calls t st a).
Proof.
  unfold root_calls. rewrite !Exists_exists.
  intros ([k l] & Hin & Hc). simpl in Hc.
  eexists. split; [apply in_map; exact Hin|].
  unfold failed. simpl. now apply call_composed_fails.
Qed.

Lemma nested_calls_failed ts : forall st a r,
  Exists (fun t => Exists (fun kv => is_composed (snd kv) = true) (thandler t)) ts ->
  nested_calls ts st a = Ok r -> Exists failed (snd r).
Proof.
  induction ts as [|t ts IH]; intros st a r H Hr.
  - inversion H.
  - simpl in Hr.
    destruct (materialize st (path t)) as [st1|]; [|discriminate]. simpl in Hr.
    destruct (get_path st1 (path t)) as [curr|]; [|discriminate]. simpl in Hr.
    destruct (nested_calls ts st1 a) as [r'|] eqn:Er'; [|discriminate].
    simpl in Hr. injection Hr as <-. simpl.
    apply Exists_app. inversion H as [? ? H0|? ? H0]; subst.
    + left. rewrite Exists_exists in H0 |- *.
      destruct H0 as ([k l] & Hin & Hc). simpl in Hc.
      eexists. split; [apply in_map; exact Hin|].
      unfold failed. simpl. now apply call_composed_fails.
    + right. eapply IH; eauto.
Qed.

Lemma reduce_composed_rejects tree o a :
  has_composed tree -> exists e, reduce tree o a = Throw e.
Proof.
  intros H. unfold reduce.
  destruct (nested_calls (nestedTraversers tree) (VObj o) a) as [r|err] eqn:E;
    simpl; [|eauto].
  apply writes_failed. apply Exists_app. destruct H as [H | H].
  - left. now apply root_calls_failed.
  - right. eapply nested_calls_failed; [|exact E].
    unfold nestedTraversers. rewrite Exists_exists in H |- *.
    destruct H as (dt & Hin & Hc).
    eexists. split; [apply in_map; exact Hin|]. exact Hc.
Qed.

(** C2. Two handlers registered at one selector do not compose: whatever
    else is registered, the reducer compiled from the registry rejects for
    every state and action, because the slot of the selector holds the
    promise returned by the [async] function [compose], and a promise is
    not callable. *)
Theorem colliding_handlers_reject hs1 hs2 hs3 d1 d2 :
  selector (decl d1) = selector (decl d2) ->
  forall st a,
  exists e, createActionHandler (hs1 ++ d1 :: hs2 ++ d2 :: hs3) st a = Throw e.
Proof.
  intros Hsel st a.
  pose proof (composed_at_has_composed
                (collision_composed hs1 hs2 hs3 d1 d2 Hsel)) as Hc.
  unfold createActionHandler, composed.
  destruct st as [|o|r].
  - now apply reduce_composed_rejects.
  - now apply reduce_composed_rejects.
  - destruct (reduce_composed_rejects [] a Hc) as (e & He).
    rewrite He. simpl. eauto.
Qed.

Lemma colliding_handlers_reject_witness :
  exists e,
    createActionHandler
      ([] ++ counter_decl
          :: [] ++ mkDecl "double" "DBL" (mkSelectHandler "counter" increment)
          :: [])
      (SObj [("counter", VNum 1)]) (Some (INC 5)) = Throw e.
Proof.
  apply (colliding_handlers_reject [] [] [] counter_decl
           (mkDecl "double" "DBL" (mkSelectHandler "counter" increment))).
  reflexivity.
Defined.

(** On the two handlers of the example the rejection is the error of
    calling a non-function. *)
Lemma colliding_handlers_type_error :
  createActionHandler
    [counter_decl; mkDecl "double" "DBL" (mkSelectHandler "counter" increment)]
    (SObj [("counter", VNum 1)]) (Some (INC 5))
  = Throw (TypeError "is not a function").
Proof. reflexivity. Qed.

(** ** The log *)

Lemma submitted_app l1 l2 : submitted (l1 ++ l2) = submitted l1 ++ submitted l2.
Proof.
  induction l1 as [|[] l1 IH]; simpl; rewrite ?IH; reflexivity.
Qed.

Lemma applied_app l1 l2 : applied (l1 ++ l2) = applied l1 ++ applied l2.
Proof.
  induction l1 as [|[] l1 IH]; simpl; rewrite ?IH; reflexivity.
Qed.

Lemma snapshots_app l1 l2 : snapshots (l1 ++ l2) = snapshots l1 ++ snapshots l2.
Proof.
  induction l1 as [|[] l1 IH]; simpl; rewrite ?IH; reflexivity.
Qed.

Lemma fired_app id l1 l2 : fired id (l1 ++ l2) = fired id l1 ++ fired id l2.
Proof.
  induction l1 as [|[] l1 IH]; simpl; rewrite ?IH; try reflexivity.
  destruct (Nat.eqb id id0); simpl; now rewrite ?IH.
Qed.

Lemma scan_app l1 : forall cur l2,
  scan cur (l1 ++ l2)
  = match scan cur l1 with Some c => scan c l2 | None => None end.
Proof.
  induction l1 as [|e l1 IH]; intros cur l2; simpl; [reflexivity|].
  destruct e; simpl; try apply IH.
  - destruct cur; [reflexivity | apply IH].
  - destruct cur as [c|]; [|reflexivity].
    destruct (Nat.eqb c id); [apply IH | reflexivity].
  - destruct cur as [c|]; [|reflexivity].
    destruct (Nat.eqb c id); [apply IH | reflexivity].
Qed.

Lemma snapshots_length l : List.length (snapshots l) = List.length (applied l).
Proof.
  induction l as [|[] l IH]; simpl; auto.
Qed.

Lemma fired_bounded n l id :
  Forall (effect_bounded n) l -> n <= id -> fired id l = [].
Proof.
  induction 1 as [|e l He Hl IH]; intros Hle; simpl; [reflexivity|].
  destruct e; auto. simpl in He.
  destruct (Nat.eqb id id0) eqn:E; [|auto].
  apply Nat.eqb_eq in E. lia.
Qed.

Lemma effect_bounded_mono n m l :
  n <= m -> Forall (effect_bounded n) l -> Forall (effect_bounded m) l.
Proof.
  intros Hle. apply Forall_impl. intros [] H; simpl in *; auto. lia.
Qed.

(** ** Submissions during a dispatch *)

Lemma enqueue_consistent s a pending :
  consistent s pending ->
  consistent (enqueue s a) (pending ++ [(tickets s, a)]).
Proof.
  intros [H1 H2 H3]. constructor; cbn -[seq].
  - rewrite submitted_app, map_app, H1. cbn -[seq].
    now rewrite seq_S.
  - rewrite submitted_app, applied_app, H2. simpl.
    now rewrite app_nil_r, app_assoc.
  - apply Forall_app. split.
    + eapply effect_bounded_mono; [|exact H3]. lia.
    + repeat constructor.
Qed.

Lemma same_engine_refl s : same_engine s s.
Proof. now constructor. Qed.

Lemma same_engine_trans s1 s2 s3 :
  same_engine s1 s2 -> same_engine s2 s3 -> same_engine s1 s3.
Proof. intros [] []. constructor; congruence. Qed.

Lemma block_applied id l : Forall (block_event id) l -> applied l = [].
Proof.
  induction 1 as [|e l He Hl IH]; [reflexivity|].
  destruct e; simpl in *; auto; contradiction.
Qed.

Lemma block_snapshots id l : Forall (block_event id) l -> snapshots l = [].
Proof.
  induction 1 as [|e l He Hl IH]; [reflexivity|].
  destruct e; simpl in *; auto; contradiction.
Qed.

Lemma block_scan id l :
  Forall (block_event id) l -> scan (Some id) l = Some (Some id).
Proof.
  induction 1 as [|e l He Hl IH]; [reflexivity|].
  destruct e; simpl in *; auto; try contradiction.
  subst. now rewrite Nat.eqb_refl.
Qed.

Lemma block_fired_other id id' l :
  Forall (block_event id) l -> id' <> id -> fired id' l = [].
Proof.
  induction 1 as [|e l He Hl IH]; intros Hne; [reflexivity|].
  destruct e; simpl in *; auto; try contradiction.
  subst. rewrite (proj2 (Nat.eqb_neq _ _) Hne). auto.
Qed.

Lemma extends_refl id s : extends id s s [] [].
Proof.
  constructor; rewrite ?app_nil_r; auto. apply same_engine_refl.
Qed.

Lemma extends_trans id s1 s2 s3 sub1 sub2 ex1 ex2 :
  extends id s1 s2 sub1 ex1 -> extends id s2 s3 sub2 ex2 ->
  extends id s1 s3 (sub1 ++ sub2) (ex1 ++ ex2).
Proof.
  intros [A1 A2 A3 A4 A5 A6 A7 A8] [B1 B2 B3 B4 B5 B6 B7 B8].
  constructor.
  - now rewrite B1, A1, app_assoc.
  - apply Forall_app. auto.
  - now rewrite B3, A3, app_assoc.
  - congruence.
  - congruence.
  - eapply same_engine_trans; eauto.
  - lia.
  - apply Forall_app. split; [exact A8|].
    eapply Forall_impl; [|exact B8]. simpl. intros; lia.
Qed.

(** A call of [dispatch] during a dispatch only adds a submission. *)
Lemma dispatch_busy_spec id s c pending :
  consistent s pending ->
  exists sub extra,
    extends id s (dispatch_busy s c) sub extra
    /\ fired id extra = []
    /\ consistent (dispatch_busy s c) (pending ++ sub).
Proof.
  intros Hc. unfold dispatch_busy.
  destruct (resolve_call s c) as [a|e].
  - exists [(tickets s, a)], [Submit (tickets s) a].
    split; [|split; [reflexivity | now apply enqueue_consistent]].
    constructor; simpl; auto.
    + repeat constructor.
    + repeat constructor.
  - exists [], []. rewrite app_nil_r.
    split; [apply extends_refl | split; [reflexivity | exact Hc]].
Qed.

Lemma calls_spec id cs : forall s pending,
  consistent s pending ->
  exists sub extra,
    extends id s (fold_left dispatch_busy cs s) sub extra
    /\ fired id extra = []
    /\ consistent (fold_left dispatch_busy cs s) (pending ++ sub).
Proof.
  induction cs as [|c cs IH]; intros s pending Hc; simpl.
  - exists [], []. rewrite app_nil_r.
    split; [apply extends_refl | split; [reflexivity | exact Hc]].
  - destruct (dispatch_busy_spec id c Hc) as (sub1 & ex1 & E1 & F1 & C1).
    destruct (IH _ _ C1) as (sub2 & ex2 & E2 & F2 & C2).
    exists (sub1 ++ sub2), (ex1 ++ ex2). split; [|split].
    + eapply extends_trans; eauto.
    + now rewrite fired_app, F1, F2.
    + now rewrite app_assoc.
Qed.

(** ** The side effects of one transition *)

Lemma emit_effect_spec s id k g ty pending :
  consistent s pending -> id < tickets s ->
  extends id s (emit s (Effect id k g ty)) [] [Effect id k g ty]
  /\ consistent (emit s (Effect id k g ty)) pending.
Proof.
  intros [H1 H2 H3] Hid. split.
  - constructor; simpl; rewrite ?app_nil_r; auto.
    + repeat constructor.
    + now constructor.
  - constructor; simpl.
    + now rewrite submitted_app, app_nil_r.
    + now rewrite submitted_app, applied_app, !app_nil_r.
    + apply Forall_app. split; [exact H3|]. repeat constructor. exact Hid.
Qed.

(** The loop over the side effects of the submission [id]: every handler
    that is reached fires once, with the state at that moment; if none of
    them throws, all of them are reached, in order. *)
Lemma run_effects_spec hs : forall s id a k pending,
  consistent s pending -> id < tickets s ->
  exists s' res sub extra,
    run_effects s id a k hs = (s', res)
    /\ extends id s s' sub extra
    /\ consistent s' (pending ++ sub)
    /\ ((forall h g v, In h hs -> thrown (sehandler h g v) = None) ->
        res = None
        /\ fired id extra
           = map (fun j => (j, mkGetter (_state s), atype a))
                 (seq k (List.length hs))).
Proof.
  induction hs as [|h hs IH]; intros s id a k pending Hc Hid.
  - exists s, None, [], []. rewrite app_nil_r.
    split; [reflexivity|]. split; [apply extends_refl|].
    split; [exact Hc|]. intros _. split; reflexivity.
  - cbn [run_effects].
    set (g := mkGetter (_state s)).
    destruct (emit_effect_spec k g (atype a) Hc Hid) as (E0 & C0).
    destruct (calls_spec id (calls (sehandler h g (atype a))) C0)
      as (sub1 & ex1 & E1 & F1 & C1).
    set (s2 := fold_left dispatch_busy (calls (sehandler h g (atype a)))
                         (emit s (Effect id k g (atype a)))) in *.
    pose proof (extends_trans E0 E1) as E01. simpl in E01.
    destruct (thrown (sehandler h g (atype a))) as [e|] eqn:Et.
    + exists s2, (Some e), sub1, (Effect id k g (atype a) :: ex1).
      split; [reflexivity|]. split; [exact E01|]. split; [exact C1|].
      intros Hret. rewrite (Hret h g (atype a)) in Et by now left.
      discriminate.
    + assert (Hid2 : id < tickets s2).
      { pose proof (ext_tickets E01). lia. }
      destruct (IH s2 id a (S k) _ C1 Hid2)
        as (s' & res & sub2 & ex2 & R & E2 & C2 & F2).
      exists s', res, (sub1 ++ sub2), ((Effect id k g (atype a) :: ex1) ++ ex2).
      split; [exact R|]. split; [|split].
      * apply (extends_trans E01 E2).
      * now rewrite app_assoc.
      * intros Hret. destruct F2 as (-> & F2).
        { intros h' g' v' Hin. apply Hret. now right. }
        split; [reflexivity|].
        rewrite fired_app, F2. simpl. rewrite Nat.eqb_refl, F1. simpl.
        now rewrite (ext_state E01).
Qed.

(** ** One transition and the flush of the queue *)

Lemma consistent_ext s s' pending :
  log s' = log s -> tickets s' = tickets s ->
  consistent s pending -> consistent s' pending.
Proof.
  intros Hl Ht [H1 H2 H3]. constructor; rewrite ?Hl, ?Ht; assumption.
Qed.

Lemma consistent_head s id a q :
  consistent s ((id, a) :: q) ->
  id < tickets s /\ ~ In id (map fst q)
  /\ Forall (fun ia => fst ia < tickets s) q.
Proof.
  intros [H1 H2 H3]. rewrite H2, map_app in H1. simpl in H1.
  assert (Hnd : NoDup (map fst (applied (log s)) ++ id :: map fst q))
    by (rewrite H1; apply seq_NoDup).
  assert (Hin : forall x, In x (id :: map fst q) -> x < tickets s).
  { intros x Hx.
    assert (Hx' : In x (seq 0 (tickets s)))
      by (rewrite <- H1; apply in_or_app; now right).
    apply in_seq in Hx'. lia. }
  split; [apply Hin; now left|]. split.
  - apply NoDup_remove_2 in Hnd. intros Hq. apply Hnd.
    apply in_or_app. now right.
  - apply Forall_forall. intros [i b] Hq. simpl. apply Hin. right.
    now apply (in_map fst) in Hq.
Qed.

Lemma publish_consistent s id a q st :
  consistent s ((id, a) :: q) ->
  consistent (emit (set_state (set_dispatching s true) st) (Publish id a st)) q.
Proof.
  intros [H1 H2 H3]. constructor; simpl.
  - now rewrite submitted_app, app_nil_r.
  - rewrite submitted_app, applied_app, H2. simpl.
    now rewrite app_nil_r, <- app_assoc.
  - apply Forall_app. split; [exact H3 | repeat constructor].
Qed.

Lemma resolve_consistent s id pending :
  consistent s pending ->
  consistent (emit (set_dispatching s false) (Resolve id)) pending.
Proof.
  intros [H1 H2 H3]. constructor; simpl.
  - now rewrite submitted_app, app_nil_r.
  - now rewrite submitted_app, applied_app, !app_nil_r.
  - apply Forall_app. split; [exact H3 | repeat constructor].
Qed.

Lemma effects_return_same s s' :
  same_engine s s' -> effects_return s -> effects_return s'.
Proof.
  intros [_ He _] H tbl ty l h g v Ht. rewrite He in Ht. now apply H.
Qed.

Lemma effects_for_return s a :
  effects_return s ->
  forall h g v, In h (effects_for s a) -> thrown (sehandler h g v) = None.
Proof.
  intros H h g v Hin. unfold effects_for in Hin.
  destruct (_sideEffectHandlers s) as [tbl|] eqn:Et; [|contradiction].
  destruct (assoc (to_key (atype a)) tbl) as [l|] eqn:El; [|contradiction].
  eapply H; eauto.
Qed.

Lemma transition_spec s id a :
  consistent s ((id, a) :: _dispatchQueue s) ->
  exists s3 res sub extra,
    transition s id a = (s3, res)
    /\ log s3 = log s
                ++ Publish id a (_actionHandler s (_state s) (Some a)) :: extra
    /\ Forall (block_event id) extra
    /\ _dispatchQueue s3 = _dispatchQueue s ++ sub
    /\ Forall (fun ia => tickets s <= fst ia) sub
    /\ _state s3 = _actionHandler s (_state s) (Some a)
    /\ same_engine s s3
    /\ tickets s <= tickets s3
    /\ consistent s3 (_dispatchQueue s3)
    /\ (effects_return s ->
        res = None
        /\ fired id extra
           = map (fun j => (j, mkGetter (_actionHandler s (_state s) (Some a)),
                            atype a))
                 (seq 0 (List.length (effects_for s a)))).
Proof.
  intros Hc. unfold transition.
  set (st := _actionHandler (set_dispatching s true)
                            (_state (set_dispatching s true)) (Some a)).
  set (s2 := emit (set_state (set_dispatching s true) st) (Publish id a st)).
  pose proof (publish_consistent st Hc) as C2. fold s2 in C2.
  destruct (consistent_head Hc) as (Hid & _ & _).
  destruct (run_effects_spec (effects_for s2 a) a 0 C2 Hid)
    as (s3 & res & sub & extra & R & E & C3 & F).
  exists s3, res, sub, extra.
  destruct E as [E1 E2 E3 E4 E5 E6 E7 E8].
  split; [exact R|]. split; [|split; [exact E2|]].
  { rewrite E1. simpl. now rewrite <- app_assoc. }
  split; [exact E3|]. split; [exact E8|]. split; [exact E4|].
  split; [destruct E6; constructor; assumption|].
  split; [exact E7|]. split.
  - now rewrite E3.
  - intros Hret. apply F.
    apply (effects_for_return (s := s2)).
    intros tbl ty l h g v. apply Hret.
Qed.

Lemma finish_spec s id pending :
  consistent s pending ->
  consistent (finish s id) pending
  /\ log (finish s id) = log s ++ [Resolve id]
  /\ _dispatchQueue (finish s id) = _dispatchQueue s
  /\ _isDispatching (finish s id) = false
  /\ same_engine s (finish s id)
  /\ tickets (finish s id) = tickets s.
Proof.
  intros Hc. split; [now apply resolve_consistent|].
  repeat split; reflexivity.
Qed.

Lemma scan_block id a st extra l :
  scan None l = Some None -> Forall (block_event id) extra ->
  scan None (l ++ Publish id a st :: extra ++ [Resolve id]) = Some None.
Proof.
  intros Hl Hb. rewrite scan_app, Hl. simpl.
  rewrite scan_app, (block_scan Hb). simpl. now rewrite Nat.eqb_refl.
Qed.

Lemma fired_block id0 id a st extra :
  Forall (block_event id) extra -> id0 <> id ->
  fired id0 (Publish id a st :: extra ++ [Resolve id]) = [].
Proof.
  intros Hb Hne. simpl. rewrite fired_app, (block_fired_other Hb Hne).
  reflexivity.
Qed.

(** The run that serves the submission [id] and then flushes the queue. *)
Lemma serve_spec fuel : forall s id a,
  consistent s ((id, a) :: _dispatchQueue s) ->
  scan None (log s) = Some None ->
  exists extra,
    log (store_of (serve fuel s id a)) = log s ++ extra
    /\ consistent (store_of (serve fuel s id a))
                  (_dispatchQueue (store_of (serve fuel s id a)))
    /\ same_engine s (store_of (serve fuel s id a))
    /\ tickets s <= tickets (store_of (serve fuel s id a))
    /\ (forall id0, id0 <> id -> id0 < tickets s ->
                    ~ In id0 (map fst (_dispatchQueue s)) ->
                    fired id0 extra = [])
    /\ (effects_return s ->
        fired id extra
        = map (fun j => (j, mkGetter (_actionHandler s (_state s) (Some a)),
                         atype a))
              (seq 0 (List.length (effects_for s a)))
        /\ idle (store_of (serve fuel s id a))
        /\ (forall s', serve fuel s id a = Done s' -> _dispatchQueue s' = [])).
Proof.
  induction fuel as [|fuel IH]; intros s id a Hc Hscan;
    destruct (transition_spec Hc)
      as (s3 & res & sub & extra & T & L3 & B3 & Q3 & S3 & St3 & E3 & T3 & C3 & F3);
    destruct (consistent_head Hc) as (Hid & Hfresh & Hq);
    cbn [serve]; rewrite T;
    destruct (finish_spec id C3) as (C4 & L4 & Q4 & D4 & E4 & T4);
    rewrite <- Q4 in C4;
    assert (Q34 : _dispatchQueue (finish s3 id) = _dispatchQueue s ++ sub)
      by (now rewrite Q4).
  - (* no fuel for the flush *)
    destruct res as [e|].
    + exists (Publish id a (_actionHandler s (_state s) (Some a)) :: extra).
      simpl. split; [exact L3|]. split; [exact C3|]. split; [exact E3|].
      split; [exact T3|]. split.
      * intros id0 Hne _ _. simpl. now apply (block_fired_other B3).
      * intros Hret. destruct (F3 Hret) as (Hres & _). discriminate.
    + exists (Publish id a (_actionHandler s (_state s) (Some a))
                      :: extra ++ [Resolve id]).
      assert (Hlog : log (finish s3 id)
                     = log s ++ Publish id a (_actionHandler s (_state s) (Some a))
                                :: extra ++ [Resolve id]).
      { rewrite L4, L3, <- app_assoc. reflexivity. }
      assert (Hfired : effects_return s ->
                fired id (Publish id a (_actionHandler s (_state s) (Some a))
                                  :: extra ++ [Resolve id])
                = map (fun j => (j, mkGetter (_actionHandler s (_state s) (Some a)),
                                 atype a))
                      (seq 0 (List.length (effects_for s a)))).
      { intros Hret. destruct (F3 Hret) as (_ & Hf). simpl.
        now rewrite fired_app, Hf, app_nil_r. }
      assert (Hidle : idle (finish s3 id)).
      { split; [exact D4|]. rewrite Hlog. now apply scan_block. }
      destruct (_dispatchQueue (finish s3 id)) as [|[id' a'] q] eqn:Eq;
        cbn [store_of].
      * split; [exact Hlog|]. split; [rewrite ?Eq; exact C4|].
        split; [eapply same_engine_trans; eauto|]. split; [lia|]. split.
        { intros id0 Hne _ _. now apply fired_block. }
        intros Hret. split; [now apply Hfired|]. split; [exact Hidle|].
        intros s' [= <-]. exact Eq.
      * split; [exact Hlog|]. split; [rewrite ?Eq; exact C4|].
        split; [eapply same_engine_trans; eauto|]. split; [lia|]. split.
        { intros id0 Hne _ _. now apply fired_block. }
        intros Hret. split; [now apply Hfired|]. split; [exact Hidle|].
        intros s' [=].
  - (* the flush may serve [fuel + 1] entries *)
    destruct res as [e|].
    + exists (Publish id a (_actionHandler s (_state s) (Some a)) :: extra).
      simpl. split; [exact L3|]. split; [exact C3|]. split; [exact E3|].
      split; [exact T3|]. split.
      * intros id0 Hne _ _. simpl. now apply (block_fired_other B3).
      * intros Hret. destruct (F3 Hret) as (Hres & _). discriminate.
    + assert (Hlog : log (finish s3 id)
                     = log s ++ Publish id a (_actionHandler s (_state s) (Some a))
                                :: extra ++ [Resolve id]).
      { rewrite L4, L3, <- app_assoc. reflexivity. }
      assert (Hfired : effects_return s ->
                fired id (Publish id a (_actionHandler s (_state s) (Some a))
                                  :: extra ++ [Resolve id])
                = map (fun j => (j, mkGetter (_actionHandler s (_state s) (Some a)),
                                 atype a))
                      (seq 0 (List.length (effects_for s a)))).
      { intros Hret. destruct (F3 Hret) as (_ & Hf). simpl.
        now rewrite fired_app, Hf, app_nil_r. }
      assert (Hscan4 : scan None (log (finish s3 id)) = Some None).
      { rewrite Hlog. now apply scan_block. }
      destruct (_dispatchQueue (finish s3 id)) as [|[id' a'] q] eqn:Eq.
      * exists (Publish id a (_actionHandler s (_state s) (Some a))
                        :: extra ++ [Resolve id]).
        cbn [store_of]. split; [exact Hlog|]. split; [rewrite ?Eq; exact C4|].
        split; [eapply same_engine_trans; eauto|]. split; [lia|]. split.
        { intros id0 Hne _ _. now apply fired_block. }
        intros Hret. split; [now apply Hfired|].
        split; [split; [exact D4 | exact Hscan4]|].
        intros s' [= <-]. exact Eq.
      * set (s5 := set_queue (finish s3 id) q).
        assert (C5 : consistent s5 ((id', a') :: _dispatchQueue s5)).
        { apply (consistent_ext (s := finish s3 id)); try reflexivity.
          exact C4. }
        assert (Hin' : In (id', a') (_dispatchQueue s ++ sub)).
        { rewrite <- Q34. now left. }
        assert (Hsub : forall i b, In (i, b) (_dispatchQueue s ++ sub) ->
                                   (In i (map fst (_dispatchQueue s))
                                    \/ tickets s <= i)).
        { intros i b Hin. apply in_app_or in Hin. destruct Hin as [Hin | Hin].
          - left. now apply (in_map fst) in Hin.
          - right. rewrite Forall_forall in S3. now apply (S3 (i, b)). }
        assert (Hq' : forall i, In i (map fst q) ->
                                (In i (map fst (_dispatchQueue s))
                                 \/ tickets s <= i)).
        { intros i Hi. apply in_map_iff in Hi. destruct Hi as ([i' b] & <- & Hi).
          apply (Hsub i' b). rewrite <- Q34. now right. }
        destruct (IH s5 id' a' C5 Hscan4)
          as (extra' & L5 & C6 & E5 & T5 & F5 & R5).
        exists ((Publish id a (_actionHandler s (_state s) (Some a))
                         :: extra ++ [Resolve id]) ++ extra').
        split; [rewrite L5; change (log s5) with (log (finish s3 id));
                rewrite Hlog; now rewrite <- app_assoc|].
        split; [exact C6|].
        assert (E05 : same_engine s s5).
        { apply (same_engine_trans E3). now constructor. }
        split; [eapply same_engine_trans; eauto|].
        split; [simpl in T5; lia|]. split.
        { intros id0 Hne Hlt Hnq. rewrite fired_app, (fired_block _ _ B3 Hne).
          simpl. apply F5.
          - intros ->. destruct (Hsub _ _ Hin') as [H | H]; [tauto | lia].
          - simpl. lia.
          - simpl. intros Hi. destruct (Hq' _ Hi) as [H | H]; [tauto | lia]. }
        intros Hret. destruct R5 as (_ & I5 & D5).
        { eapply effects_return_same; eauto. }
        split.
        { rewrite fired_app, (Hfired Hret), F5, app_nil_r; [reflexivity| | |].
          - intros ->. destruct (Hsub _ _ Hin') as [H | H]; [tauto | lia].
          - simpl. lia.
          - simpl. intros Hi. destruct (Hq' _ Hi) as [H | H]; [tauto | lia]. }
        split; [exact I5 | exact D5].
Qed.

(** ** Calls from outside *)

Lemma fresh_at_rest s : fresh s -> at_rest s.
Proof.
  intros (Hq & Hd & Ht & Hl). constructor.
  - constructor; rewrite Hl, ?Ht; simpl; auto.
  - exact Hq.
  - split; [exact Hd | now rewrite Hl].
Qed.

Lemma submit_consistent s a :
  at_rest s ->
  consistent (submit s a) ((tickets s, a) :: _dispatchQueue (submit s a))
  /\ scan None (log (submit s a)) = Some None.
Proof.
  intros [Hc Hq [Hd Hs]]. split.
  - pose proof (enqueue_consistent a Hc) as H. simpl in H.
    change (_dispatchQueue (submit s a)) with (_dispatchQueue s).
    rewrite Hq. eapply consistent_ext; [| |exact H]; reflexivity.
  - simpl. rewrite scan_app, Hs. reflexivity.
Qed.

(** A call made at rest that passes the lookup of the name is served at
    once, under the next ticket. *)
Lemma dispatch_at_rest fuel s c a :
  at_rest s -> resolve_call s c = Ok a ->
  dispatch fuel s c
  = (serve fuel (submit s a) (tickets s) a,
     if resolved (tickets s)
                 (log (store_of (serve fuel (submit s a) (tickets s) a)))
     then Fulfilled else Pending).
Proof.
  intros [_ _ [Hd _]] Hr. unfold dispatch. now rewrite Hr, Hd.
Qed.

Lemma dispatch_keeps_rest fuel s c :
  at_rest s -> effects_return s ->
  consistent (store_of (fst (dispatch fuel s c)))
             (_dispatchQueue (store_of (fst (dispatch fuel s c))))
  /\ idle (store_of (fst (dispatch fuel s c)))
  /\ same_engine s (store_of (fst (dispatch fuel s c)))
  /\ (forall s', fst (dispatch fuel s c) = Done s' -> at_rest s').
Proof.
  intros Hrest Hret.
  destruct (resolve_call s c) as [a|e] eqn:Hr.
  - rewrite (dispatch_at_rest fuel c Hrest Hr). cbn [fst].
    destruct (submit_consistent a Hrest) as (Hc & Hs).
    destruct (serve_spec fuel Hc Hs) as (extra & L & C & E & T & F & R).
    destruct R as (_ & I & D); [exact Hret|].
    split; [exact C|]. split; [exact I|].
    split; [destruct E; constructor; assumption|].
    intros s' Hs'. rewrite Hs' in C, I. cbn [store_of] in C, I.
    pose proof (D _ Hs') as Hq. rewrite Hq in C. now constructor.
  - unfold dispatch. rewrite Hr. cbn [fst store_of].
    destruct Hrest as [Hc Hq Hi]. split; [now rewrite Hq|].
    split; [exact Hi|]. split; [apply same_engine_refl|].
    intros s' [= <-]. now constructor.
Qed.

Lemma dispatch_all_spec fuel cs : forall s,
  at_rest s -> effects_return s ->
  consistent (store_of (dispatch_all fuel s cs))
             (_dispatchQueue (store_of (dispatch_all fuel s cs)))
  /\ idle (store_of (dispatch_all fuel s cs))
  /\ same_engine s (store_of (dispatch_all fuel s cs))
  /\ (forall s', dispatch_all fuel s cs = Done s' -> at_rest s').
Proof.
  induction cs as [|c cs IH]; intros s Hrest Hret; cbn [dispatch_all].
  - destruct Hrest as [Hc Hq Hi]. cbn [store_of].
    split; [now rewrite Hq|]. split; [exact Hi|].
    split; [apply same_engine_refl|]. intros s' [= <-]. now constructor.
  - destruct (dispatch_keeps_rest fuel c Hrest Hret) as (C & I & E & D).
    destruct (fst (dispatch fuel s c)) as [s1|s1] eqn:E1; cbn [store_of] in *.
    + destruct (IH s1 (D _ eq_refl) (effects_return_same E Hret))
        as (C' & I' & E' & D').
      split; [exact C'|]. split; [exact I'|].
      split; [eapply same_engine_trans; eauto | exact D'].
    + split; [exact C|]. split; [exact I|]. split; [exact E|].
      intros s' [=].
Qed.

(** ** Side effects *)

(** [sideEffect] appends to the list of the tag and leaves the other tags
    alone. *)
Lemma sideEffect_appends r h :
  assoc (actionType h) (_sideEffects (sideEffect r h))
  = Some (match assoc (actionType h) (_sideEffects r) with
          | Some l => l
          | None => []
          end ++ [h])
  /\ (forall ty, ty <> actionType h ->
        assoc ty (_sideEffects (sideEffect r h)) = assoc ty (_sideEffects r)).
Proof.
  unfold sideEffect. simpl. split.
  - rewrite assoc_put_same. now destruct (assoc (actionType h) (_sideEffects r)).
  - intros ty Hne. now apply assoc_put_other.
Qed.


Lemma effects_return_intro s :
  (forall tbl, _sideEffectHandlers s = Some tbl ->
     Forall (fun kv =>
               Forall (fun h => forall g v, thrown (sehandler h g v) = None)
                      (snd kv)) tbl) ->
  effects_return s.
Proof.
  intros H tbl ty l h g v Ht Hl Hin.
  specialize (H tbl Ht). rewrite Forall_forall in H.
  specialize (H (ty, l) (assoc_in _ _ Hl)). simpl in H.
  rewrite Forall_forall in H. now apply H.
Qed.

Lemma example_effects_return s :
  _sideEffectHandlers s = Some example_effects -> effects_return s.
Proof.
  intros Hs. apply effects_return_intro. intros tbl Ht.
  rewrite Hs in Ht. injection Ht as <-.
  repeat constructor.
Qed.

Lemma example_store_built :
  counter_store (Some example_effects) SUndef = Ok example_store.
Proof. reflexivity. Qed.

Lemma example_store_fresh : fresh example_store.
Proof. repeat split. Qed.

(** That run is over within the fuel, with four transitions applied: the
    two calls and the transition that a side effect submits during each. *)
Lemma example_run_done :
  exists s,
    dispatch_all 5 example_store example_calls = Done s
    /\ applied (log s) = [(0, INC 5); (1, LOG); (2, INC 3); (3, LOG)]
    /\ tickets s = 4.
Proof. eexists. vm_compute. repeat split. Qed.

(** The log of a run: the transition that the first side effect submits
    is published after the resolution of the one in flight. *)
Lemma reentrant_dispatch_log :
  exists s st,
    dispatch 5 example_store (mkCall (ByAction (INC 5)) VUndef VUndef)
    = (Done s, Fulfilled)
    /\ log s = [Submit 0 (INC 5); Publish 0 (INC 5) st;
                Effect 0 0 (mkGetter st) (VStr "INC"); Submit 1 LOG;
                Effect 0 1 (mkGetter st) (VStr "INC"); Resolve 0;
                Publish 1 LOG st; Resolve 1].
Proof. do 2 eexists. vm_compute. repeat split. Qed.


(** In that run both side effects of "INC" fire once, the first one
    first. *)
Lemma example_effects_fired :
  exists st,
    fired 0 (log (store_of (fst (dispatch 5 example_store
                   (mkCall (ByAction (INC 5)) VUndef VUndef)))))
    = [(0, mkGetter st, VStr "INC"); (1, mkGetter st, VStr "INC")].
Proof. eexists. vm_compute. reflexivity. Qed.

(** ** [split] and [join] *)

Lemma string_app_assoc (a b c : string) :
  ((a ++ b) ++ c = a ++ (b ++ c))%string.
Proof. induction a; simpl; congruence. Qed.

Lemma string_app_nil_r (a : string) : (a ++ EmptyString = a)%string.
Proof. induction a; simpl; congruence. Qed.

Lemma split_aux_nonempty s : forall acc, split_aux acc s <> [].
Proof.
  induction s as [|c s IH]; intros acc; simpl; [discriminate|].
  destruct (Ascii.eqb c dot); [discriminate | apply IH].
Qed.

Lemma join_cons x l : l <> [] -> join (x :: l) = (x ++ "." ++ join l)%string.
Proof. destruct l; [congruence | reflexivity]. Qed.

Lemma join_split_aux s : forall acc, join (split_aux acc s) = (acc ++ s)%string.
Proof.
  induction s as [|c s IH]; intros acc; simpl.
  - now rewrite string_app_nil_r.
  - destruct (Ascii.eqb c dot) eqn:E.
    + apply Ascii.eqb_eq in E. subst c.
      rewrite join_cons by apply split_aux_nonempty. now rewrite IH.
    + rewrite IH, string_app_assoc. reflexivity.
Qed.

Lemma join_split s : join (split s) = s.
Proof. unfold split. now rewrite join_split_aux. Qed.

Lemma dotfree_app a b : dotfree (a ++ b)%string = dotfree a && dotfree b.
Proof.
  induction a as [|c a IH]; simpl; [reflexivity|].
  now rewrite IH, andb_assoc.
Qed.

Lemma split_aux_dotfree s : forall acc,
  dotfree acc = true -> Forall (fun x => dotfree x = true) (split_aux acc s).
Proof.
  induction s as [|c s IH]; intros acc Hacc; simpl.
  - now constructor.
  - destruct (Ascii.eqb c dot) eqn:E.
    + constructor; [exact Hacc | now apply IH].
    + apply IH. rewrite dotfree_app, Hacc. simpl. now rewrite E.
Qed.

Lemma split_dotfree s : Forall (fun x => dotfree x = true) (split s).
Proof. now apply split_aux_dotfree. Qed.

Lemma split_aux_app x : forall acc s,
  dotfree x = true ->
  split_aux acc (x ++ s)%string = split_aux (acc ++ x)%string s.
Proof.
  induction x as [|c x IH]; intros acc s Hx; simpl.
  - now rewrite string_app_nil_r.
  - simpl in Hx. apply andb_true_iff in Hx. destruct Hx as (Hc & Hx).
    apply negb_true_iff in Hc. rewrite Hc, IH, string_app_assoc by exact Hx.
    reflexivity.
Qed.

Lemma split_aux_dot acc s :
  split_aux acc ("." ++ s)%string = acc :: split_aux EmptyString s.
Proof. reflexivity. Qed.

Lemma split_join l : forall acc,
  l <> [] -> Forall (fun x => dotfree x = true) l ->
  split_aux acc (join l)
  = match l with
    | [] => []
    | x :: l' => (acc ++ x)%string :: l'
    end.
Proof.
  induction l as [|x l IH]; intros acc Hne Hall; [congruence|].
  inversion Hall as [|? ? Hx Hl]; subst.
  destruct l as [|y l].
  - simpl. rewrite <- (string_app_nil_r x) at 1.
    rewrite split_aux_app by exact Hx. reflexivity.
  - rewrite join_cons by discriminate.
    rewrite split_aux_app by exact Hx. rewrite split_aux_dot.
    rewrite (IH EmptyString) by (try discriminate; assumption).
    reflexivity.
Qed.

Lemma split_join_id l :
  l <> [] -> Forall (fun x => dotfree x = true) l -> split (join l) = l.
Proof.
  intros Hne Hall. unfold split. rewrite (split_join _ Hne Hall).
  now destruct l.
Qed.

(** The parent path of a nested selector, as the traverser computes it,
    followed by the leaf key, is the selector split at the dots. *)
Lemma traverser_path_of_selector sel :
  (1 < List.length (split sel))%nat ->
  split (join (removelast (split sel))) ++ [last (split sel) EmptyString]
  = split sel.
Proof.
  intros Hlen. pose proof (split_dotfree sel) as Hd.
  destruct (split sel) as [|x [|y l]] eqn:E; simpl in Hlen; try lia.
  rewrite split_join_id.
  - symmetry. apply app_removelast_last. discriminate.
  - simpl. destruct l; discriminate.
  - rewrite (app_removelast_last EmptyString (l := x :: y :: l)) in Hd
      by discriminate.
    apply Forall_app in Hd. tauto.
Qed.

Lemma root_path_of_selector sel :
  (1 <? List.length (split sel))%nat = false ->
  [hd EmptyString (split sel)] = split sel.
Proof.
  intros Hlen. apply Nat.ltb_ge in Hlen.
  pose proof (@split_aux_nonempty sel EmptyString) as Hne. fold (split sel) in Hne.
  destruct (split sel) as [|x [|y l]]; simpl in *; try congruence; lia.
Qed.

(** ** The entries of the action tree *)

Lemma in_put {A} (k k' : string) (v v' : A) (o : list (string * A)) :
  In (k, v) (put k' v' o) -> (k = k' /\ v = v') \/ In (k, v) o.
Proof.
  induction o as [|[k0 v0] o IH]; simpl.
  - intros [[= <- <-] | []]. now left.
  - destruct (String.eqb k' k0) eqn:E; simpl.
    + intros [[= <- <-] | H]; [now left | now right; right].
    + intros [H | H]; [now right; left|].
      destruct (IH H) as [H' | H']; [now left | now right; right].
Qed.

Lemma in_install k l suffix d gn t :
  In (k, l) (install suffix d gn t) ->
  (k = suffix /\ leaf_decl l = d
   /\ (assoc suffix t = None -> is_composed l = false))
  \/ In (k, l) t.
Proof.
  unfold install. destruct (assoc suffix t) eqn:E; intros H;
    apply in_put in H; destruct H as [(-> & ->) | H]; auto; left;
    repeat split; auto; discriminate.
Qed.

Lemma from_decl_mono hs hs' p k l :
  (forall d, In d hs -> In d hs') -> from_decl hs p k l -> from_decl hs' p k l.
Proof. intros H [H1 H2]. split; auto. Qed.

Lemma add_handler_entries hs t d :
  tree_entries hs t -> tree_entries (hs ++ [d]) (add_handler t d).
Proof.
  intros [HR HN].
  assert (Hmono : forall d0, In d0 hs -> In d0 (hs ++ [d]))
    by (intros; apply in_or_app; now left).
  assert (Hd : In d (hs ++ [d])) by (apply in_or_app; right; now left).
  unfold add_handler.
  destruct (1 <? List.length (split (selector (decl d))))%nat eqn:Elen.
  - apply Nat.ltb_lt in Elen.
    set (dest := join (removelast (split (selector (decl d))))).
    set (suffix := last (split (selector (decl d))) EmptyString).
    set (n := match assoc dest (nested t) with
              | Some _ => nested t
              | None => put dest [] (nested t)
              end).
    split; simpl.
    + intros k l H. eapply from_decl_mono; eauto.
    + intros dest0 tb0 k l Hin Hk.
      assert (Hn : forall d1 tb1, In (d1, tb1) n ->
                                  In (d1, tb1) (nested t) \/ tb1 = []).
      { intros d1 tb1 H1. subst n. destruct (assoc dest (nested t)); auto.
        apply in_put in H1. destruct H1 as [(_ & ->) | H1]; auto. }
      apply in_put in Hin. destruct Hin as [(-> & ->) | Hin].
      * apply in_install in Hk. destruct Hk as [(-> & Hl & _) | Hk].
        { split; rewrite Hl; [exact Hd|].
          symmetry. now apply traverser_path_of_selector. }
        destruct (assoc dest n) as [tb1|] eqn:E1; [|contradiction].
        apply assoc_in in E1. destruct (Hn _ _ E1) as [H1 | ->];
          [|contradiction].
        eapply from_decl_mono; eauto.
      * destruct (Hn _ _ Hin) as [H1 | ->]; [|contradiction].
        eapply from_decl_mono; eauto.
  - split; simpl.
    + intros k l Hk. apply in_install in Hk.
      destruct Hk as [(-> & Hl & _) | Hk].
      * split; rewrite Hl; [exact Hd|].
        symmetry. now apply root_path_of_selector.
      * eapply from_decl_mono; eauto.
    + intros dest0 tb0 k l Hin Hk. eapply from_decl_mono; eauto.
Qed.

Lemma fold_entries hs : forall done t,
  tree_entries done t ->
  tree_entries (done ++ hs) (fold_left add_handler hs t).
Proof.
  induction hs as [|d hs IH]; intros done t H; simpl.
  - now rewrite app_nil_r.
  - replace (done ++ d :: hs) with ((done ++ [d]) ++ hs)
      by (now rewrite <- app_assoc).
    apply IH. now apply add_handler_entries.
Qed.

Lemma build_tree_entries hs : tree_entries hs (build_tree hs).
Proof.
  apply (fold_entries hs (done := []) (t := mkTree [] [])).
  split; simpl; intros; contradiction.
Qed.

(** ** Writes into the state tree *)

Lemma get_object v k c :
  get v k = Ok (VObj c) -> exists o, v = VObj o /\ assoc k o = Some (VObj c).
Proof.
  destruct v as [|n| |s|o]; simpl; try discriminate.
  - unfold str_get. destruct (String.eqb k "length"); [discriminate|].
    destruct (NilZero.uint_of_string k); [|discriminate].
    destruct (String.eqb _ k); [|discriminate].
    destruct (String.get _ s); discriminate.
  - destruct (assoc k o) eqn:E; intros [= H].
    exists o. now subst.
Qed.

(** A write succeeds only through objects. *)
Lemma set_path_object p : forall v k x v',
  set_path v p k x = Ok v' -> exists o, v = VObj o.
Proof.
  induction p as [|k0 p IH]; intros v k x v' H; simpl in H.
  - destruct v; try discriminate. eauto.
  - destruct (get v k0) as [c|] eqn:Eg; [|discriminate]. simpl in H.
    destruct (set_path c p k x) as [c'|] eqn:Es; [|discriminate].
    destruct (IH _ _ _ _ Es) as (oc & ->).
    destruct (get_object _ _ Eg) as (o & -> & _). eauto.
Qed.

(** After a write the node written is there. *)
Lemma set_path_lookup p : forall v k x v',
  set_path v p k x = Ok v' -> lookup v' (p ++ [k]) = Some x.
Proof.
  induction p as [|k0 p IH]; intros v k x v' H; simpl in H.
  - destruct v; try discriminate. injection H as <-. simpl.
    now rewrite assoc_put_same.
  - destruct (get v k0) as [c|] eqn:Eg; [|discriminate]. simpl in H.
    destruct (set_path c p k x) as [c'|] eqn:Es; [|discriminate].
    destruct (set_path_object _ _ _ _ Es) as (oc & ->).
    destruct (get_object _ _ Eg) as (o & -> & _).
    simpl in H. injection H as <-. simpl.
    rewrite assoc_put_same. now apply (IH _ _ _ _ Es).
Qed.

Lemma is_prefix_refl p : is_prefix p p = true.
Proof. induction p; simpl; [reflexivity|]. now rewrite String.eqb_refl. Qed.

(** A write keeps every node that does not lie below the node written. *)
Lemma set_path_keeps p : forall v k x v' q y,
  set_path v p k x = Ok v' -> lookup v q = Some y ->
  ~ proper_prefix (p ++ [k]) q ->
  exists y', lookup v' q = Some y'.
Proof.
  induction p as [|k0 p IH]; intros v k x v' q y H Hq Hpre; simpl in H.
  - destruct v as [|n| |s|o]; try discriminate. injection H as <-.
    destruct q as [|k1 q]; [simpl; eauto|]. simpl in Hq |- *.
    destruct (String.eqb k1 k) eqn:E.
    + apply String.eqb_eq in E. subst k1. rewrite assoc_put_same.
      destruct q as [|k2 q]; [simpl; eauto|].
      exfalso. apply Hpre. split; simpl; [|discriminate].
      now rewrite String.eqb_refl.
    + apply String.eqb_neq in E. rewrite (assoc_put_other _ _ E).
      destruct (assoc k1 o); [eauto | discriminate].
  - destruct (get v k0) as [c|] eqn:Eg; [|discriminate]. simpl in H.
    destruct (set_path c p k x) as [c'|] eqn:Es; [|discriminate].
    destruct (set_path_object _ _ _ _ Es) as (oc & ->).
    destruct (get_object _ _ Eg) as (o & -> & Ha).
    simpl in H. injection H as <-.
    destruct q as [|k1 q]; [simpl; eauto|]. simpl in Hq |- *.
    destruct (String.eqb k1 k0) eqn:E.
    + apply String.eqb_eq in E. subst k1. rewrite assoc_put_same.
      rewrite Ha in Hq.
      apply (IH _ _ _ _ _ _ Es Hq).
      intros [Hp Hne]. apply Hpre. split.
      * simpl. now rewrite String.eqb_refl.
      * simpl. congruence.
    + apply String.eqb_neq in E. rewrite (assoc_put_other _ _ E).
      destruct (assoc k1 o); [eauto | discriminate].
Qed.

Lemma writes_keep es : forall st v' q y,
  writes es st = Ok v' -> lookup st q = Some y ->
  (forall e, In e es -> ~ proper_prefix (entry_path e) q) ->
  exists y', lookup v' q = Some y'.
Proof.
  induction es as [|e es IH]; intros st v' q y H Hq Hpre; simpl in H.
  - injection H as <-. eauto.
  - destruct (eout e) as [x|]; [|discriminate]. simpl in H.
    destruct (set_path st (epath e) (ekey e) x) as [st'|] eqn:Es;
      [|discriminate]. simpl in H.
    destruct (set_path_keeps _ _ _ _ Es Hq) as (y1 & Hy1).
    { apply (Hpre e). now left. }
    eapply IH; eauto. intros e' He'. apply Hpre. now right.
Qed.

(** After the writes of a fulfilled reducer, the node of every entry is
    in the tree, provided no entry writes a proper prefix of it. *)
Lemma writes_materialize es : forall st v' e,
  writes es st = Ok v' -> In e es ->
  (forall e', In e' es -> ~ proper_prefix (entry_path e') (entry_path e)) ->
  exists y, lookup v' (entry_path e) = Some y.
Proof.
  induction es as [|e0 es IH]; intros st v' e H Hin Hpre; [contradiction|].
  simpl in H.
  destruct (eout e0) as [x|]; [|discriminate]. simpl in H.
  destruct (set_path st (epath e0) (ekey e0) x) as [st'|] eqn:Es;
    [|discriminate]. simpl in H.
  destruct Hin as [-> | Hin].
  - apply set_path_lookup in Es.
    eapply writes_keep; eauto. intros e' He'. apply Hpre. now right.
  - eapply IH; eauto. intros e' He'. apply Hpre. now right.
Qed.

(** ** The entries that the reducer writes *)

Lemma root_calls_entries t st a e :
  In e (root_calls t st a) ->
  exists k l, In (k, l) t /\ epath e = [] /\ ekey e = k.
Proof.
  unfold root_calls. intros H. apply in_map_iff in H.
  destruct H as ([k l] & <- & Hin). exists k, l. auto.
Qed.

Lemma nested_calls_entries ts : forall st a r,
  nested_calls ts st a = Ok r ->
  (forall e, In e (snd r) ->
     exists t k l, In t ts /\ In (k, l) (thandler t)
                   /\ epath e = path t /\ ekey e = k)
  /\ (forall t k l, In t ts -> In (k, l) (thandler t) ->
        exists e, In e (snd r) /\ epath e = path t /\ ekey e = k).
Proof.
  induction ts as [|t ts IH]; intros st a r Hr; simpl in Hr.
  - injection Hr as <-. simpl. split; intros; contradiction.
  - destruct (materialize st (path t)) as [st1|]; [|discriminate]. simpl in Hr.
    destruct (get_path st1 (path t)) as [curr|]; [|discriminate]. simpl in Hr.
    destruct (nested_calls ts st1 a) as [r'|] eqn:Er'; [|discriminate].
    simpl in Hr. injection Hr as <-. simpl.
    destruct (IH _ _ _ Er') as (IH1 & IH2). split.
    + intros e He. apply in_app_or in He. destruct He as [He | He].
      * apply in_map_iff in He. destruct He as ([k l] & <- & Hin).
        exists t, k, l. simpl. auto.
      * destruct (IH1 _ He) as (t' & k & l & Ht & Hk & Hp & Hkey).
        exists t', k, l. auto.
    + intros t' k l [<- | Ht] Hk.
      * eexists. split.
        { apply in_or_app. left. apply in_map_iff. exists (k, l). eauto. }
        simpl. auto.
      * destruct (IH2 _ _ _ Ht Hk) as (e & He & Hp & Hkey).
        exists e. split; [apply in_or_app; now right | auto].
Qed.

Lemma build_tree_occupied hs d :
  In d hs -> exists l, tree_leaf (build_tree hs) (selector (decl d)) = Some l.
Proof.
  intros Hin. apply in_split in Hin. destruct Hin as (hs1 & hs2 & ->).
  unfold build_tree. rewrite fold_left_app. simpl.
  destruct (add_handler_own_slot (fold_left add_handler hs1 (mkTree [] [])) d)
    as (l & Hl & _).
  eapply fold_occupied; eauto.
Qed.

(** Every entry that the reducer writes is the selector of a registered
    declaration, split at the dots. *)
Lemma reduce_entries hs o a r e :
  nested_calls (nestedTraversers (build_tree hs)) (VObj o) a = Ok r ->
  In e (root_calls (root (build_tree hs)) (VObj o) a ++ snd r) ->
  exists d, In d hs /\ split (selector (decl d)) = entry_path e.
Proof.
  intros Hr He. destruct (build_tree_entries hs) as (HR & HN).
  apply in_app_or in He. destruct He as [He | He].
  - apply root_calls_entries in He. destruct He as (k & l & Hin & Hp & Hk).
    destruct (HR _ _ Hin) as (Hd & Hs).
    exists (leaf_decl l). split; [exact Hd|].
    unfold entry_path. now rewrite Hp, Hk.
  - destruct (nested_calls_entries _ _ _ Hr) as (H1 & _).
    destruct (H1 _ He) as (t & k & l & Ht & Hin & Hp & Hk).
    unfold nestedTraversers in Ht. apply in_map_iff in Ht.
    destruct Ht as ([dest tb] & <- & Hdt). simpl in *.
    destruct (HN _ _ _ _ Hdt Hin) as (Hd & Hs).
    exists (leaf_decl l). split; [exact Hd|].
    unfold entry_path. now rewrite Hp, Hk.
Qed.


(** ** A transition that no handler reacts to *)

Lemma put_same {A} (k : string) (v : A) (o : list (string * A)) :
  assoc k o = Some v -> put k v o = o.
Proof.
  induction o as [|[k' v'] o IH]; simpl; [discriminate|].
  destruct (String.eqb k k') eqn:E.
  - apply String.eqb_eq in E. now intros [= ->]; subst.
  - intros H. now rewrite IH.
Qed.

(** On a path that is there, the traverser creates nothing and reaches the
    parent of the leaf. *)
Lemma materialize_present p : forall v k x,
  lookup v (p ++ [k]) = Some x ->
  materialize v p = Ok v
  /\ exists oc, get_path v p = Ok (VObj oc) /\ assoc k oc = Some x.
Proof.
  induction p as [|k0 p IH]; intros v k x H; simpl in H.
  - destruct v as [|n| |s|o]; try discriminate.
    destruct (assoc k o) as [c|] eqn:E; [|discriminate].
    injection H as ->. simpl. split; [reflexivity | eauto].
  - destruct v as [|n| |s|o]; try discriminate.
    destruct (assoc k0 o) as [c|] eqn:E; [|discriminate].
    destruct (IH _ _ _ H) as (Hm & oc & Hg & Ha).
    assert (Hc : is_undef c = false).
    { destruct c; try reflexivity. destruct p; discriminate. }
    simpl. rewrite E. simpl. rewrite Hc. simpl. rewrite E. simpl.
    rewrite Hm. simpl. rewrite (put_same _ _ E).
    split; [reflexivity|]. rewrite Hg. eauto.
Qed.

Lemma set_path_same p : forall v k x,
  lookup v (p ++ [k]) = Some x -> set_path v p k x = Ok v.
Proof.
  induction p as [|k0 p IH]; intros v k x H; simpl in H.
  - destruct v as [|n| |s|o]; try discriminate.
    destruct (assoc k o) as [c|] eqn:E; [|discriminate].
    injection H as ->. simpl. now rewrite (put_same _ _ E).
  - destruct v as [|n| |s|o]; try discriminate.
    destruct (assoc k0 o) as [c|] eqn:E; [|discriminate].
    simpl. rewrite E. simpl. rewrite (IH _ _ _ H). simpl.
    now rewrite (put_same _ _ E).
Qed.

(** The adapter of a handler of another type passes a defined state
    through. *)
Lemma adapter_passthrough d x a :
  x <> VUndef -> is_str (atype a) (type d) = false ->
  call_leaf (LAdapter d) x (Some a) = Ok x.
Proof.
  intros Hx Ht. simpl. unfold actionHandler. rewrite Ht.
  destruct x; try reflexivity. congruence.
Qed.

Lemma writes_rewrites es : forall st,
  Forall (rewrites st) es -> writes es st = Ok st.
Proof.
  induction es as [|e es IH]; intros st H; simpl; [reflexivity|].
  inversion H as [|? ? (x & Hx & Hl) Hes]; subst.
  rewrite Hx. simpl. unfold entry_path in Hl.
  rewrite (set_path_same _ _ _ Hl). simpl. now apply IH.
Qed.

Lemma root_calls_pass t o a :
  Forall (passes (VObj o) a []) t ->
  Forall (rewrites (VObj o)) (root_calls t (VObj o) (Some a)).
Proof.
  unfold root_calls. induction 1 as [|[k l] t (d & x & Hl & Ht & Hx & Hd) Hall IH];
    simpl; constructor; auto.
  simpl in *. subst l. exists x. unfold entry_path. simpl.
  destruct (assoc k o) as [c|] eqn:E; [|discriminate].
  injection Hx as ->. split; [|reflexivity].
  now apply adapter_passthrough.
Qed.

Lemma nested_calls_pass ts o a :
  Forall (fun t => thandler t <> []
                   /\ Forall (passes (VObj o) a (path t)) (thandler t)) ts ->
  exists es, nested_calls ts (VObj o) (Some a) = Ok (VObj o, es)
             /\ Forall (rewrites (VObj o)) es.
Proof.
  induction 1 as [|t ts (Hne & Ht) Hts (es & Hes & Hall)]; simpl.
  - exists []. split; [reflexivity | constructor].
  - assert (Hmat : exists oc,
               materialize (VObj o) (path t) = Ok (VObj o)
               /\ get_path (VObj o) (path t) = Ok (VObj oc)
               /\ forall k x, lookup (VObj o) (path t ++ [k]) = Some x ->
                              assoc k oc = Some x).
    { destruct (thandler t) as [|[k0 l0] tb]; [congruence|].
      inversion Ht as [|? ? (d & x & _ & _ & Hx & _) _]; subst.
      destruct (materialize_present _ _ _ Hx) as (Hm & oc & Hg & _).
      exists oc. split; [exact Hm|]. split; [exact Hg|].
      intros k x' Hk.
      destruct (materialize_present _ _ _ Hk) as (_ & oc' & Hg' & Ha').
      congruence. }
    destruct Hmat as (oc & Hm & Hg & Hoc).
    rewrite Hm. simpl. rewrite Hg. simpl. rewrite Hes. simpl.
    eexists. split; [reflexivity|].
    apply Forall_app. split; [|exact Hall].
    clear - Ht Hoc. induction Ht as [|[k l] tb' (d & x & Hl & Hty & Hx & Hd) _ IH];
      simpl; constructor; auto.
    simpl in *. subst l. exists x. unfold entry_path. simpl.
    rewrite (Hoc _ _ Hx). split; [|exact Hx].
    now apply adapter_passthrough.
Qed.

(** If every entry of the tree passes, the reducer returns the tree it
    was given. *)
Lemma reduce_passes tree o a :
  Forall (passes (VObj o) a []) (root tree) ->
  Forall (fun t => thandler t <> []
                   /\ Forall (passes (VObj o) a (path t)) (thandler t))
         (nestedTraversers tree) ->
  reduce tree o (Some a) = Ok (VObj o).
Proof.
  intros HR HN. unfold reduce.
  destruct (nested_calls_pass HN) as (es & Hes & Hall).
  rewrite Hes. simpl. apply writes_rewrites.
  apply Forall_app. split; [now apply root_calls_pass | exact Hall].
Qed.

(** ** Registries without collisions *)

Lemma put_put {A} (k : string) (v v' : A) (o : list (string * A)) :
  put k v' (put k v o) = put k v' o.
Proof.
  induction o as [|[k0 v0] o IH]; simpl.
  - now rewrite String.eqb_refl.
  - destruct (String.eqb k k0) eqn:E; simpl.
    + now rewrite String.eqb_refl.
    + now rewrite E, IH.
Qed.

(** [add_handler] in the nested case: the table under the parent path is
    replaced by the table with the new entry. *)
Lemma add_handler_nested t d :
  (1 <? List.length (split (selector (decl d))))%nat = true ->
  exists gn,
    add_handler t d
    = mkTree (root t)
             (put (join (removelast (split (selector (decl d)))))
                  (install (last (split (selector (decl d))) EmptyString) d gn
                           match assoc (join (removelast (split (selector (decl d)))))
                                       (nested t) with
                           | Some tb => tb
                           | None => []
                           end)
                  (nested t)).
Proof.
  intros Hlen. unfold add_handler. rewrite Hlen.
  destruct (assoc (join (removelast (split (selector (decl d))))) (nested t))
    as [tb|] eqn:E.
  - rewrite E. eauto.
  - rewrite assoc_put_same, put_put. eauto.
Qed.

Lemma add_handler_root t d :
  (1 <? List.length (split (selector (decl d))))%nat = false ->
  add_handler t d
  = mkTree (install (hd EmptyString (split (selector (decl d)))) d
                    (accum_get (selector (decl d))) (root t))
           (nested t).
Proof. intros Hlen. unfold add_handler. now rewrite Hlen. Qed.

(** Two selectors with one slot are one selector. *)
Lemma slot_injective_nested s1 s2 :
  (1 < List.length (split s1))%nat -> (1 < List.length (split s2))%nat ->
  join (removelast (split s1)) = join (removelast (split s2)) ->
  last (split s1) EmptyString = last (split s2) EmptyString ->
  s1 = s2.
Proof.
  intros H1 H2 Hd Hs.
  rewrite <- (join_split s1), <- (join_split s2).
  rewrite <- (traverser_path_of_selector s1 H1).
  rewrite <- (traverser_path_of_selector s2 H2).
  now rewrite Hd, Hs.
Qed.

Lemma slot_injective_root s1 s2 :
  (1 <? List.length (split s1))%nat = false ->
  (1 <? List.length (split s2))%nat = false ->
  hd EmptyString (split s1) = hd EmptyString (split s2) ->
  s1 = s2.
Proof.
  intros H1 H2 Hh.
  rewrite <- (join_split s1), <- (join_split s2).
  rewrite <- (root_path_of_selector s1 H1).
  rewrite <- (root_path_of_selector s2 H2).
  now rewrite Hh.
Qed.

(** A slot that is occupied after [add_handler] is that of the handler or
    was occupied before, by the same entry. *)
Lemma add_handler_slot_inv t d sel l :
  tree_leaf (add_handler t d) sel = Some l ->
  sel = selector (decl d) \/ tree_leaf t sel = Some l.
Proof.
  destruct (1 <? List.length (split (selector (decl d))))%nat eqn:Ed.
  - destruct (add_handler_nested t d Ed) as (gn & ->).
    unfold tree_leaf. simpl.
    destruct (1 <? List.length (split sel))%nat eqn:Es; [|auto].
    set (dest := join (removelast (split (selector (decl d))))).
    destruct (String.eqb (join (removelast (split sel))) dest) eqn:Edest.
    + apply String.eqb_eq in Edest. rewrite Edest, assoc_put_same.
      destruct (String.eqb (last (split sel) EmptyString)
                           (last (split (selector (decl d))) EmptyString))
        eqn:Esuf.
      * apply String.eqb_eq in Esuf. intros _. left.
        apply Nat.ltb_lt in Ed, Es. now apply slot_injective_nested.
      * apply String.eqb_neq in Esuf. rewrite (install_other _ _ _ Esuf).
        destruct (assoc dest (nested t)); [auto | discriminate].
    + apply String.eqb_neq in Edest. rewrite (assoc_put_other _ _ Edest). auto.
  - rewrite (add_handler_root t d Ed). unfold tree_leaf. simpl.
    destruct (1 <? List.length (split sel))%nat eqn:Es; [auto|].
    destruct (String.eqb (hd EmptyString (split sel))
                         (hd EmptyString (split (selector (decl d)))))
      eqn:Esuf.
    + apply String.eqb_eq in Esuf. intros _. left.
      now apply slot_injective_root.
    + apply String.eqb_neq in Esuf. rewrite (install_other _ _ _ Esuf). auto.
Qed.

Lemma install_nonempty suffix d gn t : install suffix d gn t <> [].
Proof.
  unfold install. destruct (assoc suffix t); destruct t as [|[k v] t];
    simpl; try discriminate; destruct (String.eqb suffix k); discriminate.
Qed.

Lemma add_handler_clean hs t d :
  ~ In (selector (decl d)) (selectors hs) ->
  clean hs t -> clean (hs ++ [d]) (add_handler t d).
Proof.
  intros Hnew [Hs [HaR HaN] Ht].
  assert (Hfree : tree_leaf t (selector (decl d)) = None).
  { destruct (tree_leaf t (selector (decl d))) eqn:E; [|reflexivity].
    exfalso. eauto. }
  constructor.
  - intros sel l Hl. unfold selectors. rewrite map_app. apply in_or_app.
    destruct (add_handler_slot_inv _ _ _ Hl) as [-> | Hl'].
    + right. now left.
    + left. eapply Hs; eauto.
  - unfold tree_leaf in Hfree.
    destruct (1 <? List.length (split (selector (decl d))))%nat eqn:Ed.
    + destruct (add_handler_nested t d Ed) as (gn & ->).
      split; simpl; [exact HaR|].
      intros dest tb k l Hin Hk. apply in_put in Hin.
      destruct Hin as [(-> & ->) | Hin]; [|eauto].
      apply in_install in Hk. destruct Hk as [(-> & _ & Hc) | Hk].
      * apply Hc.
        destruct (assoc (join (removelast (split (selector (decl d)))))
                        (nested t)); [exact Hfree | reflexivity].
      * destruct (assoc (join (removelast (split (selector (decl d)))))
                        (nested t)) as [tb|] eqn:E; [|contradiction].
        apply assoc_in in E. eauto.
    + rewrite (add_handler_root t d Ed). split; simpl; [|exact HaN].
      intros k l Hk. apply in_install in Hk.
      destruct Hk as [(-> & _ & Hc) | Hk]; [now apply Hc | eauto].
  - destruct (1 <? List.length (split (selector (decl d))))%nat eqn:Ed.
    + destruct (add_handler_nested t d Ed) as (gn & ->). simpl.
      intros dest tb Hin. apply in_put in Hin.
      destruct Hin as [(-> & ->) | Hin]; [apply install_nonempty | eauto].
    + rewrite (add_handler_root t d Ed). exact Ht.
Qed.

Lemma fold_clean hs : forall done t,
  NoDup (selectors (done ++ hs)) -> clean done t ->
  clean (done ++ hs) (fold_left add_handler hs t).
Proof.
  induction hs as [|d hs IH]; intros done t Hnd Hc; simpl.
  - now rewrite app_nil_r.
  - replace (done ++ d :: hs) with ((done ++ [d]) ++ hs) in *
      by (now rewrite <- app_assoc).
    apply IH; [exact Hnd|]. apply add_handler_clean; [|exact Hc].
    unfold selectors in Hnd. rewrite !map_app in Hnd. simpl in Hnd.
    rewrite <- app_assoc in Hnd. simpl in Hnd.
    apply NoDup_remove_2 in Hnd. intros Hin. apply Hnd.
    apply in_or_app. now left.
Qed.

Lemma build_tree_clean hs : NoDup (selectors hs) -> clean hs (build_tree hs).
Proof.
  intros Hnd. apply (fold_clean hs (done := []) (t := mkTree [] [])).
  - exact Hnd.
  - constructor.
    + unfold tree_leaf. simpl. intros sel l.
      destruct (1 <? List.length (split sel))%nat; discriminate.
    + split; simpl; intros; contradiction.
    + simpl. intros; contradiction.
Qed.

Lemma leaf_adapter l : is_composed l = false -> l = LAdapter (leaf_decl l).
Proof. destruct l; [reflexivity | discriminate]. Qed.

(** With distinct selectors, leaves that are all there and an action
    that no handler reacts to, the reducer returns the tree unchanged. *)
Lemma reducer_passes_unknown_type hs o a :
  NoDup (selectors hs) ->
  (forall d, In d hs -> is_str (atype a) (type d) = false) ->
  (forall d, In d hs ->
     exists x, lookup (VObj o) (split (selector (decl d))) = Some x
               /\ x <> VUndef) ->
  createActionHandler hs (SObj o) (Some a) = Ok (VObj o).
Proof.
  intros Hnd Hty Hleaf.
  destruct (build_tree_entries hs) as (HR & HN).
  destruct (build_tree_clean hs Hnd) as [_ [HaR HaN] Htb].
  unfold createActionHandler, composed. apply reduce_passes.
  - apply Forall_forall. intros [k l] Hin.
    destruct (HR _ _ Hin) as (Hd & Hs).
    destruct (Hleaf _ Hd) as (x & Hx & Hdef).
    exists (leaf_decl l), x. cbn [fst snd].
    split; [apply leaf_adapter; eauto|]. split; [now apply Hty|].
    split; [now rewrite <- Hs | exact Hdef].
  - apply Forall_forall. intros t Ht.
    unfold nestedTraversers in Ht. apply in_map_iff in Ht.
    destruct Ht as ([dest tb] & <- & Hdt). simpl.
    split; [eauto|].
    apply Forall_forall. intros [k l] Hin.
    destruct (HN _ _ _ _ Hdt Hin) as (Hd & Hs).
    destruct (Hleaf _ Hd) as (x & Hx & Hdef).
    exists (leaf_decl l), x. cbn [fst snd].
    split; [apply leaf_adapter; eauto|]. split; [now apply Hty|].
    split; [now rewrite <- Hs | exact Hdef].
Qed.

Lemma resolved_app id l1 l2 :
  resolved id (l1 ++ l2) = resolved id l1 || resolved id l2.
Proof. unfold resolved. apply existsb_app. Qed.

(** When the side effects return, the submission that is served is
    resolved. *)
Lemma serve_resolves fuel s id a :
  consistent s ((id, a) :: _dispatchQueue s) ->
  scan None (log s) = Some None -> effects_return s ->
  resolved id (log (store_of (serve fuel s id a))) = true.
Proof.
  intros Hc Hscan Hret.
  destruct (transition_spec Hc)
    as (s3 & res & sub & extra & T & L3 & B3 & Q3 & S3 & St3 & E3 & T3 & C3 & F3).
  destruct (F3 Hret) as (-> & _).
  destruct (finish_spec id C3) as (C4 & L4 & Q4 & D4 & E4 & T4).
  assert (Hres : resolved id (log (finish s3 id)) = true).
  { rewrite L4, resolved_app. simpl. rewrite Nat.eqb_refl. apply orb_true_r. }
  assert (Hscan4 : scan None (log (finish s3 id)) = Some None).
  { rewrite L4, L3, <- app_assoc. now apply scan_block. }
  destruct fuel as [|fuel]; cbn [serve]; rewrite T;
    destruct (_dispatchQueue (finish s3 id)) as [|[id' a'] q] eqn:Eq;
    cbn [store_of]; try exact Hres.
  assert (C5 : consistent (set_queue (finish s3 id) q)
                          ((id', a') :: _dispatchQueue (set_queue (finish s3 id) q))).
  { apply (consistent_ext (s := finish s3 id)); try reflexivity.
    change (_dispatchQueue (set_queue (finish s3 id) q)) with q.
    rewrite Q4. exact C4. }
  destruct (serve_spec fuel C5 Hscan4) as (extra' & L5 & _).
  rewrite L5, resolved_app.
  change (log (set_queue (finish s3 id) q)) with (log (finish s3 id)).
  now rewrite Hres.
Qed.



(** ** Nested selectors on concrete registries *)

Lemma deep_prefix_free : prefix_free [deep_decl].
Proof. intros d1 d2 [<- | []] [<- | []] _. reflexivity. Qed.



(** ** Runs that end *)

Lemma resolve_call_same s s' c :
  same_engine s s' -> resolve_call s' c = resolve_call s c.
Proof. intros [_ _ Ha]. unfold resolve_call. now rewrite Ha. Qed.

Lemma resolved_calls_same s s' cs :
  same_engine s s' -> resolved_calls s' cs = resolved_calls s cs.
Proof.
  intros H. unfold resolved_calls. induction cs as [|c cs IH]; simpl.
  - reflexivity.
  - now rewrite (resolve_call_same c H), IH.
Qed.

Lemma weight_app w l1 l2 : weight w (l1 ++ l2) = weight w l1 + weight w l2.
Proof. unfold weight. now rewrite map_app, list_sum_app. Qed.

(** What the calls made during a dispatch add to the queue. *)
Lemma calls_queue cs : forall s,
  map snd (_dispatchQueue (fold_left dispatch_busy cs s))
  = map snd (_dispatchQueue s) ++ resolved_calls s cs
  /\ same_engine s (fold_left dispatch_busy cs s)
  /\ _state (fold_left dispatch_busy cs s) = _state s.
Proof.
  induction cs as [|c cs IH]; intros s; simpl.
  - rewrite app_nil_r. split; [reflexivity|]. split; [apply same_engine_refl | reflexivity].
  - destruct (IH (dispatch_busy s c)) as (Hq & He & Hs).
    assert (H1 : map snd (_dispatchQueue (dispatch_busy s c))
                 = map snd (_dispatchQueue s)
                   ++ match resolve_call s c with Ok b => [b] | Throw _ => [] end
                 /\ same_engine s (dispatch_busy s c)
                 /\ _state (dispatch_busy s c) = _state s).
    { unfold dispatch_busy. destruct (resolve_call s c); simpl.
      - rewrite map_app. simpl. split; [reflexivity|]. split; [now constructor | reflexivity].
      - rewrite app_nil_r. split; [reflexivity|]. split; [apply same_engine_refl | reflexivity]. }
    destruct H1 as (Hq1 & He1 & Hs1).
    rewrite Hq, Hq1, (resolved_calls_same cs He1), <- app_assoc.
    split; [reflexivity|]. split; [eapply same_engine_trans; eauto | congruence].
Qed.

Lemma run_effects_queue hs : forall s id a k,
  (forall h g v, In h hs -> thrown (sehandler h g v) = None) ->
  exists s',
    run_effects s id a k hs = (s', None)
    /\ map snd (_dispatchQueue s')
       = map snd (_dispatchQueue s)
         ++ flat_map (fun h => resolved_calls s
                        (calls (sehandler h (mkGetter (_state s)) (atype a)))) hs
    /\ same_engine s s'.
Proof.
  induction hs as [|h hs IH]; intros s id a k Hret; cbn [run_effects].
  - exists s. rewrite app_nil_r. split; [reflexivity|].
    split; [reflexivity | apply same_engine_refl].
  - rewrite (Hret h) by now left.
    set (g := mkGetter (_state s)).
    set (s1 := emit s (Effect id k g (atype a))).
    destruct (calls_queue (calls (sehandler h g (atype a))) s1) as (Hq & He & Hs).
    destruct (IH (fold_left dispatch_busy (calls (sehandler h g (atype a))) s1)
                 id a (S k)) as (s' & R & Hq' & He').
    { intros h' g' v' Hin. apply Hret. now right. }
    assert (E1 : same_engine s s1) by now constructor.
    exists s'. split; [exact R|]. split.
    + rewrite Hq', Hq, Hs. simpl. rewrite <- app_assoc.
      rewrite (resolved_calls_same _ E1). f_equal. f_equal.
      apply flat_map_ext. intros h'.
      apply resolved_calls_same. eapply same_engine_trans; eauto.
    + eapply same_engine_trans; [exact E1|].
      eapply same_engine_trans; eauto.
Qed.

Lemma transition_queue s id a :
  effects_return s ->
  exists s3,
    transition s id a = (s3, None)
    /\ map snd (_dispatchQueue s3)
       = map snd (_dispatchQueue s)
         ++ spawned s a (mkGetter (_actionHandler s (_state s) (Some a)))
    /\ same_engine s s3.
Proof.
  intros Hret. unfold transition.
  set (st := _actionHandler (set_dispatching s true)
                            (_state (set_dispatching s true)) (Some a)).
  set (s2 := emit (set_state (set_dispatching s true) st) (Publish id a st)).
  destruct (run_effects_queue (effects_for s2 a) s2 id a 0) as (s3 & R & Hq & He).
  { apply (effects_for_return (s := s2)). intros tbl ty l h g v. apply Hret. }
  assert (E2 : same_engine s s2) by now constructor.
  exists s3. split; [exact R|]. split.
  - rewrite Hq. reflexivity.
  - eapply same_engine_trans; eauto.
Qed.

Lemma ranked_same s s' w : same_engine s s' -> ranked s w -> ranked s' w.
Proof.
  intros He H a g. specialize (H a g). unfold spawned in *.
  assert (Hf : effects_for s' a = effects_for s a).
  { unfold effects_for. destruct He as [_ -> _]. reflexivity. }
  rewrite Hf.
  erewrite flat_map_ext; [exact H|].
  intros h. now apply resolved_calls_same.
Qed.

(** With ranked actions and side effects that return, the run that serves
    a submission is over once the fuel covers the weight of what is
    pending. *)
Lemma serve_done w fuel : forall s id a,
  ranked s w -> effects_return s ->
  w a + weight w (map snd (_dispatchQueue s)) <= S fuel ->
  exists s', serve fuel s id a = Done s'.
Proof.
  induction fuel as [|fuel IH]; intros s id a Hr Hret Hw;
    destruct (transition_queue id a Hret) as (s3 & T & Hq & He);
    cbn [serve]; rewrite T;
    pose proof (Hr a (mkGetter (_actionHandler s (_state s) (Some a)))) as Hsp;
    assert (Hq4 : map snd (_dispatchQueue (finish s3 id))
                  = map snd (_dispatchQueue s)
                    ++ spawned s a (mkGetter (_actionHandler s (_state s) (Some a))))
      by exact Hq;
    destruct (_dispatchQueue (finish s3 id)) as [|[id' a'] q] eqn:Eq;
    try (eexists; reflexivity).
  - exfalso.
    assert (Hw' : weight w (map snd ((id', a') :: q)) <= 0)
      by (rewrite Hq4, weight_app; lia).
    assert (Ha' : 0 < w a').
    { pose proof (Hr a' (mkGetter SUndef)). lia. }
    unfold weight in Hw'. simpl in Hw'. lia.
  - apply IH.
    + apply (ranked_same (s := s)); [|exact Hr].
      eapply same_engine_trans; [exact He|]. now constructor.
    + apply (effects_return_same (s := s)); [|exact Hret].
      eapply same_engine_trans; [exact He|]. now constructor.
    + assert (Hw' : weight w (map snd ((id', a') :: q)) <= S fuel)
        by (rewrite Hq4, weight_app; lia).
      unfold weight in *. simpl in *. lia.
Qed.

Lemma dispatch_all_done w fuel cs : forall s,
  at_rest s -> ranked s w -> effects_return s ->
  (forall c a, In c cs -> resolve_call s c = Ok a -> w a <= S fuel) ->
  exists s', dispatch_all fuel s cs = Done s'.
Proof.
  induction cs as [|c cs IH]; intros s Hrest Hr Hret Hw; cbn [dispatch_all].
  - eauto.
  - destruct (dispatch_keeps_rest fuel c Hrest Hret) as (_ & _ & E & D).
    assert (Hdone : exists s1, fst (dispatch fuel s c) = Done s1).
    { destruct (resolve_call s c) as [a|e] eqn:Hc.
      - rewrite (dispatch_at_rest fuel c Hrest Hc). cbn [fst].
        apply serve_done with (w := w);
          [exact Hr | intros tbl ty l h g v; apply Hret |].
        change (_dispatchQueue (submit s a)) with (_dispatchQueue s).
        rewrite (rest_queue Hrest). unfold weight. simpl.
        specialize (Hw c a (or_introl eq_refl) Hc). lia.
      - unfold dispatch. rewrite Hc. simpl. eauto. }
    destruct Hdone as (s1 & H1). rewrite H1 in E |- *. cbn [store_of] in E.
    apply IH.
    + now apply D.
    + eapply ranked_same; eauto.
    + eapply effects_return_same; eauto.
    + intros c' a' Hin Hc'. rewrite (resolve_call_same c' E) in Hc'.
      eapply Hw; [right; exact Hin | exact Hc'].
Qed.

(** ** Serialization *)


Lemma example_store_ranked : ranked example_store example_weight.
Proof.
  intros a g. unfold spawned, effects_for, example_weight. simpl.
  destruct (String.eqb (to_key (atype a)) "INC"); cbv; lia.
Qed.


(** * Further properties of the registry *)

Lemma name_taken_false r n :
  name_taken r n = false ->
  assoc n (_actionNames r) = None \/ assoc n (_actionNames r) = Some EmptyString.
Proof.
  unfold name_taken. destruct (assoc n (_actionNames r)) as [t|]; [|auto].
  intros H. apply negb_false_iff, String.eqb_eq in H. subst. auto.
Qed.

Lemma register_ok r n ty h r' :
  registry_ok r -> ty <> EmptyString -> register r n ty h = Ok r' ->
  registry_ok r'
  /\ _actionTypeToHandlers r' = _actionTypeToHandlers r ++ [mkDecl n ty h].
Proof.
  intros [Hn Hne Hnd Hl Ht] Hty Hr. unfold register in Hr.
  destruct (name_taken r n) eqn:Etaken; [discriminate|].
  injection Hr as <-. simpl. split; [|reflexivity].
  assert (Hfree : assoc n (_actionNames r) = None).
  { destruct (name_taken_false _ _ Etaken) as [H | H]; [exact H|].
    exfalso. now apply (Hne _ _ H). }
  constructor; simpl.
  - intros n0. rewrite map_app, in_app_iff. simpl.
    destruct (String.eqb n0 n) eqn:E.
    + apply String.eqb_eq in E. subst n0. rewrite assoc_put_same.
      split; [discriminate | tauto].
    + apply String.eqb_neq in E. rewrite (assoc_put_other _ _ E), Hn.
      split; [intros H [H1 | [H1 | []]]; [tauto | congruence] | tauto].
  - intros n0 t. destruct (String.eqb n0 n) eqn:E.
    + apply String.eqb_eq in E. subst n0. rewrite assoc_put_same.
      now intros [= <-].
    + apply String.eqb_neq in E. rewrite (assoc_put_other _ _ E). apply Hne.
  - rewrite map_app. simpl. apply NoDup_app; [exact Hnd | repeat constructor; auto |].
    intros x Hx [<- | []]. now apply Hn in Hfree.
  - intros d Hd. apply in_app_or in Hd. destruct Hd as [Hd | [<- | []]].
    + assert (Hne' : name d <> n).
      { intros Heq. apply Hn in Hfree. apply Hfree. rewrite <- Heq.
        now apply in_map. }
      rewrite (assoc_put_other _ _ Hne'). now apply Hl.
    + simpl. apply assoc_put_same.
  - intros d Hd. apply in_app_or in Hd. destruct Hd as [Hd | [<- | []]].
    + destruct (String.eqb (type d) ty) eqn:E.
      * apply String.eqb_eq in E. rewrite E. apply assoc_put_same.
      * apply String.eqb_neq in E. rewrite (assoc_put_other _ _ E). now apply Ht.
    + simpl. apply assoc_put_same.
Qed.

Lemma register_all_ok rs : forall r r',
  registry_ok r ->
  Forall (fun reg => snd (fst reg) <> EmptyString) rs ->
  register_all rs r = Ok r' ->
  registry_ok r'
  /\ map registration_of (_actionTypeToHandlers r')
     = map registration_of (_actionTypeToHandlers r) ++ rs.
Proof.
  induction rs as [|[[n ty] h] rs IH]; intros r r' Hok Hall Hr; simpl in Hr.
  - injection Hr as <-. now rewrite app_nil_r.
  - inversion Hall as [|? ? Hty Hall']; subst. simpl in Hty.
    destruct (register r n ty h) as [r1|] eqn:E1; [|discriminate]. simpl in Hr.
    destruct (register_ok n h Hok Hty E1) as (Hok1 & Hd1).
    destruct (IH _ _ Hok1 Hall' Hr) as (Hok' & Hd').
    split; [exact Hok'|].
    rewrite Hd', Hd1, map_app, <- app_assoc. reflexivity.
Qed.

Lemma empty_registry_ok : registry_ok empty_registry.
Proof.
  constructor; simpl; try (intros; contradiction); try discriminate.
  - intros n. split; [auto | reflexivity].
  - constructor.
Qed.



Lemma register_throws r n ty h e :
  register r n ty h = Throw e -> e = DuplicateNameError n.
Proof.
  unfold register. destruct (name_taken r n); [|discriminate].
  now intros [= <-].
Qed.

Lemma register_all_names rs : forall r r',
  registry_ok r ->
  Forall (fun reg => snd (fst reg) <> EmptyString) rs ->
  register_all rs r = Ok r' ->
  NoDup (map (fun reg => fst (fst reg)) rs).
Proof.
  intros r r' Hok Hall Hr.
  destruct (register_all_ok Hok Hall Hr) as ([_ _ Hnd _ _] & Hd).
  assert (Hn : map name (_actionTypeToHandlers r')
               = map name (_actionTypeToHandlers r)
                 ++ map (fun reg => fst (fst reg)) rs).
  { replace (map name (_actionTypeToHandlers r'))
      with (map (fun reg => fst (fst reg))
                (map registration_of (_actionTypeToHandlers r')))
      by (rewrite map_map; reflexivity).
    rewrite Hd, map_app, map_map. reflexivity. }
  rewrite Hn in Hnd. now apply NoDup_app_remove_l in Hnd.
Qed.

Lemma register_all_throws rs : forall r e,
  register_all rs r = Throw e ->
  exists n, In n (map (fun reg => fst (fst reg)) rs)
            /\ e = DuplicateNameError n.
Proof.
  induction rs as [|[[n ty] h] rs IH]; intros r e Hr; simpl in Hr.
  - discriminate.
  - destruct (register r n ty h) as [r1|e1] eqn:E1; simpl in Hr.
    + destruct (IH _ _ Hr) as (n' & Hin & He). exists n'. split; [now right | exact He].
    + injection Hr as <-. exists n. split; [now left|].
      eapply register_throws; eauto.
Qed.

(** X2. A sequence of registrations with non-empty types in which a name
    occurs twice fails, and it fails with the duplicate-name error of one
    of its names. *)
Theorem repeated_name_is_rejected rs :
  Forall (fun reg => snd (fst reg) <> EmptyString) rs ->
  ~ NoDup (map (fun reg => fst (fst reg)) rs) ->
  exists n, In n (map (fun reg => fst (fst reg)) rs)
            /\ register_all rs empty_registry = Throw (DuplicateNameError n).
Proof.
  intros Hall Hdup.
  destruct (register_all rs empty_registry) as [r|e] eqn:Hr.
  - exfalso. apply Hdup.
    eapply register_all_names; eauto using empty_registry_ok.
  - destruct (register_all_throws _ _ Hr) as (n & Hin & ->). eauto.
Qed.

Lemma repeated_name_is_rejected_witness :
  exists n,
    In n ["increment"; "increment"]
    /\ register_all [("increment", "INC", mkSelectHandler "counter" increment);
                     ("increment", "DEC", mkSelectHandler "counter" increment)]
                    empty_registry = Throw (DuplicateNameError n).
Proof.
  apply (@repeated_name_is_rejected
           [("increment", "INC", mkSelectHandler "counter" increment);
            ("increment", "DEC", mkSelectHandler "counter" increment)]).
  - repeat constructor; discriminate.
  - intros H. inversion H as [|? ? Hnotin _]; subst. apply Hnotin. now left.
Defined.

(** X3. A name that was registered with the empty string as its type is
    not seen as taken: a second registration of the name succeeds, the
    two declarations stay side by side, and the name now stands for the
    second type. *)
Theorem empty_type_does_not_take_name r n h ty' h' r1 :
  register r n EmptyString h = Ok r1 ->
  exists r2,
    register r1 n ty' h' = Ok r2
    /\ _actionTypeToHandlers r2
       = _actionTypeToHandlers r ++ [mkDecl n EmptyString h; mkDecl n ty' h']
    /\ assoc n (_actionNames r2) = Some ty'.
Proof.
  unfold register. destruct (name_taken r n); [discriminate|].
  intros [= <-]. unfold name_taken. simpl. rewrite assoc_put_same. simpl.
  eexists. split; [reflexivity|]. simpl. split.
  - now rewrite <- app_assoc.
  - apply assoc_put_same.
Qed.

Lemma empty_type_does_not_take_name_witness :
  exists r2,
    register (mkRegistry [("reset", EmptyString)] [(EmptyString, true)]
                         [mkDecl "reset" EmptyString (mkSelectHandler "counter" zero)]
                         [])
             "reset" "RESET" (mkSelectHandler "counter" zero) = Ok r2
    /\ List.length (_actionTypeToHandlers r2) = 2.
Proof.
  destruct (@empty_type_does_not_take_name
              empty_registry "reset" (mkSelectHandler "counter" zero)
              "RESET" (mkSelectHandler "counter" zero) _ eq_refl)
    as (r2 & H1 & H2 & _).
  exists r2. split; [exact H1|]. rewrite H2. reflexivity.
Defined.

(** X4. The type chosen for a registration without a type is not a
    registered type, and every candidate generated before it was one. *)
Theorem fresh_type_is_unused supply types t :
  fresh_type supply types = Some t ->
  assoc t types = None
  /\ exists used rest,
      supply = used ++ t :: rest
      /\ Forall (fun u => assoc u types <> None) used.
Proof.
  induction supply as [|u supply IH]; simpl; [discriminate|].
  destruct (assoc u types) eqn:E.
  - intros H. destruct (IH H) as (Hn & used & rest & -> & Hall).
    split; [exact Hn|]. exists (u :: used), rest. split; [reflexivity|].
    constructor; [congruence | exact Hall].
  - intros [= <-]. split; [exact E|]. exists [], supply. split; [reflexivity | constructor].
Qed.

Lemma fresh_type_is_unused_witness :
  assoc "k2" [("k1", true); ("INC", true)] = None
  /\ exists used rest,
      ["k1"; "INC"; "k2"; "k3"] = used ++ "k2" :: rest
      /\ Forall (fun u => assoc u [("k1", true); ("INC", true)] <> None) used.
Proof.
  apply (@fresh_type_is_unused ["k1"; "INC"; "k2"; "k3"]
                               [("k1", true); ("INC", true)] "k2").
  reflexivity.
Defined.


(** * Further properties of the composed reducer *)

(** ** What a write and a traversal leave alone *)

Lemma is_prefix_nil_r p : is_prefix p [] = true -> p = [].
Proof. destruct p; [reflexivity | discriminate]. Qed.

Lemma is_prefix_app p : forall q r,
  is_prefix p q = true -> is_prefix p (q ++ r) = true.
Proof.
  induction p as [|x p IH]; intros q r H; [reflexivity|].
  destruct q as [|y q]; [discriminate|]. simpl in *.
  apply andb_true_iff in H. destruct H as (-> & H). simpl. now apply IH.
Qed.

Lemma is_prefix_length p : forall q,
  is_prefix p q = true -> List.length p <= List.length q.
Proof.
  induction p as [|x p IH]; intros q H; simpl; [lia|].
  destruct q as [|y q]; [discriminate|]. simpl in *.
  apply andb_true_iff in H. destruct H as (_ & H). apply IH in H. lia.
Qed.

Lemma set_path_frame p : forall v k x v' q,
  set_path v p k x = Ok v' -> apart (p ++ [k]) q ->
  lookup v' q = lookup v q.
Proof.
  induction p as [|k0 p IH]; intros v k x v' q H [H1 H2]; simpl in H.
  - destruct v as [|n| |s|o]; try discriminate. injection H as <-.
    destruct q as [|k1 q]; [discriminate|]. simpl in *.
    rewrite andb_true_r in H1. rewrite String.eqb_sym in H1.
    apply String.eqb_neq in H1. now rewrite (assoc_put_other _ _ H1).
  - destruct (get v k0) as [c|] eqn:Eg; [|discriminate]. simpl in H.
    destruct (set_path c p k x) as [c'|] eqn:Es; [|discriminate].
    destruct (set_path_object _ _ _ _ Es) as (oc & ->).
    destruct (get_object _ _ Eg) as (o & -> & Ha).
    simpl in H. injection H as <-.
    destruct q as [|k1 q]; [discriminate|]. simpl in *.
    destruct (String.eqb k1 k0) eqn:E.
    + apply String.eqb_eq in E. subst k1. rewrite String.eqb_refl in H1.
      simpl in H1, H2. rewrite assoc_put_same, Ha.
      apply (IH _ _ _ _ _ Es). now split.
    + apply String.eqb_neq in E. now rewrite (assoc_put_other _ _ E).
Qed.

Lemma lookup_undef_below q : q <> [] -> lookup VUndef q = None.
Proof. destruct q; [congruence | reflexivity]. Qed.

Lemma materialize_frame p : forall v v' q,
  materialize v p = Ok v' -> is_prefix q p = false ->
  lookup v' q = lookup v q.
Proof.
  induction p as [|k p IH]; intros v v' q H Hq; simpl in H.
  - now injection H as <-.
  - destruct q as [|k1 q]; [discriminate|].
    destruct v as [|n| |s|o]; simpl in H; try discriminate.
    + (* a string: nothing is written *)
      destruct (is_undef (str_get s k)); simpl in H; [discriminate|].
      destruct (materialize (str_get s k) p); simpl in H; [|discriminate].
      now injection H as <-.
    + (* an object *)
      set (c0 := match assoc k o with Some x => x | None => VUndef end) in *.
      destruct (is_undef c0) eqn:Eu; simpl in H.
      * rewrite assoc_put_same in H. simpl in H.
        destruct (materialize (VObj []) p) as [c'|] eqn:Em; [|discriminate].
        simpl in H. injection H as <-. rewrite put_put. simpl in Hq |- *.
        destruct (String.eqb k1 k) eqn:E.
        { apply String.eqb_eq in E. subst k1. rewrite assoc_put_same.
          simpl in Hq. rewrite (IH _ _ _ Em Hq).
          assert (Hne : q <> []) by (intros ->; discriminate).
          destruct q as [|k2 q]; [congruence|]. simpl.
          subst c0. destruct (assoc k o) as [c|]; [|reflexivity].
          destruct c; simpl in Eu; try discriminate; reflexivity. }
        { simpl in Hq. apply String.eqb_neq in E.
          now rewrite (assoc_put_other _ _ E). }
      * fold c0 in H. destruct (materialize c0 p) as [c'|] eqn:Em;
          [|simpl in H; discriminate].
        simpl in H. injection H as <-. simpl in Hq |- *.
        destruct (String.eqb k1 k) eqn:E.
        { apply String.eqb_eq in E. subst k1. rewrite assoc_put_same.
          simpl in Hq. rewrite (IH _ _ _ Em Hq).
          subst c0. destruct (assoc k o) as [c|]; [reflexivity|].
          simpl in Eu. discriminate. }
        { apply String.eqb_neq in E. now rewrite (assoc_put_other _ _ E). }
Qed.

Lemma writes_frame es : forall st v' q,
  writes es st = Ok v' ->
  (forall e, In e es -> apart (entry_path e) q) ->
  lookup v' q = lookup st q.
Proof.
  induction es as [|e es IH]; intros st v' q H Hap; simpl in H.
  - now injection H as <-.
  - destruct (eout e) as [x|]; [|discriminate]. simpl in H.
    destruct (set_path st (epath e) (ekey e) x) as [st'|] eqn:Es;
      [|discriminate]. simpl in H.
    erewrite IH; [|exact H|intros e' He'; apply Hap; now right].
    eapply set_path_frame; [exact Es|]. apply (Hap e). now left.
Qed.

Lemma nested_calls_frame ts : forall st a r q,
  nested_calls ts st a = Ok r ->
  (forall t, In t ts -> is_prefix q (path t) = false) ->
  lookup (fst r) q = lookup st q.
Proof.
  induction ts as [|t ts IH]; intros st a r q Hr Hq; simpl in Hr.
  - now injection Hr as <-.
  - destruct (materialize st (path t)) as [st1|] eqn:Em; [|discriminate].
    simpl in Hr.
    destruct (get_path st1 (path t)) as [curr|]; [|discriminate]. simpl in Hr.
    destruct (nested_calls ts st1 a) as [r'|] eqn:Er'; [|discriminate].
    simpl in Hr. injection Hr as <-. simpl.
    erewrite IH; [|exact Er'|intros t' Ht'; apply Hq; now right].
    eapply materialize_frame; [exact Em|]. apply Hq. now left.
Qed.

(** What an entry of a traverser reads, when its leaf is in the tree and
    no traverser walks through the leaf. *)
Lemma nested_calls_reads ts : forall st a r q x e,
  nested_calls ts st a = Ok r ->
  lookup st q = Some x ->
  (forall t, In t ts -> is_prefix q (path t) = false) ->
  In e (snd r) -> entry_path e = q ->
  exists t l, In t ts /\ In (ekey e, l) (thandler t) /\ epath e = path t
              /\ eout e = call_leaf l x a.
Proof.
  induction ts as [|t ts IH]; intros st a r q x e Hr Hx Hq He Hp; simpl in Hr.
  - injection Hr as <-. contradiction.
  - destruct (materialize st (path t)) as [st1|] eqn:Em; [|discriminate].
    simpl in Hr.
    destruct (get_path st1 (path t)) as [curr|] eqn:Eg; [|discriminate].
    simpl in Hr.
    destruct (nested_calls ts st1 a) as [r'|] eqn:Er'; [|discriminate].
    simpl in Hr. injection Hr as <-. simpl in He.
    apply in_app_or in He. destruct He as [He | He].
    + apply in_map_iff in He. destruct He as ([k l] & <- & Hin).
      unfold entry_path in Hp. simpl in Hp. subst q.
      destruct (materialize_present _ _ _ Hx) as (Hm & oc & Hg & Ha).
      rewrite Hm in Em. injection Em as <-. rewrite Hg in Eg.
      injection Eg as <-. exists t, l. simpl. rewrite Ha. simpl.
      repeat split; auto.
    + destruct (IH st1 a r' q x e Er') as (t' & l & Ht' & Hl & Hpt & Hout); auto.
      * erewrite materialize_frame; [exact Hx|exact Em|]. apply Hq. now left.
      * intros t' Ht'. apply Hq. now right.
      * exists t', l. repeat split; auto. now right.
Qed.

Lemma list_string_dec (p q : list string) : {p = q} + {p <> q}.
Proof. apply list_eq_dec, string_dec. Qed.

(** If every entry that writes [q] writes [x], and the others write apart
    from [q], then after the writes [q] holds [x]. *)
Lemma writes_value es : forall st v' q x,
  writes es st = Ok v' ->
  (forall e, In e es -> entry_path e = q -> eout e = Ok x) ->
  (forall e, In e es -> entry_path e <> q -> apart (entry_path e) q) ->
  lookup st q = Some x \/ (exists e, In e es /\ entry_path e = q) ->
  lookup v' q = Some x.
Proof.
  induction es as [|e es IH]; intros st v' q x H Hsame Hother Hstart;
    simpl in H.
  - injection H as <-. destruct Hstart as [H | (e & [] & _)]. exact H.
  - destruct (eout e) as [y|] eqn:Ey; [|discriminate]. simpl in H.
    destruct (set_path st (epath e) (ekey e) y) as [st'|] eqn:Es;
      [|discriminate]. simpl in H.
    eapply IH; [exact H| | |].
    + intros e' He'. apply Hsame. now right.
    + intros e' He'. apply Hother. now right.
    + destruct (list_string_dec (entry_path e) q) as [Heq | Hne].
      * left. rewrite <- Heq. unfold entry_path.
        assert (Hy : Ok y = Ok x).
        { rewrite <- Ey. apply Hsame; [now left | exact Heq]. }
        injection Hy as ->. now apply set_path_lookup in Es.
      * assert (Hap : apart (entry_path e) q) by (apply Hother; [now left | exact Hne]).
        destruct Hstart as [Hst | (e' & [<- | He'] & Hp')].
        { left. erewrite set_path_frame; eauto. }
        { congruence. }
        { right. eauto. }
Qed.

(** ** The slots of a registry with distinct selectors *)

Lemma selector_inj hs d1 d2 :
  NoDup (selectors hs) -> In d1 hs -> In d2 hs ->
  selector (decl d1) = selector (decl d2) -> d1 = d2.
Proof.
  unfold selectors. induction hs as [|d hs IH]; intros Hnd H1 H2 Heq;
    [contradiction|].
  simpl in Hnd. inversion Hnd as [|? ? Hnotin Hnd']; subst.
  destruct H1 as [<- | H1], H2 as [<- | H2]; auto.
  - exfalso. apply Hnotin. rewrite Heq.
    now apply (in_map (fun d => selector (decl d))).
  - exfalso. apply Hnotin. rewrite <- Heq.
    now apply (in_map (fun d => selector (decl d))).
Qed.

Lemma split_inj s1 s2 : split s1 = split s2 -> s1 = s2.
Proof.
  intros H. rewrite <- (join_split s1), <- (join_split s2). now rewrite H.
Qed.

(** With distinct selectors, an entry of the tree at the path of the
    selector of [d] is the adapter of [d]. *)
Lemma entry_is_adapter hs d p k l :
  NoDup (selectors hs) -> In d hs ->
  from_decl hs p k l -> is_composed l = false ->
  p ++ [k] = split (selector (decl d)) -> l = LAdapter d.
Proof.
  intros Hnd Hd (Hin & Hs) Hc Hp.
  rewrite (leaf_adapter _ Hc). f_equal.
  apply (selector_inj hs); auto. apply split_inj. congruence.
Qed.

Unset Implicit Arguments.

Lemma fold_tables hs : forall t,
  (forall dest tb, In (dest, tb) (nested t) -> tb <> []) ->
  forall dest tb, In (dest, tb) (nested (fold_left add_handler hs t)) -> tb <> [].
Proof.
  induction hs as [|d hs IH]; intros t Ht; simpl; [exact Ht|].
  apply IH. intros dest tb Hin.
  destruct (1 <? List.length (split (selector (decl d))))%nat eqn:Ed.
  - destruct (add_handler_nested t d Ed) as (gn & Heq). rewrite Heq in Hin.
    simpl in Hin. apply in_put in Hin.
    destruct Hin as [(-> & ->) | Hin]; [apply install_nonempty | eauto].
  - rewrite (add_handler_root t d Ed) in Hin. simpl in Hin. eauto.
Qed.

(** The path of every traverser, followed by one of its keys, is a
    registered selector. *)
Lemma traverser_below_selector hs t :
  In t (nestedTraversers (build_tree hs)) ->
  exists d k, In d hs /\ split (selector (decl d)) = path t ++ [k].
Proof.
  intros Ht. unfold nestedTraversers in Ht. apply in_map_iff in Ht.
  destruct Ht as ([dest tb] & <- & Hdt). simpl.
  assert (Hne : tb <> []).
  { refine (fold_tables hs (mkTree [] []) _ dest tb Hdt).
    simpl. intros; contradiction. }
  destruct tb as [|[k l] tb]; [congruence|].
  destruct (build_tree_entries hs) as (_ & HN).
  destruct (HN dest _ k l Hdt (or_introl eq_refl)) as (Hd & Hs).
  exists (leaf_decl l), k. auto.
Qed.

Lemma is_prefix_app_self p k : is_prefix (p ++ [k]) p = false.
Proof.
  destruct (is_prefix (p ++ [k]) p) eqn:E; [|reflexivity].
  apply is_prefix_length in E. rewrite length_app in E. simpl in E. lia.
Qed.

Lemma leaf_above_no_traverser hs d t :
  prefix_free hs -> In d hs -> In t (nestedTraversers (build_tree hs)) ->
  is_prefix (split (selector (decl d))) (path t) = false.
Proof.
  intros Hpf Hd Ht.
  destruct (traverser_below_selector hs t Ht) as (d' & k & Hd' & Hs).
  destruct (is_prefix (split (selector (decl d))) (path t)) eqn:E; [|reflexivity].
  exfalso.
  assert (Hp : is_prefix (split (selector (decl d))) (split (selector (decl d')))
               = true) by (rewrite Hs; now apply is_prefix_app).
  apply (Hpf d d' Hd Hd') in Hp. rewrite Hp, Hs in E.
  now rewrite is_prefix_app_self in E.
Qed.

Lemma prefix_free_apart hs d d' :
  prefix_free hs -> In d hs -> In d' hs ->
  split (selector (decl d')) <> split (selector (decl d)) ->
  apart (split (selector (decl d'))) (split (selector (decl d))).
Proof.
  intros Hpf Hd Hd' Hne. split.
  - destruct (is_prefix _ _) eqn:E; [|reflexivity].
    exfalso. apply Hne. f_equal. now apply Hpf.
  - destruct (is_prefix _ _) eqn:E; [|reflexivity].
    exfalso. apply Hne. f_equal. symmetry. now apply Hpf.
Qed.

Lemma writes_ok_entries es : forall st v' e,
  writes es st = Ok v' -> In e es -> exists y, eout e = Ok y.
Proof.
  intros st v' e H Hin. destruct (eout e) as [y|err] eqn:E; [eauto|].
  exfalso. destruct (writes_failed (es := es) st) as (e' & He').
  - apply Exists_exists. exists e. split; [exact Hin|]. unfold failed.
    now rewrite E.
  - congruence.
Qed.

(** The entries of the reducer at the selector of a declaration whose leaf
    is in the tree, in a registry with distinct, prefix-free selectors:
    there is one, each of them carries the result of the adapter of the
    declaration on the leaf, and the other entries write apart from it. *)
Lemma reducer_leaf_core hs d o a x r :
  NoDup (selectors hs) -> prefix_free hs -> In d hs ->
  lookup (VObj o) (split (selector (decl d))) = Some x ->
  nested_calls (nestedTraversers (build_tree hs)) (VObj o) a = Ok r ->
  (exists e, In e (root_calls (root (build_tree hs)) (VObj o) a ++ snd r)
             /\ entry_path e = split (selector (decl d)))
  /\ (forall e, In e (root_calls (root (build_tree hs)) (VObj o) a ++ snd r) ->
        entry_path e = split (selector (decl d)) ->
        eout e = snd (actionHandler d x a))
  /\ (forall e, In e (root_calls (root (build_tree hs)) (VObj o) a ++ snd r) ->
        entry_path e <> split (selector (decl d)) ->
        apart (entry_path e) (split (selector (decl d)))).
Proof.
  intros Hnd Hpf Hd Hx Hr.
  destruct (build_tree_entries hs) as (HR & HN).
  destruct (build_tree_clean hs Hnd) as [_ [HaR HaN] _].
  destruct (nested_calls_entries _ _ _ Hr) as (Hfrom & Hto).
  split; [|split].
  - destruct (build_tree_occupied hs d Hd) as (l & Hl).
    unfold tree_leaf in Hl.
    destruct (1 <? List.length (split (selector (decl d))))%nat eqn:Elen.
    + destruct (assoc (join (removelast (split (selector (decl d)))))
                      (nested (build_tree hs))) as [tb|] eqn:Etb;
        [|discriminate].
      apply assoc_in in Etb. apply assoc_in in Hl.
      destruct (Hto (mkTraverser
                       (split (join (removelast (split (selector (decl d)))))) tb)
                    _ _
                    (in_map (fun kv => mkTraverser (split (fst kv)) (snd kv))
                            _ _ Etb) Hl)
        as (e & He & Hp & Hk).
      exists e. split; [apply in_or_app; now right|].
      unfold entry_path. rewrite Hp, Hk. simpl.
      apply traverser_path_of_selector. now apply Nat.ltb_lt.
    + apply assoc_in in Hl.
      exists (mkEntry [] (hd EmptyString (split (selector (decl d))))
                      (v <- get (VObj o) (hd EmptyString (split (selector (decl d)))) ;;
                       call_leaf l v a)).
      split.
      * apply in_or_app. left. unfold root_calls.
        apply in_map_iff. exists (hd EmptyString (split (selector (decl d))), l).
        split; [reflexivity | exact Hl].
      * unfold entry_path. simpl. now apply root_path_of_selector.
  - intros e He Hp. apply in_app_or in He. destruct He as [He | He].
    + unfold root_calls in He. apply in_map_iff in He.
      destruct He as ([k l] & <- & Hin). unfold entry_path in Hp. simpl in Hp.
      simpl. rewrite <- Hp in Hx. simpl in Hx.
      destruct (assoc k o) as [c|]; [|discriminate]. injection Hx as ->.
      simpl.
      rewrite (entry_is_adapter (hs := hs) d (p := []) (k := k) (l := l));
        eauto.
    + assert (Hread : exists t l,
                 In t (nestedTraversers (build_tree hs))
                 /\ In (ekey e, l) (thandler t) /\ epath e = path t
                 /\ eout e = call_leaf l x a).
      { eapply nested_calls_reads; eauto.
        intros t Ht. now apply (leaf_above_no_traverser hs d t). }
      destruct Hread as (t & l & Ht & Hl & Hpt & Hout).
      rewrite Hout.
      unfold nestedTraversers in Ht. apply in_map_iff in Ht.
      destruct Ht as ([dest tb] & <- & Hdt). simpl in *.
      rewrite (entry_is_adapter (hs := hs) d (p := split dest) (k := ekey e) (l := l));
        eauto.
      unfold entry_path in Hp. now rewrite Hpt in Hp.
  - intros e He Hne.
    destruct (reduce_entries hs o a e Hr He) as (d' & Hd' & Hs').
    rewrite <- Hs' in Hne |- *. now apply (prefix_free_apart hs).
Qed.

(** X6. The reducer leaves alone what it was not asked to manage: a path
    of the state tree that is neither a prefix nor an extension of a
    registered selector holds after a fulfilled run what it held before,
    also when it held nothing. *)
Theorem reducer_keeps_unrelated_state hs o a v' q :
  (forall d, In d hs -> apart (split (selector (decl d))) q) ->
  createActionHandler hs (SObj o) a = Ok v' ->
  lookup v' q = lookup (VObj o) q.
Proof.
  intros Hap Hred. unfold createActionHandler, composed, reduce in Hred.
  destruct (nested_calls (nestedTraversers (build_tree hs)) (VObj o) a)
    as [r|] eqn:Hr; [|discriminate]. simpl in Hred.
  erewrite writes_frame; [|exact Hred|].
  - eapply nested_calls_frame; [exact Hr|]. intros t Ht.
    destruct (traverser_below_selector hs t Ht) as (d & k & Hd & Hs).
    destruct (is_prefix q (path t)) eqn:E; [|reflexivity].
    destruct (Hap d Hd) as (_ & H2). rewrite Hs in H2.
    erewrite is_prefix_app in H2; [discriminate|exact E].
  - intros e He. destruct (@reduce_entries hs o a r e Hr He) as (d & Hd & Hs).
    rewrite <- Hs. now apply Hap.
Qed.

Lemma reducer_keeps_unrelated_state_witness :
  lookup (VObj (("user", VStr "ann") :: nested_state ++ [("counter", VNum 6)]))
         ["user"]
  = lookup (VObj (("user", VStr "ann") :: nested_state ++ [("counter", VNum 1)]))
           ["user"].
Proof.
  apply (reducer_keeps_unrelated_state
           [counter_decl; deep_decl]
           (("user", VStr "ann") :: nested_state ++ [("counter", VNum 1)])
           (Some (INC 5))).
  - intros d [<- | [<- | []]]; split; reflexivity.
  - reflexivity.
Defined.







(** X10. The accumulator key and the leaf key that [createActionHandler]
    derives from a selector give the selector back: joining the segments
    of a selector restores it, and for a selector of several segments the
    path that the traverser recomputes from the joined parent key,
    followed by the leaf key, is the list of its segments. *)
Theorem selector_round_trip sel :
  join (split sel) = sel
  /\ ((1 < List.length (split sel))%nat ->
      split (join (removelast (split sel))) ++ [last (split sel) EmptyString]
      = split sel)
  /\ ((List.length (split sel) <= 1)%nat ->
      [hd EmptyString (split sel)] = split sel).
Proof.
  split; [apply join_split|]. split.
  - apply traverser_path_of_selector.
  - intros H. apply root_path_of_selector. now apply Nat.ltb_ge.
Qed.

Lemma selector_round_trip_witness :
  split (join (removelast (split "clock.time.minute")))
        ++ [last (split "clock.time.minute") EmptyString]
  = split "clock.time.minute"
  /\ [hd EmptyString (split "counter")] = split "counter".
Proof.
  split.
  - destruct (selector_round_trip "clock.time.minute") as (_ & H & _).
    apply H. vm_compute. lia.
  - destruct (selector_round_trip "counter") as (_ & _ & H).
    apply H. vm_compute. lia.
Defined.

(** ** Runs of the reducer that fulfil *)

Lemma open_path_object v p : open_path v p -> exists o, v = VObj o.
Proof. destruct v, p; simpl; try contradiction; eauto. Qed.

Lemma object_at_object v q : object_at v q -> exists o, v = VObj o.
Proof.
  intros (c & H). destruct q; simpl in H.
  - injection H as ->. eauto.
  - destruct v; try discriminate. eauto.
Qed.

Lemma lookup_app p : forall v k,
  lookup v (p ++ [k])
  = match lookup v p with
    | Some (VObj c) => assoc k c
    | _ => None
    end.
Proof.
  induction p as [|k0 p IH]; intros v k; simpl.
  - destruct v as [|n| |s|o]; try reflexivity.
    destruct (assoc k o); reflexivity.
  - destruct v as [|n| |s|o]; try reflexivity.
    destruct (assoc k0 o); [apply IH | reflexivity].
Qed.

(** Materializing an open path succeeds and ends on an object. *)
Lemma materialize_open p : forall v,
  open_path v p ->
  exists v' c, materialize v p = Ok v'
               /\ get_path v' p = Ok (VObj c)
               /\ lookup v' p = Some (VObj c).
Proof.
  induction p as [|k p IH]; intros v Hop.
  - destruct (open_path_object _ _ Hop) as (o & ->). exists (VObj o), o.
    simpl. auto.
  - destruct (open_path_object _ _ Hop) as (o & ->). simpl in Hop. simpl.
    destruct (assoc k o) as [c0|] eqn:Ea.
    + destruct (open_path_object _ _ Hop) as (o0 & ->). simpl.
      rewrite Ea. simpl.
      destruct (IH _ Hop) as (c' & c & Hm & Hg & Hl). rewrite Hm. simpl.
      exists (VObj (put k c' o)), c. simpl. rewrite assoc_put_same. auto.
    + simpl. rewrite assoc_put_same. simpl.
      destruct (IH (VObj [])) as (c' & c & Hm & Hg & Hl).
      { destruct p; simpl; exact I. }
      rewrite Hm. simpl.
      exists (VObj (put k c' (put k (VObj []) o))), c.
      simpl. rewrite assoc_put_same. auto.
Qed.

Lemma open_path_empty q : open_path (VObj []) q.
Proof. destruct q; simpl; exact I. Qed.

(** Materializing a path keeps the other paths open. *)
Lemma materialize_keeps_open p : forall v v' q,
  materialize v p = Ok v' -> open_path v q -> open_path v' q.
Proof.
  induction p as [|k p IH]; intros v v' q H Hq; simpl in H.
  - now injection H as <-.
  - destruct (open_path_object _ _ Hq) as (o & ->). simpl in H.
    set (c0 := match assoc k o with Some x => x | None => VUndef end) in *.
    destruct (is_undef c0) eqn:Eu; simpl in H.
    + rewrite assoc_put_same in H. simpl in H.
      destruct (materialize (VObj []) p) as [c'|] eqn:Em; [|discriminate].
      simpl in H. injection H as <-. rewrite put_put.
      destruct q as [|k1 q]; [exact I|]. simpl in Hq |- *.
      destruct (String.eqb k1 k) eqn:E.
      * apply String.eqb_eq in E. subst k1. rewrite assoc_put_same.
        apply (IH _ _ _ Em). apply open_path_empty.
      * apply String.eqb_neq in E. now rewrite (assoc_put_other _ _ E).
    + fold c0 in H. destruct (materialize c0 p) as [c'|] eqn:Em;
        [|simpl in H; discriminate].
      simpl in H. injection H as <-.
      destruct q as [|k1 q]; [exact I|]. simpl in Hq |- *.
      destruct (String.eqb k1 k) eqn:E.
      * apply String.eqb_eq in E. subst k1. rewrite assoc_put_same.
        subst c0. destruct (assoc k o) as [c|]; [|discriminate].
        now apply (IH _ _ _ Em).
      * apply String.eqb_neq in E. now rewrite (assoc_put_other _ _ E).
Qed.

(** Materializing a path keeps the objects of the tree. *)
Lemma materialize_keeps_objects p : forall v v' q,
  materialize v p = Ok v' -> object_at v q -> object_at v' q.
Proof.
  induction p as [|k p IH]; intros v v' q H Hq; simpl in H.
  - now injection H as <-.
  - destruct (object_at_object _ _ Hq) as (o & ->). simpl in H.
    set (c0 := match assoc k o with Some x => x | None => VUndef end) in *.
    destruct (is_undef c0) eqn:Eu; simpl in H.
    + rewrite assoc_put_same in H. simpl in H.
      destruct (materialize (VObj []) p) as [c'|] eqn:Em; [|discriminate].
      simpl in H. injection H as <-. rewrite put_put.
      destruct q as [|k1 q]; [unfold object_at; simpl; eauto|].
      unfold object_at in Hq |- *. simpl in Hq |- *.
      destruct (String.eqb k1 k) eqn:E.
      * apply String.eqb_eq in E. subst k1. exfalso.
        destruct Hq as (c & Hq). subst c0.
        destruct (assoc k o) as [c1|]; [|discriminate].
        destruct c1; try discriminate. destruct q; discriminate.
      * apply String.eqb_neq in E. now rewrite (assoc_put_other _ _ E).
    + fold c0 in H. destruct (materialize c0 p) as [c'|] eqn:Em;
        [|simpl in H; discriminate].
      simpl in H. injection H as <-.
      destruct q as [|k1 q]; [unfold object_at; simpl; eauto|].
      unfold object_at in Hq |- *. simpl in Hq |- *.
      destruct (String.eqb k1 k) eqn:E.
      * apply String.eqb_eq in E. subst k1. rewrite assoc_put_same.
        subst c0. destruct (assoc k o) as [c|]; [|destruct Hq; discriminate].
        now apply (IH _ _ _ Em).
      * apply String.eqb_neq in E. now rewrite (assoc_put_other _ _ E).
Qed.

(** On open paths the traversers run to the end; the objects of the tree
    stay, and every path of a traverser ends on an object. *)
Lemma nested_calls_total ts : forall st a,
  (forall t, In t ts -> open_path st (path t)) ->
  exists r, nested_calls ts st a = Ok r
            /\ (forall q, object_at st q -> object_at (fst r) q)
            /\ (forall t, In t ts -> object_at (fst r) (path t)).
Proof.
  induction ts as [|t ts IH]; intros st a Hop; simpl.
  - exists (st, []). simpl. split; [reflexivity|]. split; [auto|].
    intros t [].
  - destruct (materialize_open (path t) st) as (st1 & c & Hm & Hg & Hl);
      [apply Hop; now left|].
    rewrite Hm. simpl. rewrite Hg. simpl.
    destruct (IH st1 a) as (r & Hr & Hkeep & Hobj).
    { intros t' Ht'. apply (materialize_keeps_open _ _ _ _ Hm).
      apply Hop. now right. }
    rewrite Hr. simpl. eexists. split; [reflexivity|]. simpl. split.
    + intros q Hq. apply Hkeep. now apply (materialize_keeps_objects _ _ _ _ Hm).
    + intros t' [<- | Ht'].
      * apply Hkeep. exists c. exact Hl.
      * now apply Hobj.
Qed.

(** What an entry of a traverser reads on open paths, when no traverser
    walks through its leaf. *)
Lemma nested_calls_reads_open ts : forall st a r q e,
  nested_calls ts st a = Ok r ->
  (forall t, In t ts -> open_path st (path t)) ->
  (forall t, In t ts -> is_prefix q (path t) = false) ->
  In e (snd r) -> entry_path e = q ->
  exists t l, In t ts /\ In (ekey e, l) (thandler t) /\ epath e = path t
              /\ eout e = call_leaf l (read st q) a.
Proof.
  induction ts as [|t ts IH]; intros st a r q e Hr Hop Hq He Hp; simpl in Hr.
  - injection Hr as <-. contradiction.
  - destruct (materialize_open (path t) st) as (st1 & c & Hm & Hg & Hl);
      [apply Hop; now left|].
    rewrite Hm in Hr. simpl in Hr. rewrite Hg in Hr. simpl in Hr.
    destruct (nested_calls ts st1 a) as [r'|] eqn:Er'; [|discriminate].
    simpl in Hr. injection Hr as <-. simpl in He.
    assert (Hsame : read st1 q = read st q).
    { unfold read. erewrite materialize_frame; [reflexivity|exact Hm|].
      apply Hq. now left. }
    apply in_app_or in He. destruct He as [He | He].
    + apply in_map_iff in He. destruct He as ([k l] & <- & Hin).
      unfold entry_path in Hp. simpl in Hp. subst q.
      exists t, l. simpl. repeat split; auto.
      rewrite <- Hsame. unfold read. rewrite lookup_app, Hl. reflexivity.
    + destruct (IH st1 a r' q e Er') as (t' & l & Ht' & Hl' & Hpt & Hout); auto.
      * intros t' Ht'. apply (materialize_keeps_open _ _ _ _ Hm).
        apply Hop. now right.
      * intros t' Ht'. apply Hq. now right.
      * exists t', l. rewrite <- Hsame. repeat split; auto. now right.
Qed.

Lemma set_path_total p : forall v k x,
  object_at v p -> exists v', set_path v p k x = Ok v'.
Proof.
  induction p as [|k0 p IH]; intros v k x (c & H); simpl in H.
  - injection H as ->. simpl. eauto.
  - destruct v as [|n| |s|o]; try discriminate. simpl.
    destruct (assoc k0 o) as [c0|]; [|discriminate].
    destruct (IH c0 k x) as (c' & Hc'); [now exists c|].
    rewrite Hc'. simpl. eauto.
Qed.

(** A write keeps the objects that it does not replace. *)
Lemma set_path_keeps_objects p : forall v k x v' q,
  set_path v p k x = Ok v' -> object_at v q ->
  is_prefix (p ++ [k]) q = false -> object_at v' q.
Proof.
  induction p as [|k0 p IH]; intros v k x v' q H Hq Hpre; simpl in H.
  - destruct v as [|n| |s|o]; try discriminate. injection H as <-.
    destruct q as [|k1 q]; [unfold object_at; simpl; eauto|].
    unfold object_at in Hq |- *. simpl in Hq, Hpre |- *.
    rewrite andb_true_r in Hpre. rewrite String.eqb_sym in Hpre.
    apply String.eqb_neq in Hpre. now rewrite (assoc_put_other _ _ Hpre).
  - destruct (object_at_object _ _ Hq) as (o & ->). simpl in H.
    set (c0 := match assoc k0 o with Some x => x | None => VUndef end) in *.
    destruct (set_path c0 p k x) as [c'|] eqn:Es; [|discriminate].
    simpl in H. injection H as <-.
    destruct q as [|k1 q]; [unfold object_at; simpl; eauto|].
    unfold object_at in Hq |- *. simpl in Hq, Hpre |- *.
    destruct (String.eqb k1 k0) eqn:E.
    + apply String.eqb_eq in E. subst k1. rewrite String.eqb_refl in Hpre.
      simpl in Hpre. rewrite assoc_put_same. subst c0.
      destruct (assoc k0 o) as [c1|]; [|destruct Hq; discriminate].
      now apply (IH _ _ _ _ _ Es).
    + apply String.eqb_neq in E. now rewrite (assoc_put_other _ _ E).
Qed.

(** Entries that fulfil, whose containers are objects that no entry
    replaces, are all written. *)
Lemma writes_total es : forall st,
  (forall e, In e es -> is_ok (eout e) = true) ->
  (forall e, In e es -> object_at st (epath e)) ->
  (forall e e', In e es -> In e' es ->
                is_prefix (entry_path e) (epath e') = false) ->
  exists v', writes es st = Ok v'.
Proof.
  induction es as [|e es IH]; intros st Hok Hobj Hpre; simpl; [eauto|].
  destruct (eout e) as [x|] eqn:Ex;
    [|specialize (Hok e (or_introl eq_refl)); rewrite Ex in Hok; discriminate].
  simpl.
  destruct (set_path_total (epath e) st (ekey e) x) as (st' & Hs);
    [apply Hobj; now left|].
  rewrite Hs. simpl. apply IH.
  - intros e' He'. apply Hok. now right.
  - intros e' He'. apply (set_path_keeps_objects _ _ _ _ _ _ Hs).
    + apply Hobj. now right.
    + apply (Hpre e e'); [now left | now right].
  - intros e1 e2 H1 H2. apply Hpre; now right.
Qed.

(** The entries of the reducer at the selector of a declaration, on open
    paths: as [reducer_leaf_core], with the value that the chain of reads
    gives in place of the leaf. *)
Lemma reducer_core_open hs d o a r :
  NoDup (selectors hs) -> prefix_free hs -> In d hs ->
  (forall t, In t (nestedTraversers (build_tree hs)) ->
             open_path (VObj o) (path t)) ->
  nested_calls (nestedTraversers (build_tree hs)) (VObj o) a = Ok r ->
  (exists e, In e (root_calls (root (build_tree hs)) (VObj o) a ++ snd r)
             /\ entry_path e = split (selector (decl d)))
  /\ (forall e, In e (root_calls (root (build_tree hs)) (VObj o) a ++ snd r) ->
        entry_path e = split (selector (decl d)) ->
        eout e = snd (actionHandler d (read (VObj o) (split (selector (decl d)))) a))
  /\ (forall e, In e (root_calls (root (build_tree hs)) (VObj o) a ++ snd r) ->
        entry_path e <> split (selector (decl d)) ->
        apart (entry_path e) (split (selector (decl d)))).
Proof.
  intros Hnd Hpf Hd Hop Hr.
  destruct (build_tree_entries hs) as (HR & HN).
  destruct (build_tree_clean hs Hnd) as [_ [HaR HaN] _].
  destruct (nested_calls_entries _ _ _ Hr) as (Hfrom & Hto).
  split; [|split].
  - destruct (build_tree_occupied hs d Hd) as (l & Hl).
    unfold tree_leaf in Hl.
    destruct (1 <? List.length (split (selector (decl d))))%nat eqn:Elen.
    + destruct (assoc (join (removelast (split (selector (decl d)))))
                      (nested (build_tree hs))) as [tb|] eqn:Etb;
        [|discriminate].
      apply assoc_in in Etb. apply assoc_in in Hl.
      destruct (Hto (mkTraverser
                       (split (join (removelast (split (selector (decl d)))))) tb)
                    _ _
                    (in_map (fun kv => mkTraverser (split (fst kv)) (snd kv))
                            _ _ Etb) Hl)
        as (e & He & Hp & Hk).
      exists e. split; [apply in_or_app; now right|].
      unfold entry_path. rewrite Hp, Hk. simpl.
      apply traverser_path_of_selector. now apply Nat.ltb_lt.
    + apply assoc_in in Hl.
      exists (mkEntry [] (hd EmptyString (split (selector (decl d))))
                      (v <- get (VObj o) (hd EmptyString (split (selector (decl d)))) ;;
                       call_leaf l v a)).
      split.
      * apply in_or_app. left. unfold root_calls.
        apply in_map_iff. exists (hd EmptyString (split (selector (decl d))), l).
        split; [reflexivity | exact Hl].
      * unfold entry_path. simpl. now apply root_path_of_selector.
  - intros e He Hp. apply in_app_or in He. destruct He as [He | He].
    + unfold root_calls in He. apply in_map_iff in He.
      destruct He as ([k l] & <- & Hin). unfold entry_path in Hp. simpl in Hp.
      simpl. rewrite <- Hp. unfold read. simpl.
      rewrite (entry_is_adapter (hs := hs) d (p := []) (k := k) (l := l));
        eauto.
      simpl. destruct (assoc k o); reflexivity.
    + assert (Hread : exists t l,
                 In t (nestedTraversers (build_tree hs))
                 /\ In (ekey e, l) (thandler t) /\ epath e = path t
                 /\ eout e = call_leaf l (read (VObj o) (split (selector (decl d)))) a).
      { eapply nested_calls_reads_open; eauto.
        intros t Ht. now apply (leaf_above_no_traverser hs d t). }
      destruct Hread as (t & l & Ht & Hl & Hpt & Hout).
      rewrite Hout.
      unfold nestedTraversers in Ht. apply in_map_iff in Ht.
      destruct Ht as ([dest tb] & <- & Hdt). simpl in *.
      rewrite (entry_is_adapter (hs := hs) d (p := split dest) (k := ekey e) (l := l));
        eauto.
      unfold entry_path in Hp. now rewrite Hpt in Hp.
  - intros e He Hne.
    destruct (@reduce_entries hs o a r e Hr He) as (d' & Hd' & Hs').
    rewrite <- Hs' in Hne |- *. now apply (prefix_free_apart hs).
Qed.

Lemma is_prefix_snoc_nil p k : is_prefix (p ++ [k]) [] = false.
Proof. destruct p; reflexivity. Qed.

(** On a state in which the containers of the selectors are objects or
    missing, with adapters that return, the reducer runs to the end, and
    every leaf then holds the result of its adapter. *)
Lemma reduce_total hs o a :
  NoDup (selectors hs) -> prefix_free hs ->
  (forall d, In d hs ->
     open_path (VObj o) (removelast (split (selector (decl d))))) ->
  (forall d, In d hs ->
     is_ok (snd (actionHandler d (read (VObj o) (split (selector (decl d)))) a))
     = true) ->
  exists v', reduce (build_tree hs) o a = Ok v'
    /\ forall d, In d hs ->
         exists x',
           snd (actionHandler d (read (VObj o) (split (selector (decl d)))) a)
           = Ok x'
           /\ lookup v' (split (selector (decl d))) = Some x'.
Proof.
  intros Hnd Hpf Hopen Hok.
  assert (Hop : forall t, In t (nestedTraversers (build_tree hs)) ->
                          open_path (VObj o) (path t)).
  { intros t Ht. destruct (traverser_below_selector hs t Ht) as (d & k & Hd & Hs).
    specialize (Hopen d Hd). rewrite Hs, removelast_last in Hopen. exact Hopen. }
  destruct (nested_calls_total (nestedTraversers (build_tree hs)) (VObj o) a Hop)
    as (r & Hr & Hkeep & Hobj).
  unfold reduce. rewrite Hr. simpl.
  destruct (nested_calls_entries _ _ _ Hr) as (Hfrom & _).
  set (es := root_calls (root (build_tree hs)) (VObj o) a ++ snd r) in *.
  assert (Hout : forall e, In e es -> is_ok (eout e) = true).
  { intros e He. destruct (@reduce_entries hs o a r e Hr He) as (d & Hd & Hs).
    destruct (reducer_core_open hs d o a r Hnd Hpf Hd Hop Hr) as (_ & Hsame & _).
    rewrite (Hsame e He (eq_sym Hs)). now apply Hok. }
  assert (Hcont : forall e, In e es -> epath e = []
                   \/ exists t, In t (nestedTraversers (build_tree hs))
                                /\ epath e = path t).
  { intros e He. apply in_app_or in He. destruct He as [He | He].
    - apply root_calls_entries in He. destruct He as (k & l & _ & Hp & _).
      now left.
    - destruct (Hfrom e He) as (t & k & l & Ht & _ & Hp & _). right. eauto. }
  destruct (writes_total es (fst r)) as (v' & Hv').
  - exact Hout.
  - intros e He. destruct (Hcont e He) as [-> | (t & Ht & ->)].
    + apply Hkeep. exists o. reflexivity.
    + now apply Hobj.
  - intros e e' He He'.
    destruct (@reduce_entries hs o a r e Hr He) as (d & Hd & Hs). rewrite <- Hs.
    destruct (Hcont e' He') as [-> | (t & Ht & ->)].
    + rewrite Hs. apply is_prefix_snoc_nil.
    + now apply (leaf_above_no_traverser hs d t).
  - exists v'. split; [exact Hv'|]. intros d Hd.
    destruct (reducer_core_open hs d o a r Hnd Hpf Hd Hop Hr)
      as ((e & He & Hp) & Hsame & Hother).
    specialize (Hout e He). rewrite (Hsame e He Hp) in Hout.
    destruct (snd (actionHandler d (read (VObj o) (split (selector (decl d)))) a))
      as [x'|] eqn:Ex; [|discriminate].
    exists x'. split; [reflexivity|].
    eapply writes_value; [exact Hv'| | |].
    + intros e' He' Hp'. now rewrite (Hsame e' He' Hp').
    + exact Hother.
    + right. eauto.
Qed.





(** * Further properties of the store *)

(** ** Handlers combined by hand *)

Lemma read_key o k :
  read (VObj o) [k] = match assoc k o with Some x => x | None => VUndef end.
Proof. unfold read. simpl. destruct (assoc k o); reflexivity. Qed.

Lemma combine_each_spec hs : forall o a,
  NoDup (keys hs) ->
  (forall k h, In (k, h) hs -> is_ok (h (read (VObj o) [k]) a) = true) ->
  exists o', combine_each hs (VObj o) a = Ok (VObj o')
    /\ (forall k h, In (k, h) hs ->
          exists x, h (read (VObj o) [k]) a = Ok x /\ assoc k o' = Some x)
    /\ (forall k, ~ In k (keys hs) -> assoc k o' = assoc k o).
Proof.
  induction hs as [|[k h] hs IH]; intros o a Hnd Hok; simpl.
  - exists o. split; [reflexivity|]. split; [intros ? ? []|reflexivity].
  - simpl in Hnd. inversion Hnd as [|? ? Hnotin Hnd']; subst.
    pose proof (Hok k h (or_introl eq_refl)) as Hk. rewrite read_key in Hk.
    destruct (h (match assoc k o with Some x => x | None => VUndef end) a)
      as [x|] eqn:Ex; [|discriminate]. simpl.
    assert (Hsame : forall k', In k' (keys hs) ->
                               read (VObj (put k x o)) [k'] = read (VObj o) [k']).
    { intros k' Hin. rewrite !read_key, assoc_put_other; [reflexivity|].
      intros ->. contradiction. }
    destruct (IH (put k x o) a Hnd') as (o' & Hrun & Hset & Hkeep).
    { intros k' h' Hin. rewrite Hsame; [apply Hok; now right|].
      apply (in_map fst) in Hin. exact Hin. }
    exists o'. split; [exact Hrun|]. split.
    + intros k' h' [[= <- <-] | Hin].
      * exists x. rewrite read_key. split; [exact Ex|].
        rewrite (Hkeep k Hnotin). apply assoc_put_same.
      * destruct (Hset k' h' Hin) as (x' & Hx' & Ha).
        rewrite Hsame in Hx' by (apply (in_map fst) in Hin; exact Hin). eauto.
    + intros k' Hk'. simpl in Hk'.
      rewrite Hkeep by tauto. apply assoc_put_other. intros ->. tauto.
Qed.



Lemma combine_each_throws hs : forall o a k h e,
  NoDup (keys hs) -> In (k, h) hs ->
  h (read (VObj o) [k]) a = Throw e ->
  exists e', combine_each hs (VObj o) a = Throw e'.
Proof.
  induction hs as [|[k0 h0] hs IH]; intros o a k h e Hnd Hin Hthrow;
    [contradiction|].
  simpl in Hnd. inversion Hnd as [|? ? Hnotin Hnd']; subst. simpl.
  destruct Hin as [[= <- <-] | Hin].
  - rewrite read_key in Hthrow. rewrite Hthrow. simpl. eauto.
  - destruct (h0 (match assoc k0 o with Some x => x | None => VUndef end) a)
      as [x|] eqn:Ex; simpl; [|eauto].
    apply (IH (put k0 x o) a k h e Hnd' Hin).
    rewrite <- Hthrow, !read_key, assoc_put_other; [reflexivity|].
    intros ->. apply Hnotin. apply (in_map fst) in Hin. exact Hin.
Qed.



(** ** What [createStore] needs *)

Lemma make_actions_strings names : forall acc,
  Forall (fun nt => (String.length (snd nt) <= 1)%nat) names ->
  exists acts,
    make_actions (map (fun nt => (fst nt, TString (snd nt))) names) acc = Ok acts
    /\ (forall n, assoc n acts = None
                  <-> assoc n names = None /\ assoc n acc = None)
    /\ (forall n c, assoc n acts = Some c ->
                    (exists t, c = Single t) \/ assoc n acc = Some c).
Proof.
  induction names as [|[n0 t0] names IH]; intros acc Hshort; simpl.
  - exists acc. split; [reflexivity|]. split; [tauto | auto].
  - inversion Hshort as [|? ? H0 Hshort']; subst. simpl in H0.
    apply Nat.ltb_ge in H0. rewrite H0.
    destruct (IH (put n0 (Single (entry_first (TString t0))) acc) Hshort')
      as (acts & Hm & Hdom & Hsingle).
    exists acts. split; [exact Hm|]. split.
    + intros n. rewrite Hdom. simpl. destruct (String.eqb n n0) eqn:E.
      * apply String.eqb_eq in E. subst n0. rewrite assoc_put_same.
        split; [intros (_ & H) | intros (H & _)]; discriminate.
      * apply String.eqb_neq in E. rewrite (assoc_put_other _ _ E). tauto.
    + intros n c Hc. destruct (Hsingle n c Hc) as [H | H]; [now left|].
      destruct (String.eqb n n0) eqn:E.
      * apply String.eqb_eq in E. subst n0. rewrite assoc_put_same in H.
        injection H as <-. left. eauto.
      * apply String.eqb_neq in E. rewrite (assoc_put_other _ _ E) in H.
        now right.
Qed.

Lemma make_actions_string_throws names : forall acc,
  Exists (fun nt => (1 < String.length (snd nt))%nat) names ->
  make_actions (map (fun nt => (fst nt, TString (snd nt))) names) acc
  = Throw (TypeError "actionTypes.reduce is not a function").
Proof.
  induction names as [|[n t] names IH]; intros acc H.
  - inversion H.
  - simpl. destruct (1 <? String.length t)%nat eqn:E; [reflexivity|].
    apply IH. inversion H as [? ? H0|]; subst; [|assumption].
    simpl in H0. apply Nat.ltb_lt in H0. congruence.
Qed.



(** ** Dispatching by name *)

Lemma make_actions_single names : forall acc acts n l,
  make_actions names acc = Ok acts -> NoDup (keys names) ->
  assoc n names = Some (TArray l) -> (List.length l <= 1)%nat ->
  assoc n acts = Some (Single (entry_first (TArray l))).
Proof.
  induction names as [|[n0 e] names IH]; simpl; intros acc acts n l Hm Hnd Hn Hl.
  - discriminate.
  - inversion Hnd as [|? ? Hnotin Hnd']; subst.
    destruct (String.eqb n n0) eqn:E.
    + apply String.eqb_eq in E. subst n0. injection Hn as ->. simpl in Hm.
      apply Nat.ltb_ge in Hl. rewrite Hl in Hm.
      rewrite (make_actions_absent _ _ n Hm).
      * apply assoc_put_same.
      * now apply assoc_none_not_in.
    + destruct (1 <? entry_length e)%nat.
      * destruct e; [discriminate|]. eapply IH; eauto.
      * eapply IH; eauto.
Qed.

Lemma valid_type_true valid k : In k valid -> valid_type valid k = true.
Proof.
  intros H. unfold valid_type. apply existsb_exists. exists k.
  split; [exact H | apply String.eqb_refl].
Qed.

(** What the lookup of a name gives in a store built from a table of
    names with arrays of types. *)
Lemma resolve_call_named ah names se s0 s n l x y :
  new_Store ah (Some names) se = Ok s0 -> NoDup (keys names) ->
  _actions s = _actions s0 -> assoc n names = Some (TArray l) ->
  resolve_call s (mkCall (ByName n) x y)
  = if (1 <? List.length l)%nat
    then if valid_type l (to_key x) then Ok (mkAction x y)
         else Throw (InvalidActionTypeError n (to_key x))
    else Ok (mkAction (entry_first (TArray l)) x).
Proof.
  intros Hnew Hnd Hacts Hn. unfold new_Store in Hnew.
  destruct (make_actions names []) as [acts|] eqn:Hm; [|discriminate].
  simpl in Hnew. injection Hnew as <-. simpl in Hacts.
  unfold resolve_call. simpl. rewrite Hacts.
  destruct (1 <? List.length l)%nat eqn:E.
  - apply Nat.ltb_lt in E.
    now rewrite (make_actions_multi _ _ n Hm Hnd Hn E).
  - apply Nat.ltb_ge in E.
    now rewrite (make_actions_single names [] acts n l Hm Hnd Hn E).
Qed.

Lemma dispatch_by_resolution fuel s c c' :
  resolve_call s c = resolve_call s c' ->
  dispatch fuel s c = dispatch fuel s c'.
Proof. intros H. unfold dispatch. now rewrite H. Qed.

(** X16. In a store built from a table of names, dispatching a name that
    has one type [t] with the argument [x] is dispatching the action
    [{type: t, payload: x}]; dispatching a name that has several types
    with one of them as [x] and with [y] is dispatching the action
    [{type: x, payload: y}]; and a name with an empty array of types
    dispatches the type [undefined]. *)
Theorem named_dispatch_is_object_dispatch ah names se s0 :
  new_Store ah (Some names) se = Ok s0 -> NoDup (keys names) ->
  forall s fuel n l x y,
    _actions s = _actions s0 -> assoc n names = Some (TArray l) ->
    (forall t, l = [t] ->
       dispatch fuel s (mkCall (ByName n) x y)
       = dispatch fuel s (mkCall (ByAction (mkAction (VStr t) x)) VUndef VUndef))
    /\ ((1 < List.length l)%nat -> In (to_key x) l ->
        dispatch fuel s (mkCall (ByName n) x y)
        = dispatch fuel s (mkCall (ByAction (mkAction x y)) VUndef VUndef))
    /\ (l = [] ->
        dispatch fuel s (mkCall (ByName n) x y)
        = dispatch fuel s (mkCall (ByAction (mkAction VUndef x)) VUndef VUndef)).
Proof.
  intros Hnew Hnd s fuel n l x y Hacts Hn.
  pose proof (resolve_call_named ah names se s0 s n l x y Hnew Hnd Hacts Hn) as Hr.
  split; [|split].
  - intros t ->. apply dispatch_by_resolution. rewrite Hr. reflexivity.
  - intros Hl Hx. apply dispatch_by_resolution. rewrite Hr.
    apply Nat.ltb_lt in Hl. now rewrite Hl, (valid_type_true _ _ Hx).
  - intros ->. apply dispatch_by_resolution. rewrite Hr. reflexivity.
Qed.

Lemma named_dispatch_is_object_dispatch_witness :
  exists s0,
    new_Store (fun st _ => st)
              (Some [("increment", TArray ["INC"]); ("set", TArray ["ON"; "OFF"])])
              None = Ok s0
    /\ dispatch 1 s0 (mkCall (ByName "increment") (VNum 5) VUndef)
       = dispatch 1 s0 (mkCall (ByAction (INC 5)) VUndef VUndef)
    /\ dispatch 1 s0 (mkCall (ByName "set") (VStr "ON") (VNum 7))
       = dispatch 1 s0 (mkCall (ByAction (mkAction (VStr "ON") (VNum 7)))
                               VUndef VUndef).
Proof.
  eexists. split; [reflexivity|].
  assert (Hnd : NoDup (keys [("increment", TArray ["INC"]);
                             ("set", TArray ["ON"; "OFF"])]))
    by (repeat constructor; simpl; intuition discriminate).
  split.
  - apply (named_dispatch_is_object_dispatch
             (fun st _ => st)
             [("increment", TArray ["INC"]); ("set", TArray ["ON"; "OFF"])]
             None _ eq_refl Hnd _ 1 "increment" ["INC"] (VNum 5) VUndef
             eq_refl eq_refl).
    reflexivity.
  - apply (named_dispatch_is_object_dispatch
             (fun st _ => st)
             [("increment", TArray ["INC"]); ("set", TArray ["ON"; "OFF"])]
             None _ eq_refl Hnd _ 1 "set" ["ON"; "OFF"] (VStr "ON") (VNum 7)
             eq_refl eq_refl).
    + simpl. lia.
    + simpl. now left.
Defined.



(** ** What submissions and side effects leave alone *)

Lemma quiet_refl s : quiet s s.
Proof. constructor; auto using same_engine_refl. Qed.

Lemma quiet_trans s1 s2 s3 : quiet s1 s2 -> quiet s2 s3 -> quiet s1 s3.
Proof.
  intros [E1 S1 D1 A1 R1] [E2 S2 D2 A2 R2]. constructor.
  - eapply same_engine_trans; eauto.
  - congruence.
  - congruence.
  - congruence.
  - intros id. now rewrite R2, R1.
Qed.

Lemma submit_quiet s a : quiet s (submit s a).
Proof.
  constructor; simpl; auto using same_engine_refl.
  - constructor; reflexivity.
  - now rewrite applied_app, app_nil_r.
  - intros id. now rewrite resolved_app, orb_false_r.
Qed.

Lemma enqueue_quiet s a : quiet s (enqueue s a).
Proof.
  constructor; simpl; auto using same_engine_refl.
  - constructor; reflexivity.
  - now rewrite applied_app, app_nil_r.
  - intros id. now rewrite resolved_app, orb_false_r.
Qed.

Lemma dispatch_busy_quiet s c : quiet s (dispatch_busy s c).
Proof.
  unfold dispatch_busy. destruct (resolve_call s c);
    [apply enqueue_quiet | apply quiet_refl].
Qed.

Lemma calls_quiet cs : forall s, quiet s (fold_left dispatch_busy cs s).
Proof.
  induction cs as [|c cs IH]; intros s; simpl; [apply quiet_refl|].
  eapply quiet_trans; [apply dispatch_busy_quiet | apply IH].
Qed.

Lemma emit_effect_quiet s id k g ty : quiet s (emit s (Effect id k g ty)).
Proof.
  constructor; simpl; auto.
  - constructor; reflexivity.
  - now rewrite applied_app, app_nil_r.
  - intros id0. now rewrite resolved_app, orb_false_r.
Qed.

Lemma run_effects_quiet hs : forall s id a k,
  quiet s (fst (run_effects s id a k hs)).
Proof.
  induction hs as [|h hs IH]; intros s id a k; cbn [run_effects];
    [apply quiet_refl|].
  set (s2 := fold_left dispatch_busy _ _).
  assert (Q2 : quiet s s2).
  { eapply quiet_trans; [apply emit_effect_quiet | apply calls_quiet]. }
  destruct (thrown _); [exact Q2|].
  eapply quiet_trans; [exact Q2 | apply IH].
Qed.

(** ** A store whose flag is stuck *)



(** ** A side effect that throws *)

Lemma run_effects_throws hs : forall s id a k,
  Exists (fun h => thrown (sehandler h (mkGetter (_state s)) (atype a)) <> None)
         hs ->
  exists e, snd (run_effects s id a k hs) = Some e.
Proof.
  induction hs as [|h hs IH]; intros s id a k H; [inversion H|].
  cbn [run_effects].
  set (s2 := fold_left dispatch_busy _ _).
  assert (Q2 : quiet s s2).
  { eapply quiet_trans; [apply emit_effect_quiet | apply calls_quiet]. }
  destruct (thrown (sehandler h (mkGetter (_state s)) (atype a))) as [e|] eqn:Et.
  - simpl. eauto.
  - apply IH. rewrite (quiet_state Q2).
    inversion H as [? ? H0|]; subst; [congruence | assumption].
Qed.

(** In a disciplined log, a resolved ticket is that of the transition in
    flight at the start or of a transition applied in the log. *)
Lemma scan_resolved id l : forall cur cur',
  scan cur l = Some cur' -> resolved id l = true ->
  cur = Some id \/ In id (map fst (applied l)).
Proof.
  induction l as [|e l IH]; intros cur cur' Hs Hr; [discriminate|].
  destruct e as [i b|i b st|i k g ty|i]; simpl in Hs, Hr |- *.
  - eauto.
  - destruct cur; [discriminate|].
    destruct (IH _ _ Hs Hr) as [[= ->] | H]; auto.
  - destruct cur as [c|]; [|discriminate].
    destruct (Nat.eqb c i); [eauto | discriminate].
  - destruct cur as [c|]; [|discriminate].
    destruct (Nat.eqb c i) eqn:Ec; [|discriminate].
    apply Nat.eqb_eq in Ec. subst c.
    destruct (Nat.eqb id i) eqn:Ei.
    + apply Nat.eqb_eq in Ei. subst. now left.
    + simpl in Hr. destruct (IH _ _ Hs Hr) as [[=] | H]. now right.
Qed.

Lemma rest_ticket_unresolved s : at_rest s -> resolved (tickets s) (log s) = false.
Proof.
  intros [[H1 H2 _] _ [_ Hs]].
  destruct (resolved (tickets s) (log s)) eqn:E; [|reflexivity].
  destruct (scan_resolved (tickets s) (log s) None None Hs E) as [[=] | H].
  rewrite app_nil_r in H2. rewrite <- H2, H1 in H.
  apply in_seq in H. lia.
Qed.

(** X19. A side effect that throws leaves the store stuck.  When a store
    at rest is handed an action for which one of the side effects of its
    type throws, the transition is applied and published, the promise of
    the caller stays pending, and [_isDispatching] stays set. *)
Theorem throwing_side_effect_wedges_store fuel s a x y :
  at_rest s ->
  Exists (throws_on s a) (effects_for s a) ->
  exists s', dispatch fuel s (mkCall (ByAction a) x y) = (Done s', Pending)
    /\ _isDispatching s' = true
    /\ _state s' = _actionHandler s (_state s) (Some a)
    /\ applied (log s') = applied (log s) ++ [(tickets s, a)].
Proof.
  intros Hrest Hthrow.
  pose proof (rest_ticket_unresolved s Hrest) as Hres.
  destruct Hrest as [_ _ [Hidle _]].
  unfold dispatch. cbn [resolve_call target]. rewrite Hidle.
  set (s1 := submit s a). set (id := tickets s).
  set (st := _actionHandler s (_state s) (Some a)).
  set (s2 := emit (set_state (set_dispatching s1 true) st) (Publish id a st)).
  assert (Ht : transition s1 id a = run_effects s2 id a 0 (effects_for s a))
    by reflexivity.
  destruct (run_effects_throws (effects_for s a) s2 id a 0 Hthrow) as (e & He).
  pose proof (run_effects_quiet (effects_for s a) s2 id a 0) as Q.
  destruct (run_effects s2 id a 0 (effects_for s a)) as [s3 res] eqn:Er.
  simpl in He, Q. subst res.
  assert (Hserve : serve fuel s1 id a = Done s3).
  { destruct fuel; cbn [serve]; now rewrite Ht. }
  rewrite Hserve. cbn [store_of].
  destruct Q as [_ S D A R].
  exists s3. split; [|split; [exact D|split; [exact S|]]].
  - f_equal. rewrite R. unfold s2, s1. simpl.
    rewrite !resolved_app. fold id in Hres. rewrite Hres. reflexivity.
  - rewrite A. unfold s2, s1. simpl. rewrite !applied_app. simpl.
    now rewrite app_nil_r.
Qed.

Lemma throwing_side_effect_wedges_store_witness :
  exists s',
    dispatch 5 (init (mkStore (compiled [counter_decl])
                              (Some [("INC", [mkSideEffect "INC" throwing_effect])])
                              [] [] false SUndef 0 [])
                     (SObj [("counter", VNum 0)]))
             (mkCall (ByAction (INC 5)) VUndef VUndef) = (Done s', Pending)
    /\ _isDispatching s' = true.
Proof.
  destruct (throwing_side_effect_wedges_store 5
              (init (mkStore (compiled [counter_decl])
                             (Some [("INC", [mkSideEffect "INC" throwing_effect])])
                             [] [] false SUndef 0 [])
                    (SObj [("counter", VNum 0)]))
              (INC 5) VUndef VUndef) as (s' & H1 & H2 & _).
  - apply fresh_at_rest. repeat split.
  - left. unfold throws_on. simpl. discriminate.
  - exists s'. split; [exact H1 | exact H2].
Defined.

(** ** The state as a replay of the applied actions *)

Lemma replay_snoc ah st l a :
  replay ah st (l ++ [a]) = ah (replay ah st l) (Some a).
Proof. unfold replay. now rewrite fold_left_app. Qed.

(** The state is the replay of the applied actions from [st0]: what is
    quiet keeps that. *)
Lemma quiet_replayed ah st0 s s' :
  quiet s s' ->
  _actionHandler s = ah
  /\ _state s = replay ah st0 (map snd (applied (log s))) ->
  _actionHandler s' = ah
  /\ _state s' = replay ah st0 (map snd (applied (log s'))).
Proof.
  intros [[E _ _] S _ A _] (H1 & H2). split; congruence.
Qed.

Lemma serve_replayed ah st0 fuel : forall s id a,
  _actionHandler s = ah
  /\ _state s = replay ah st0 (map snd (applied (log s))) ->
  _actionHandler (store_of (serve fuel s id a)) = ah
  /\ _state (store_of (serve fuel s id a))
     = replay ah st0 (map snd (applied (log (store_of (serve fuel s id a))))).
Proof.
  induction fuel as [|fuel IH]; intros s id a (H1 & H2); cbn [serve];
    unfold transition;
    set (st := _actionHandler (set_dispatching s true)
                              (_state (set_dispatching s true)) (Some a));
    set (s2 := emit (set_state (set_dispatching s true) st) (Publish id a st));
    (assert (I2 : _actionHandler s2 = ah
                  /\ _state s2 = replay ah st0 (map snd (applied (log s2))))
      by (split; [exact H1|]; unfold s2, st; simpl;
          rewrite applied_app, map_app; simpl;
          rewrite replay_snoc, <- H2, H1; reflexivity));
    pose proof (quiet_replayed ah st0 _ _
                  (run_effects_quiet (effects_for s2 a) s2 id a 0) I2) as I3;
    destruct (run_effects s2 id a 0 (effects_for s2 a)) as [s3 res];
    simpl in I3;
    (assert (I4 : _actionHandler (finish s3 id) = ah
                  /\ _state (finish s3 id)
                     = replay ah st0 (map snd (applied (log (finish s3 id)))))
      by (destruct I3 as (H3 & H4); split; [exact H3|]; simpl;
          rewrite applied_app, app_nil_r; exact H4));
    destruct res as [e|]; cbn [store_of]; try exact I3;
    destruct (_dispatchQueue (finish s3 id)) as [|[id' a'] q] eqn:Eq;
    cbn [store_of]; try exact I4.
  apply IH. exact I4.
Qed.

Lemma dispatch_replayed ah st0 fuel s c :
  _actionHandler s = ah
  /\ _state s = replay ah st0 (map snd (applied (log s))) ->
  _actionHandler (store_of (fst (dispatch fuel s c))) = ah
  /\ _state (store_of (fst (dispatch fuel s c)))
     = replay ah st0
              (map snd (applied (log (store_of (fst (dispatch fuel s c)))))).
Proof.
  intros I. unfold dispatch. destruct (resolve_call s c) as [a|e];
    [|exact I].
  destruct (_isDispatching s); cbn [fst store_of].
  - exact (quiet_replayed ah st0 _ _ (enqueue_quiet s a) I).
  - apply serve_replayed.
    exact (quiet_replayed ah st0 _ _ (submit_quiet s a) I).
Qed.

Lemma dispatch_all_replayed ah st0 fuel cs : forall s,
  _actionHandler s = ah
  /\ _state s = replay ah st0 (map snd (applied (log s))) ->
  _actionHandler (store_of (dispatch_all fuel s cs)) = ah
  /\ _state (store_of (dispatch_all fuel s cs))
     = replay ah st0 (map snd (applied (log (store_of (dispatch_all fuel s cs))))).
Proof.
  induction cs as [|c cs IH]; intros s I; cbn [dispatch_all]; [exact I|].
  pose proof (dispatch_replayed ah st0 fuel s c I) as I1.
  destruct (fst (dispatch fuel s c)) as [s1|s1]; cbn [store_of] in *;
    [now apply IH | exact I1].
Qed.

(** X20. The state of the store is the replay of the applied actions:
    after any sequence of calls on a store with an empty log, whatever the
    side effects do, the state is what the action handler reaches from the
    state at the start through the actions of the transitions applied, in
    the order in which they were applied. *)
Theorem state_replays_applied_actions fuel cs s0 :
  log s0 = [] ->
  _state (store_of (dispatch_all fuel s0 cs))
  = replay (_actionHandler s0) (_state s0)
           (map snd (applied (log (store_of (dispatch_all fuel s0 cs))))).
Proof.
  intros Hlog.
  apply (dispatch_all_replayed (_actionHandler s0) (_state s0) fuel cs s0).
  split; [reflexivity|]. now rewrite Hlog.
Qed.

Lemma state_replays_applied_actions_witness :
  _state (store_of (dispatch_all 5 example_store example_calls))
  = replay (_actionHandler example_store) (_state example_store)
           (map snd (applied (log (store_of
                                     (dispatch_all 5 example_store example_calls))))).
Proof.
  apply (state_replays_applied_actions 5 example_calls example_store).
  reflexivity.
Defined.
